(** * Verification of the speech-relay server core

    A shallow embedding of the parts of the Django/Channels voice server
    that carry its engineering risk:

    - [Text]    Python [str] primitives and the fragment of [re] the code uses
    - [Filter]  the character-level think-tag filter of
                [StreamChatConsumer.call_llm_and_respond] and the whole-string
                [filter_think_tags]
    - [Pool]    [FunASRConnectionPool]
    - [Session] the body of the listener loop of [StreamChatConsumer]
    - [Client]  [FunASRClient.receive_message], the listener loop and the
                listener beside the transport
    - [Batch]   [FunASRClient.recognize_audio]
    - [Audio]   [convert_to_mono_16bit], [resample_audio], [process_wav_audio]
    - [History] [UserSession.add_conversation]
    - [Llm]     [call_llm_simple]

    Definitions come first, the theorems about them follow. *)

From Stdlib Require Import ZArith NArith QArith Qround Lia Lqa Bool List Ascii String.
From stdpp Require Import base option list gmap strings fin_maps.
Import ListNotations.

Set Default Proof Using "Type".

(* ===================================================================== *)
(** * Part I: the program *)
(* ===================================================================== *)

(** ** Python strings and regular expressions *)

Module Text.

(** A Python [str] is a sequence of Unicode code points. *)
Definition char := N.
Definition str := list char.

(** String literals of the source, as code points. *)
Definition py (s : string) : str :=
  map N_of_ascii (list_ascii_of_string s).

Definition char_eqb (a b : char) : bool := N.eqb a b.

Fixpoint str_eqb (a b : str) : bool :=
  match a, b with
  | [], [] => true
  | x :: a', y :: b' => char_eqb x y && str_eqb a' b'
  | _, _ => false
  end.

(** [c.isspace()] for a one-character string, which is also what [\s]
    matches in a [str] pattern and what [str.strip()] removes: the
    code points whose Unicode class is whitespace. *)
Definition isspace (c : char) : bool :=
  (((9 <=? c) && (c <=? 13)) || ((28 <=? c) && (c <=? 32))
   || (c =? 133) || (c =? 160) || (c =? 5760)
   || ((8192 <=? c) && (c <=? 8202))
   || (c =? 8232) || (c =? 8233) || (c =? 8239) || (c =? 8287)
   || (c =? 12288))%N.

(** [s.startswith(prefix)] *)
Fixpoint startswith (s prefix : str) : bool :=
  match prefix with
  | [] => true
  | p :: prefix' =>
      match s with
      | [] => false
      | c :: s' => char_eqb c p && startswith s' prefix'
      end
  end.

(** Truthiness of a string: [if s:] *)
Definition truthy (s : str) : bool :=
  match s with [] => false | _ :: _ => true end.

Fixpoint lstrip (s : str) : str :=
  match s with
  | [] => []
  | c :: s' => if isspace c then lstrip s' else s
  end.

Definition rstrip (s : str) : str := rev (lstrip (rev s)).

(** [s.strip()] *)
Definition strip (s : str) : str := rstrip (lstrip s).

(** *** The fragment of [re] the code uses

    Every pattern in the source is a sequence of literal characters,
    character classes and starred classes ([.*?], [\s*], [[^|]*]).  The
    matcher is the backtracking one of [re]: a lazy star tries the rest
    of the pattern first and extends by one character on failure, a
    greedy star extends first and gives characters back on failure. *)
Inductive atom :=
| Chr (c : char)                 (* a literal character *)
| Cls (p : char -> bool)         (* one character of a class *)
| StarLazy (p : char -> bool)    (* class*? *)
| StarGreedy (p : char -> bool). (* class*  *)

Definition pattern := list atom.

(** [match_here pat s]: the text left after the match of [pat] that
    [re] finds at the start of [s], if there is one. *)
Fixpoint match_here (pat : pattern) : str -> option str :=
  match pat with
  | [] => fun s => Some s
  | Chr c :: pat' => fun s =>
      match s with
      | x :: s' => if char_eqb x c then match_here pat' s' else None
      | [] => None
      end
  | Cls p :: pat' => fun s =>
      match s with
      | x :: s' => if p x then match_here pat' s' else None
      | [] => None
      end
  | StarLazy p :: pat' =>
      fix lazy (s : str) : option str :=
        match match_here pat' s with
        | Some r => Some r
        | None =>
            match s with
            | x :: s' => if p x then lazy s' else None
            | [] => None
            end
        end
  | StarGreedy p :: pat' =>
      fix greedy (s : str) : option str :=
        match s with
        | x :: s' =>
            if p x then
              match greedy s' with
              | Some r => Some r
              | None => match_here pat' s
              end
            else match_here pat' s
        | [] => match_here pat' s
        end
  end.

(** [re.sub(pat, repl, s)]: scan left to right; where [pat] matches,
    write [repl] and go on after the match, otherwise copy one
    character.  [fuel] bounds the number of scan steps; [re_sub] gives
    it one step per character and one more.  (An empty match writes
    [repl] and copies the next character; no pattern of the source can
    match the empty string, each starts with a literal.) *)
Fixpoint re_sub_fuel (fuel : nat) (pat : pattern) (repl s : str) : str :=
  match fuel with
  | O => s
  | S fuel' =>
      match match_here pat s with
      | Some r =>
          if (length r <? length s)%nat
          then repl ++ re_sub_fuel fuel' pat repl r
          else match s with
               | [] => repl
               | c :: s' => repl ++ c :: re_sub_fuel fuel' pat repl s'
               end
      | None =>
          match s with
          | [] => []
          | c :: s' => c :: re_sub_fuel fuel' pat repl s'
          end
      end
  end.

Definition re_sub (pat : pattern) (repl s : str) : str :=
  re_sub_fuel (S (length s)) pat repl s.

Definition lit (s : string) : pattern := map Chr (py s).

(** *** Vocabulary for statements about text *)

(** Whether [pat] matches somewhere in [s]. *)
Fixpoint matches_somewhere (pat : pattern) (s : str) : bool :=
  match match_here pat s with
  | Some _ => true
  | None =>
      match s with
      | [] => false
      | _ :: s' => matches_somewhere pat s'
      end
  end.

(** Text without the character a pattern starts with. *)
Definition free_of (c : char) (t : str) : bool :=
  forallb (fun x => negb (char_eqb x c)) t.

(** Whether a string ends in whitespace. *)
Definition ends_with_space (s : str) : bool :=
  match rev s with
  | c :: _ => isspace c
  | [] => false
  end.

End Text.

(** ** The response filter *)

Module Filter.
Import Text.

(** [r'<think>.*?</think>'] with [re.DOTALL]: the dot matches every
    character. *)
Definition think_span : pattern :=
  lit "<think>" ++ [StarLazy (fun _ => true)] ++ lit "</think>".

(** [r'\n\s*\n'] *)
Definition blank_lines : pattern :=
  [Chr 10%N; StarGreedy isspace; Chr 10%N].

(** llm_client.py, [filter_think_tags] *)
Definition filter_think_tags (text : str) : str :=
  let text := re_sub think_span [] text in
  let text := re_sub blank_lines [10%N] text in
  strip text.

(** The local variables of the streaming loop in
    [call_llm_and_respond]. *)
Record FilterState := mkFilterState {
  in_think_block : bool;
  is_start_output : bool;
  pending_content : str
}.

Definition initial : FilterState :=
  {| in_think_block := false; is_start_output := true; pending_content := [] |}.

Definition set_pending (st : FilterState) (p : str) : FilterState :=
  {| in_think_block := in_think_block st;
     is_start_output := is_start_output st;
     pending_content := p |}.

Definition langle : char := 60%N.  (* '<' *)

(** One iteration of [for char in chunk]: the new locals and the
    [content] of the [ai_chunk] messages sent, in order. *)
Definition step (st : FilterState) (c : char) : FilterState * list str :=
  let pending := pending_content st in
  if in_think_block st then
    if char_eqb c langle && negb (truthy pending) then
      (set_pending st [langle], [])
    else if truthy pending && (length pending <? 8)%nat then
      let pending := pending ++ [c] in
      if str_eqb pending (py "</think>") then
        ({| in_think_block := false;
            is_start_output := is_start_output st;
            pending_content := [] |}, [])
      else if negb (startswith (py "</think>") pending) then
        (set_pending st [], [])
      else (set_pending st pending, [])
    else (set_pending st [], [])
  else if is_start_output st then
    if isspace c then (st, [])
    else if char_eqb c langle then (set_pending st [langle], [])
    else if truthy pending && (length pending <? 7)%nat then
      let pending := pending ++ [c] in
      if str_eqb pending (py "<think>") then
        ({| in_think_block := true;
            is_start_output := is_start_output st;
            pending_content := [] |}, [])
      else if negb (startswith (py "<think>") pending) then
        ({| in_think_block := in_think_block st;
            is_start_output := false;
            pending_content := [] |}, [pending])
      else (set_pending st pending, [])
    else
      let content_to_send := if truthy pending then pending ++ [c] else [c] in
      ({| in_think_block := in_think_block st;
          is_start_output := false;
          pending_content := [] |}, [content_to_send])
  else
    if char_eqb c langle && negb (truthy pending) then
      (set_pending st [langle], [])
    else if truthy pending && (length pending <? 7)%nat then
      let pending := pending ++ [c] in
      if str_eqb pending (py "<think>") then
        ({| in_think_block := true;
            is_start_output := is_start_output st;
            pending_content := [] |}, [])
      else if negb (startswith (py "<think>") pending) then
        (set_pending st [], [pending])
      else (set_pending st pending, [])
    else (st, [[c]]).

(** [for char in chunk: ...] *)
Fixpoint feed (st : FilterState) (chunk : str) : FilterState * list str :=
  match chunk with
  | [] => (st, [])
  | c :: chunk' =>
      let '(st1, out1) := step st c in
      let '(st2, out2) := feed st1 chunk' in
      (st2, out1 ++ out2)
  end.

(** [async for chunk in call_llm_stream(...)], for a session that stays
    running while the reply streams in. *)
Fixpoint feed_chunks (st : FilterState) (chunks : list str)
  : FilterState * list str :=
  match chunks with
  | [] => (st, [])
  | chunk :: chunks' =>
      let '(st1, out1) := if truthy chunk then feed st chunk else (st, []) in
      let '(st2, out2) := feed_chunks st1 chunks' in
      (st2, out1 ++ out2)
  end.

(** The flush after the loop. *)
Definition flush (st : FilterState) : list str :=
  if truthy (pending_content st) && negb (in_think_block st)
     && negb (is_start_output st)
  then [pending_content st] else [].

(** All [ai_chunk] contents of one reply, in the order sent. *)
Definition stream_chunks (chunks : list str) : list str :=
  let '(st, out) := feed_chunks initial chunks in
  out ++ flush st.

(** What the client has displayed once the reply is complete. *)
Definition visible (sent : list str) : str := concat sent.

(** The reply delivered one character per chunk. *)
Definition one_char_chunks (s : str) : list str := map (fun c => [c]) s.

Definition stream_by_char (s : str) : str :=
  visible (stream_chunks (one_char_chunks s)).

(** *** Vocabulary for statements about replies *)

(** The three modes of the loop with nothing pending. *)
Definition Leading : FilterState := initial.
Definition Normal : FilterState := mkFilterState false false [].
Definition Hidden (start : bool) : FilterState := mkFilterState true start [].

(** A reply made of visible text and hidden spans: [t0], then for each
    [(body, t)] of [segs] the span [<think>body</think>] followed by
    the text [t]. *)
Definition with_spans (t0 : str) (segs : list (str * str)) : str :=
  t0 ++ flat_map (fun seg => py "<think>" ++ fst seg ++ py "</think>" ++ snd seg)
                 segs.

(** The text of such a reply outside its spans. *)
Definition visible_text (t0 : str) (segs : list (str * str)) : str :=
  t0 ++ flat_map snd segs.

(** The marker the loop is watching for in a state. *)
Definition watched (st : FilterState) : str :=
  if in_think_block st then py "</think>" else py "<think>".

(** What is pending is a proper prefix of the watched marker. *)
Definition pending_ok (st : FilterState) : Prop :=
  startswith (watched st) (pending_content st) = true
  /\ (length (pending_content st) < length (watched st))%nat.

(** No ['<'] other than those of the markers. *)
Definition well_delimited (t0 : str) (segs : list (str * str)) : bool :=
  free_of langle t0
  && forallb (fun seg => free_of langle (fst seg) && free_of langle (snd seg)) segs.

End Filter.

(** ** The connection pool *)

Module Pool.

(** The transport under a client.  [closed = None] stands for a
    websocket object without a [closed] attribute. *)
Record WebSocket := mkWebSocket { closed : option bool }.

(** funasr_client.py, [FunASRClient]: the field the pool looks at. *)
Record FunASRClient := mkClient { websocket : option WebSocket }.

(** [FunASRClient.is_connected] *)
Definition is_connected (c : FunASRClient) : bool :=
  match websocket c with
  | None => false
  | Some ws =>
      match closed ws with
      | Some b => negb b
      | None => true
      end
  end.

(** funasr_pool.py, [PooledConnection].  Clock readings are rationals. *)
Record PooledConnection := mkPooled {
  client : FunASRClient;
  created_at : Q;
  last_used : Q;
  in_use : bool;
  user_id : option string
}.

(** A [PooledConnection] object is shared between the list
    [connections] and the dict [user_connections]; both hold
    references into [heap], and a reference is the index at which the
    object was allocated. *)
Abbreviation loc := nat (only parsing).

Record FunASRConnectionPool := mkPool {
  min_connections : Z;
  max_connections : Z;
  max_idle_time : Z;
  heap : list PooledConnection;
  connections : list loc;
  user_connections : gmap string loc;
  _initialized : bool
}.

(** [FunASRConnectionPool.__init__] *)
Definition new_pool (min_c max_c max_idle : Z) : FunASRConnectionPool :=
  {| min_connections := min_c; max_connections := max_c;
     max_idle_time := max_idle;
     heap := []; connections := []; user_connections := ∅;
     _initialized := false |}.

Definition set_store (p : FunASRConnectionPool)
    (h : list PooledConnection) (cs : list loc) (us : gmap string loc)
  : FunASRConnectionPool :=
  {| min_connections := min_connections p;
     max_connections := max_connections p;
     max_idle_time := max_idle_time p;
     heap := h; connections := cs; user_connections := us;
     _initialized := _initialized p |}.

(** [conn.client.is_connected()] and [not conn.in_use] through a
    reference. *)
Definition live (p : FunASRConnectionPool) (l : loc) : bool :=
  match heap p !! l with
  | Some conn => is_connected (client conn)
  | None => false
  end.

Definition free (p : FunASRConnectionPool) (l : loc) : bool :=
  match heap p !! l with
  | Some conn => negb (in_use conn)
  | None => false
  end.

(** What the network does when a client is created: [connect] raises
    or yields a websocket, and the send of the initial configuration
    raises or not. *)
Record Net := mkNet {
  connect_result : option WebSocket;
  send_ok : bool
}.

(** [FunASRClient.connect]; [None] is a raised exception. *)
Definition connect (c : FunASRClient) (net : Net) : option FunASRClient :=
  match connect_result net with
  | Some ws => Some {| websocket := Some ws |}
  | None => None
  end.

(** [FunASRClient.send_config]; raises without a websocket or when the
    send fails. *)
Definition send_config (c : FunASRClient) (net : Net) : option unit :=
  match websocket c with
  | None => None
  | Some _ => if send_ok net then Some tt else None
  end.

(** [FunASRConnectionPool._create_connection] *)
Definition _create_connection (now : Q) (net : Net)
  : option PooledConnection :=
  let client := {| websocket := None |} in
  client ← connect client net;
  _ ← send_config client net;
  Some {| client := client; created_at := now; last_used := now;
          in_use := false; user_id := None |}.

Definition unbound (now : Q) (conn : PooledConnection) : PooledConnection :=
  {| client := client conn; created_at := created_at conn;
     last_used := now; in_use := false; user_id := None |}.

Definition bound (u : string) (now : Q) (conn : PooledConnection)
  : PooledConnection :=
  {| client := client conn; created_at := created_at conn;
     last_used := now; in_use := true; user_id := Some u |}.

Definition touched (now : Q) (conn : PooledConnection) : PooledConnection :=
  {| client := client conn; created_at := created_at conn;
     last_used := now; in_use := in_use conn; user_id := user_id conn |}.

(** [FunASRConnectionPool._remove_user_connection] *)
Definition _remove_user_connection (p : FunASRConnectionPool)
    (u : string) (now : Q) : FunASRConnectionPool :=
  match user_connections p !! u with
  | Some l =>
      set_store p (alter (unbound now) l (heap p)) (connections p)
                (delete u (user_connections p))
  | None => p
  end.

(** [FunASRConnectionPool.release_connection] *)
Definition release_connection (p : FunASRConnectionPool)
    (u : string) (now : Q) : FunASRConnectionPool :=
  _remove_user_connection p u now.

(** The last block of [get_connection], reached when the owner has no
    live connection and none is free: create one if the pool has room.
    The [except] around the creation logs and falls through to the
    "pool full" return. *)
Definition get_connection_new (p : FunASRConnectionPool) (u : string)
    (now : Q) (net : Net) : FunASRConnectionPool * option loc :=
  if (Z.of_nat (length (connections p)) <? max_connections p)%Z then
    match _create_connection now net with
    | Some conn =>
        let l := length (heap p) in
        (set_store p (heap p ++ [bound u now conn])
                   (connections p ++ [l])
                   (<[u := l]> (user_connections p)), Some l)
    | None => (p, None)
    end
  else (p, None).

(** [FunASRConnectionPool.get_connection]: the new pool and the client
    handed out, named by the reference of its pooled connection;
    [None] is the "pool full" result. *)
Definition get_connection (p : FunASRConnectionPool) (u : string)
    (now : Q) (net : Net) : FunASRConnectionPool * option loc :=
  let existing :=
    match user_connections p !! u with
    | Some l =>
        if live p l then inl l
        else inr (_remove_user_connection p u now)
    | None => inr p
    end in
  match existing with
  | inl l =>
      (set_store p (alter (touched now) l (heap p)) (connections p)
                 (user_connections p), Some l)
  | inr p =>
      match List.find (fun l => free p l && live p l) (connections p) with
      | Some l =>
          (set_store p (alter (bound u now) l (heap p)) (connections p)
                     (<[u := l]> (user_connections p)), Some l)
      | None => get_connection_new p u now net
      end
  end.

(** [FunASRConnectionPool.initialize]: one creation attempt per
    [range(min_connections)], each with its own network outcome. *)
Fixpoint create_initial (p : FunASRConnectionPool) (now : Q)
    (nets : list Net) : FunASRConnectionPool :=
  match nets with
  | [] => p
  | net :: nets' =>
      let p' :=
        match _create_connection now net with
        | Some conn =>
            set_store p (heap p ++ [conn])
                      (connections p ++ [length (heap p)])
                      (user_connections p)
        | None => p
        end in
      create_initial p' now nets'
  end.

Definition initialize (p : FunASRConnectionPool) (now : Q)
    (net : nat -> Net) : FunASRConnectionPool :=
  if _initialized p then p
  else
    let p' := create_initial p now
                (map net (seq 0 (Z.to_nat (min_connections p)))) in
    {| min_connections := min_connections p';
       max_connections := max_connections p';
       max_idle_time := max_idle_time p';
       heap := heap p'; connections := connections p';
       user_connections := user_connections p';
       _initialized := true |}.

(** [a > b] on clock readings *)
Definition Qgtb (a b : Q) : bool := negb (Qle_bool a b).

(** The test of the sweep for the connection at one index. *)
Definition sweep_candidate (p : FunASRConnectionPool) (current_time : Q)
    (l : loc) : bool :=
  match heap p !! l with
  | Some conn =>
      negb (in_use conn)
      && (min_connections p <? Z.of_nat (length (connections p)))%Z
      && Qgtb (current_time - last_used conn) (inject_Z (max_idle_time p))
  | None => false
  end.

(** The first loop of a sweep: the indices into [connections] to
    remove, in increasing order. *)
Definition connections_to_remove (p : FunASRConnectionPool)
    (current_time : Q) : list nat :=
  omap (fun '(i, l) => if sweep_candidate p current_time l
                       then Some i else None)
       (imap (fun i l => (i, l)) (connections p)).

(** [FunASRClient.disconnect] inside the sweep's [try]: [close] may
    raise, which leaves the websocket field as it was. *)
Definition disconnect (close_raises : bool) (c : FunASRClient)
  : FunASRClient :=
  match websocket c with
  | Some _ => if close_raises then c else {| websocket := None |}
  | None => c
  end.

Definition disconnected (close_raises : bool) (conn : PooledConnection)
  : PooledConnection :=
  {| client := disconnect close_raises (client conn);
     created_at := created_at conn; last_used := last_used conn;
     in_use := in_use conn; user_id := user_id conn |}.

(** The second loop of a sweep: [for i in reversed(...)]: disconnect
    [connections[i]] and [pop(i)]. *)
Fixpoint remove_at (p : FunASRConnectionPool)
    (close_raises : loc -> bool) (indices : list nat)
  : FunASRConnectionPool :=
  match indices with
  | [] => p
  | i :: indices' =>
      match connections p !! i with
      | Some l =>
          remove_at
            (set_store p
               (alter (disconnected (close_raises l)) l (heap p))
               (delete i (connections p)) (user_connections p))
            close_raises indices'
      | None => p  (* IndexError: the tick ends *)
      end
  end.

(** One tick of [_cleanup_idle_connections], under the lock. *)
Definition cleanup_tick (p : FunASRConnectionPool) (current_time : Q)
    (close_raises : loc -> bool) : FunASRConnectionPool :=
  remove_at p close_raises (rev (connections_to_remove p current_time)).

(** The network closes the transport under a pooled client. *)
Definition transport_closed (p : FunASRConnectionPool) (l : loc)
  : FunASRConnectionPool :=
  set_store p
    (alter (fun conn =>
              {| client := {| websocket := None |};
                 created_at := created_at conn;
                 last_used := last_used conn;
                 in_use := in_use conn; user_id := user_id conn |})
           l (heap p))
    (connections p) (user_connections p).

(** [len(self.connections)], the [total_connections] of [get_stats]. *)
Definition total_connections (p : FunASRConnectionPool) : nat :=
  length (connections p).

(** What can happen to the pool between two calls of one owner. *)
Inductive event :=
| Acquire (u : string) (now : Q) (net : Net)
| Release (u : string) (now : Q)
| Sweep (current_time : Q) (close_raises : loc -> bool)
| TransportClosed (l : loc).

Definition run_event (p : FunASRConnectionPool) (e : event)
  : FunASRConnectionPool :=
  match e with
  | Acquire u now net => fst (get_connection p u now net)
  | Release u now => release_connection p u now
  | Sweep t cr => cleanup_tick p t cr
  | TransportClosed l => transport_closed p l
  end.

Definition run_events (p : FunASRConnectionPool) (es : list event)
  : FunASRConnectionPool :=
  fold_left run_event es p.

(** The owner an event acts for, if it is a pool call. *)
Definition event_owner (e : event) : option string :=
  match e with
  | Acquire u _ _ => Some u
  | Release u _ => Some u
  | _ => None
  end.

(** One call of [get_connection]: who asks, the clock reading, and what
    the network does if a connection has to be created. *)
Record call := mkCall {
  caller : string;
  at_time : Q;
  network : Net
}.

(** Calls of [get_connection] one after the other, nothing else
    happening to the pool in between; the results in order. *)
Fixpoint acquire_all (p : FunASRConnectionPool) (calls : list call)
  : FunASRConnectionPool * list (option loc) :=
  match calls with
  | [] => (p, [])
  | c :: calls' =>
      let '(p1, r) := get_connection p (caller c) (at_time c) (network c) in
      let '(p2, rs) := acquire_all p1 calls' in
      (p2, r :: rs)
  end.

(** [FunASRConnectionPool.close], after the sweep task is cancelled:
    disconnect every client (a failing [close] is logged and skipped)
    and clear the list and the owner map.  [_initialized] stays set. *)
Definition close (p : FunASRConnectionPool) (close_raises : loc -> bool)
  : FunASRConnectionPool :=
  {| min_connections := min_connections p;
     max_connections := max_connections p;
     max_idle_time := max_idle_time p;
     heap := fold_left
               (fun h l => alter (disconnected (close_raises l)) l h)
               (connections p) (heap p);
     connections := [];
     user_connections := ∅;
     _initialized := _initialized p |}.

(** *** Vocabulary for statements about the pool *)

(** The pooled connection [_create_connection] returns at [now] on a
    network on which it succeeds. *)
Definition created (now : Q) (net : Net) : PooledConnection :=
  {| client := {| websocket := connect_result net |};
     created_at := now; last_used := now;
     in_use := false; user_id := None |}.

(** What the bookkeeping says of the object behind a reference: whether
    it is in use, and for whom. *)
Definition slot (p : FunASRConnectionPool) (l : loc)
  : option (bool * option string) :=
  (fun conn => (in_use conn, user_id conn)) <$> heap p !! l.

(** The list, the owner map and the flags of the pooled connections
    agree: the list holds no connection twice and only allocated ones;
    an owner is bound to a listed connection marked in use for that
    owner; a listed connection marked in use is bound to its owner. *)
Record bookkeeping_ok (p : FunASRConnectionPool) : Prop := {
  ok_nodup : NoDup (connections p);
  ok_valid : forall l, In l (connections p) -> is_Some (slot p l);
  ok_bound :
    forall u l, user_connections p !! u = Some l ->
      In l (connections p) /\ slot p l = Some (true, Some u);
  ok_in_use :
    forall l o, In l (connections p) -> slot p l = Some (true, o) ->
      exists u, o = Some u /\ user_connections p !! u = Some l
}.

(** The connections of the list that are bound to an owner. *)
Definition in_use_count (p : FunASRConnectionPool) : nat :=
  length (List.filter (fun l => negb (free p l)) (connections p)).

(** Every pooled connection is free and live. *)
Definition all_idle (p : FunASRConnectionPool) : bool :=
  forallb (fun l => free p l && live p l) (connections p).

(** Every pooled connection is free and has been idle for longer than
    [max_idle_time] at [current_time]. *)
Definition all_idle_since (p : FunASRConnectionPool) (current_time : Q) : bool :=
  forallb (fun l =>
             match heap p !! l with
             | Some conn =>
                 negb (in_use conn)
                 && Qgtb (current_time - last_used conn)
                         (inject_Z (max_idle_time p))
             | None => false
             end) (connections p).

(** The bookkeeping of a pool in which the owners [owners] hold a
    connection each and every other connection is free and live. *)
Record serving (p : FunASRConnectionPool) (owners : list string) : Prop := {
  serving_nodup : NoDup (connections p);
  serving_valid : forall l, In l (connections p) -> (l < length (heap p))%nat;
  serving_free_live :
    forall l, In l (connections p) -> free p l = true -> live p l = true;
  serving_count : in_use_count p = length owners;
  serving_max : (Z.of_nat (length (connections p)) <= max_connections p)%Z;
  serving_owners :
    forall u l, user_connections p !! u = Some l -> In u owners
}.

(** [_create_connection] goes through. *)
Definition creation_succeeds (net : Net) : bool :=
  match connect_result net with
  | Some _ => send_ok net
  | None => false
  end.

(** A network on which every connection opens and every send works. *)
Definition good_net : Net :=
  {| connect_result := Some {| closed := Some false |}; send_ok := true |}.

End Pool.

(** ** Recognition text and the listener of a streaming session *)

Module Session.
Import Text.

(** [<\|[^|]*\|>] *)
Definition tag : pattern :=
  [Chr 60%N; Chr 124%N; StarGreedy (fun c => negb (char_eqb c 124%N));
   Chr 124%N; Chr 62%N].

(** utils.py, [clean_recognition_text] *)
Definition clean_recognition_text (text : str) : str :=
  if negb (truthy text) then text
  else
    let cleaned_text :=
      re_sub (tag ++ tag ++ tag ++ [StarGreedy isspace]) [] text in
    let cleaned_text := re_sub (tag ++ [StarGreedy isspace]) [] cleaned_text in
    strip cleaned_text.

(** A recogniser tag [<|x|>]. *)
Definition tagged (x : str) : str := py "<|" ++ x ++ py "|>".

(** A parsed text frame of the recogniser: the keys the code reads. *)
Record Data := mkData {
  text : option str;      (* data["text"], if the key is there *)
  mode : option str;      (* data["mode"], if the key is there *)
  is_final : bool         (* data.get("is_final", False) *)
}.

(** [data.get("mode", "")] *)
Definition get_mode (data : Data) : str := default [] (mode data).

(** The fields of [StreamChatConsumer] the listener works on.
    [llm_calls_active] is a ghost counter: the calls of
    [call_llm_and_respond] that have begun and not yet reached their
    [finally]. *)
Record Consumer := mkConsumer {
  is_running : bool;
  accumulated_text : str;
  last_complete_text : str;
  is_ai_speaking : bool;
  llm_calls_active : nat
}.

(** The state [connect] leaves. *)
Definition connected : Consumer :=
  {| is_running := true; accumulated_text := []; last_complete_text := [];
     is_ai_speaking := false; llm_calls_active := 0 |}.

Inductive Action :=
| recognition_partial (display_text : str)
| recognition_final (display_text : str)
| call_llm_and_respond (user_input : str).

(** The body of the listener loop for one received [data] that is not
    [None].  When it reaches [call_llm_and_respond], the call begins:
    its first statement sets [is_ai_speaking]. *)
Definition handle_data (st : Consumer) (data : Data)
  : Consumer * list Action :=
  match text data with
  | Some raw_text =>
      if negb (is_ai_speaking st) && is_running st then
        let mode := get_mode data in
        if str_eqb mode (py "2pass-online") then
          ({| is_running := is_running st;
              accumulated_text := raw_text;
              last_complete_text := last_complete_text st;
              is_ai_speaking := is_ai_speaking st;
              llm_calls_active := llm_calls_active st |},
           [recognition_partial (clean_recognition_text raw_text)])
        else if str_eqb mode (py "2pass-offline")
                || str_eqb mode (py "offline") then
          let display_text := clean_recognition_text raw_text in
          if truthy display_text && truthy (strip display_text)
             && negb (str_eqb display_text (last_complete_text st)) then
            ({| is_running := is_running st;
                accumulated_text := raw_text;
                last_complete_text := display_text;
                is_ai_speaking := true;
                llm_calls_active := S (llm_calls_active st) |},
             [recognition_final display_text;
              call_llm_and_respond display_text])
          else
            ({| is_running := is_running st;
                accumulated_text := raw_text;
                last_complete_text := last_complete_text st;
                is_ai_speaking := is_ai_speaking st;
                llm_calls_active := llm_calls_active st |}, [])
        else (st, [])
      else (st, [])
  | None => (st, [])
  end.

(** The [finally] of [call_llm_and_respond]. *)
Definition llm_finished (st : Consumer) : Consumer :=
  match llm_calls_active st with
  | O => st
  | S n =>
      {| is_running := is_running st;
         accumulated_text := accumulated_text st;
         last_complete_text := last_complete_text st;
         is_ai_speaking := false;
         llm_calls_active := n |}
  end.

(** [disconnect]: the session stops. *)
Definition stopped (st : Consumer) : Consumer :=
  {| is_running := false;
     accumulated_text := accumulated_text st;
     last_complete_text := last_complete_text st;
     is_ai_speaking := is_ai_speaking st;
     llm_calls_active := llm_calls_active st |}.

(** What happens to a session, in any order: the listener takes a
    message from the recogniser, a running call ends, the client
    leaves.  The listener of the source waits for the call it started;
    the model lets a message be handled while a call is active as
    well, which is when the guard on [is_ai_speaking] decides. *)
Inductive Event :=
| Received (data : Data)
| LlmFinished
| Disconnected.

Definition on_event (st : Consumer) (e : Event) : Consumer * list Action :=
  match e with
  | Received data => handle_data st data
  | LlmFinished => (llm_finished st, [])
  | Disconnected => (stopped st, [])
  end.

Fixpoint run (st : Consumer) (es : list Event) : Consumer * list Action :=
  match es with
  | [] => (st, [])
  | e :: es' =>
      let '(st1, out1) := on_event st e in
      let '(st2, out2) := run st1 es' in
      (st2, out1 ++ out2)
  end.

Definition is_call (a : Action) : bool :=
  match a with call_llm_and_respond _ => true | _ => false end.

(** The number of LLM calls among the actions. *)
Definition llm_calls (out : list Action) : nat :=
  length (List.filter is_call out).

(** *** Vocabulary for statements about sessions *)

(** A finalized result: its mode is one of the two offline modes. *)
Definition final_result (data : Data) : bool :=
  str_eqb (get_mode data) (py "2pass-offline")
  || str_eqb (get_mode data) (py "offline").

(** A finalized result of the second pass carrying [raw_text]. *)
Definition Final (raw_text : str) : Data :=
  {| text := Some raw_text; mode := Some (py "2pass-offline");
     is_final := false |}.

(** The user inputs of the LLM calls among the actions, in order. *)
Definition call_inputs (out : list Action) : list str :=
  omap (fun a => match a with
                 | call_llm_and_respond t => Some t
                 | _ => None
                 end) out.

(** No two neighbours of a list are equal. *)
Fixpoint adjacent_distinct (l : list str) : Prop :=
  match l with
  | a :: l' =>
      match l' with
      | b :: _ => a <> b /\ adjacent_distinct l'
      | [] => True
      end
  | [] => True
  end.

(** The finalized results among the events. *)
Definition final_results (es : list Event) : nat :=
  length (List.filter (fun e => match e with
                                | Received data => final_result data
                                | _ => false
                                end) es).

End Session.

(** ** The recogniser client and the listener loop *)

Module Client.
Import Text Pool Session.

(** What one [await websocket.recv()] under [wait_for] comes to. *)
Inductive Recv :=
| Timeout                               (* asyncio.TimeoutError *)
| BinaryMessage (message : list Byte.byte)
| TextMessage (parsed : option Data)    (* [None]: JSONDecodeError *)
| ConnectionClosed
| OtherError.

(** [FunASRClient.receive_message]: the client afterwards and the value
    returned. *)
Definition receive_message (c : FunASRClient) (net : Recv)
  : FunASRClient * option Data :=
  match websocket c with
  | None => (c, None)
  | Some ws =>
      match closed ws with
      | Some true => (c, None)
      | _ =>
          match net with
          | Timeout => (c, None)
          | BinaryMessage _ => (c, None)
          | TextMessage parsed => (c, parsed)
          | ConnectionClosed => ({| websocket := None |}, None)
          | OtherError => ({| websocket := None |}, None)
          end
      end
  end.

(** Successive calls of [receive_message]. *)
Fixpoint receive_all (c : FunASRClient) (nets : list Recv)
  : FunASRClient * list (option Data) :=
  match nets with
  | [] => (c, [])
  | net :: nets' =>
      let '(c1, r) := receive_message c net in
      let '(c2, rs) := receive_all c1 nets' in
      (c2, r :: rs)
  end.

(** [StreamChatConsumer.handle_funasr_responses]: the listener loop over
    what the successive receives come to.  The loop ends when the
    session has stopped or the client is not connected; a call to the
    LLM is awaited in place, so it has ended when the next message is
    received. *)
Fixpoint handle_funasr_responses (st : Consumer) (c : FunASRClient)
    (nets : list Recv) : Consumer * FunASRClient * list Action :=
  match nets with
  | [] => (st, c, [])
  | net :: nets' =>
      if negb (is_running st) then (st, c, [])
      else if negb (is_connected c) then (st, c, [])
      else
        let '(c1, data) := receive_message c net in
        match data with
        | None => handle_funasr_responses st c1 nets'
        | Some data =>
            let '(st1, out1) := handle_data st data in
            let st1 := if (0 <? llm_calls (out1))%nat
                       then llm_finished st1 else st1 in
            let '(st2, c2, out2) := handle_funasr_responses st1 c1 nets' in
            (st2, c2, out1 ++ out2)
        end
  end.

(** *** The listener beside the transport

    The listener is one task.  It awaits [call_llm_and_respond] in
    place, so while a call is running it reads nothing, and what the
    recogniser sends meanwhile waits in the receive queue of the
    websocket until the listener reads again. *)
Record Relay := mkRelay {
  consumer : Consumer;
  funasr_client : FunASRClient;
  received : list Recv     (* arrived at the transport, not yet read *)
}.

(** What can happen, in any order. *)
Inductive Tick :=
| Arrives (net : Recv)     (* the transport receives a frame, or fails *)
| ListenerRuns             (* the listener task is scheduled *)
| CallEnds                 (* the awaited call reaches its [finally] *)
| ClientLeaves.            (* [disconnect] *)

(** One scheduling of the listener: nothing while it awaits a call;
    otherwise one iteration of its loop, where a read from an empty
    queue times out. *)
Definition listener_runs (s : Relay) : Relay * list Action :=
  let st := consumer s in
  let c := funasr_client s in
  if (0 <? llm_calls_active st)%nat then (s, [])
  else if negb (is_running st) then (s, [])
  else if negb (is_connected c) then (s, [])
  else
    let net := match received s with [] => Timeout | net :: _ => net end in
    let '(c1, data) := receive_message c net in
    let '(st1, out) := match data with
                       | None => (st, [])
                       | Some data => handle_data st data
                       end in
    ({| consumer := st1; funasr_client := c1;
        received := tail (received s) |}, out).

Definition tick (s : Relay) (t : Tick) : Relay * list Action :=
  match t with
  | Arrives net =>
      ({| consumer := consumer s; funasr_client := funasr_client s;
          received := received s ++ [net] |}, [])
  | ListenerRuns => listener_runs s
  | CallEnds =>
      ({| consumer := llm_finished (consumer s);
          funasr_client := funasr_client s; received := received s |}, [])
  | ClientLeaves =>
      ({| consumer := stopped (consumer s);
          funasr_client := funasr_client s; received := received s |}, [])
  end.

Fixpoint relay (s : Relay) (ticks : list Tick) : Relay * list Action :=
  match ticks with
  | [] => (s, [])
  | t :: ticks' =>
      let '(s1, out1) := tick s t in
      let '(s2, out2) := relay s1 ticks' in
      (s2, out1 ++ out2)
  end.

(** A session right after [connect], on an open transport. *)
Definition listening (ws : WebSocket) : Relay :=
  {| consumer := connected; funasr_client := {| websocket := Some ws |};
     received := [] |}.

End Client.

(** ** Batch recognition *)

Module Batch.
Import Text.

Definition bytes := list Byte.byte.

(** The values of a control frame. *)
Inductive json :=
| JStr (s : string)
| JInt (z : Z)
| JBool (b : bool)
| JInts (l : list Z).

Definition config := list (string * json).

Inductive Frame :=
| TextFrame (message : config)
| BinaryFrame (audio_data : bytes).

(** What the recogniser's side and the scheduler do during one call:
    whether [connect] raises or yields a websocket; how many sends go
    through before one raises ([None]: all do); what the successive
    [websocket.recv()] of the result task come to while the caller
    sends and waits, up to the moment the caller cancels the task;
    whether [websocket.close()] raises in the final [disconnect]; and,
    for a send that fails once the result task exists (nothing cancels
    the task then), whether the task comes to spin on the dead
    transport before the caller has returned. *)
Record Net := mkNet {
  connect_result : option Pool.WebSocket;
  sends_before_failure : option nat;
  incoming : list Client.Recv;
  close_raises : bool;
  orphan_blocks : bool
}.

Record World := mkWorld {
  client : Pool.FunASRClient;
  sent : list Frame;
  sends_left : option nat
}.

(** Computations that send frames and may raise ([None]). *)
Definition M (A : Type) : Type := World -> option A * World.

#[local] Instance M_ret : MRet M := fun A (a : A) w => (Some a, w).

#[local] Instance M_bind : MBind M := fun A B (k : A -> M B) (m : M A) w =>
  match m w with
  | (Some a, w') => k a w'
  | (None, w') => (None, w')
  end.

(** [FunASRClient.connect] *)
Definition connect (net : Net) : M unit :=
  fun w =>
    match connect_result net with
    | Some ws =>
        (Some tt, {| client := {| Pool.websocket := Some ws |};
                     sent := sent w; sends_left := sends_left w |})
    | None => (None, w)
    end.

(** [await self.websocket.send(...)], behind the test
    [if not self.websocket: raise RuntimeError]. *)
Definition websocket_send (f : Frame) : M unit :=
  fun w =>
    match Pool.websocket (client w) with
    | None => (None, w)
    | Some _ =>
        match sends_left w with
        | Some O => (None, w)
        | Some (S n) =>
            (Some tt, {| client := client w; sent := sent w ++ [f];
                         sends_left := Some n |})
        | None =>
            (Some tt, {| client := client w; sent := sent w ++ [f];
                         sends_left := None |})
        end
    end.

(** [FunASRClient.send_config] and [FunASRClient.send_audio_data] *)
Definition send_config (cfg : config) : M unit :=
  websocket_send (TextFrame cfg).

Definition send_audio_data (audio_data : bytes) : M unit :=
  websocket_send (BinaryFrame audio_data).

(** [FunASRClient.disconnect], the method [Pool.disconnect] models
    inside a [try]: here a raising [close] is seen by the caller. *)
Definition disconnect (close_raises : bool) : M unit :=
  fun w =>
    match Pool.websocket (client w) with
    | Some _ =>
        if close_raises then (None, w)
        else (Some tt, {| client := {| Pool.websocket := None |};
                          sent := sent w; sends_left := sends_left w |})
    | None => (Some tt, w)
    end.

Definition offline_config (sample_rate : Z) : config :=
  [("mode", JStr "offline"); ("chunk_size", JInts [5; 10; 5]%Z);
   ("chunk_interval", JInt 10); ("audio_fs", JInt sample_rate);
   ("wav_name", JStr "uploaded_audio"); ("wav_format", JStr "pcm");
   ("is_speaking", JBool true); ("hotwords", JStr "");
   ("itn", JBool true)]%string.

Definition end_config : config := [("is_speaking", JBool false)]%string.

Definition chunk_size : nat := 960.

(** [while pos < len(pcm_data)]: send [pcm_data[pos:pos + chunk_size]]
    and advance.  [fuel] bounds the iterations. *)
Fixpoint send_chunks (fuel : nat) (pcm_data : bytes) (pos : nat) : M unit :=
  match fuel with
  | O => mret tt
  | S fuel' =>
      if (pos <? length pcm_data)%nat then
        let chunk := take chunk_size (drop pos pcm_data) in
        if (length chunk =? 0)%nat then mret tt
        else
          send_audio_data chunk ;;
          send_chunks fuel' pcm_data (pos + chunk_size)
      else mret tt
  end.

(** How the inner task [handle_recognition_results] ends, if it
    does. *)
Inductive Polling :=
| TaskOver (accumulated_text : str)
    (* the loop was left at a final flag, or the task was cancelled
       while it waited for a frame *)
| Spins.
    (* [receive_message] returns [None] at once, again and again: the
       loop never suspends, and no other task runs any more *)

(** The inner task.  Once the client has no websocket or a closed one,
    [receive_message] returns [None] without awaiting anything and the
    loop [continue]s for ever. *)
Fixpoint handle_recognition_results (c : Pool.FunASRClient)
    (accumulated_text : str) (incoming : list Client.Recv) : Polling :=
  if negb (Pool.is_connected c) then Spins
  else
    match incoming with
    | [] => TaskOver accumulated_text
    | net :: rest =>
        let '(c1, data) := Client.receive_message c net in
        match data with
        | None => handle_recognition_results c1 accumulated_text rest
        | Some data =>
            let accumulated_text :=
              match Session.text data with
              | Some t =>
                  if truthy (strip t) then
                    let raw_text := strip t in
                    let mode := Session.get_mode data in
                    if str_eqb mode (py "offline")
                       || str_eqb mode (py "2pass-offline")
                    then accumulated_text ++ raw_text ++ py " "
                    else accumulated_text
                  else accumulated_text
              | None => accumulated_text
              end in
            if Session.is_final data then TaskOver accumulated_text
            else handle_recognition_results c1 accumulated_text rest
        end
    end.

(** What a call of [recognize_audio] comes to. *)
Inductive Outcome :=
| Returned (text : str) (sent : list Frame)
| Raised (sent : list Frame)  (* the [close] of the final disconnect raised *)
| NeverReturns.               (* the result task spins: the caller is
                                 never scheduled again *)

(** [finally: await self.disconnect()], then the pending [return]. *)
Definition finish (net : Net) (text : str) (w : World) : Outcome :=
  match disconnect (close_raises net) w with
  | (Some _, w') => Returned text (sent w')
  | (None, w') => Raised (sent w')
  end.

(** [FunASRClient.recognize_audio], called without a progress
    callback.  The result task is created after the first
    configuration is sent; it is cancelled only on the path that
    reaches the end of the [try]. *)
Definition recognize_audio (pcm_data : bytes) (sample_rate : Z) (net : Net)
  : Outcome :=
  let w0 := {| client := {| Pool.websocket := None |}; sent := [];
               sends_left := sends_before_failure net |} in
  match (connect net ;; send_config (offline_config sample_rate)) w0 with
  | (None, w) => finish net [] w
  | (Some _, w) =>
      match (send_chunks (length pcm_data) pcm_data 0 ;;
             send_config end_config) w with
      | (None, w') =>
          if orphan_blocks net then NeverReturns else finish net [] w'
      | (Some _, w') =>
          match handle_recognition_results (client w') [] (incoming net) with
          | TaskOver accumulated_text =>
              finish net
                (Session.clean_recognition_text (strip accumulated_text)) w'
          | Spins => NeverReturns
          end
      end
  end.

(** *** Vocabulary for statements about batch recognition *)

(** A buffer cut into frames of [chunk_size] bytes, the last one taking
    what is left. *)
Fixpoint split_frames (fuel : nat) (data : bytes) : list bytes :=
  match fuel with
  | O => []
  | S fuel' =>
      match data with
      | [] => []
      | _ :: _ =>
          take chunk_size data :: split_frames fuel' (drop chunk_size data)
      end
  end.

Definition frames (pcm_data : bytes) : list bytes :=
  split_frames (length pcm_data) pcm_data.

(** A network on which the connection opens, no send fails and the
    final close does not raise. *)
Definition reliable (net : Net) : bool :=
  match connect_result net with
  | Some ws => Pool.is_connected {| Pool.websocket := Some ws |}
  | None => false
  end
  && match sends_before_failure net with None => true | Some _ => false end
  && negb (close_raises net).

(** No receive meets a closed connection or an error before the first
    final flag, or before the task is cancelled. *)
Fixpoint stays_open (incoming : list Client.Recv) : bool :=
  match incoming with
  | [] => true
  | Client.ConnectionClosed :: _ => false
  | Client.OtherError :: _ => false
  | Client.TextMessage (Some data) :: rest =>
      if Session.is_final data then true else stays_open rest
  | _ :: rest => stays_open rest
  end.

(** The finalized fragments the result task took in: the stripped,
    non-empty texts of the offline results up to the first final
    flag. *)
Fixpoint fragments (incoming : list Client.Recv) : list str :=
  match incoming with
  | [] => []
  | Client.TextMessage (Some data) :: rest =>
      let here :=
        match Session.text data with
        | Some t =>
            if truthy (strip t)
               && (str_eqb (Session.get_mode data) (py "offline")
                   || str_eqb (Session.get_mode data) (py "2pass-offline"))
            then [strip t] else []
        | None => []
        end in
      if Session.is_final data then here else here ++ fragments rest
  | _ :: rest => fragments rest
  end.

Definition is_audio (f : Frame) : bool :=
  match f with BinaryFrame _ => true | TextFrame _ => false end.

End Batch.

(** ** Resampling *)

Module Audio.

Definition bytes := list Byte.byte.

Definition byte_to_Z (b : Byte.byte) : Z := Z.of_N (Byte.to_N b).

Definition byte_of_Z (z : Z) : Byte.byte :=
  match Byte.of_N (Z.to_N z) with
  | Some b => b
  | None => Byte.x00
  end.

(** One little-endian signed 16-bit sample, [struct] format [<h]. *)
Definition int16_of (lo hi : Byte.byte) : Z :=
  let u := (byte_to_Z lo + 256 * byte_to_Z hi)%Z in
  if (u <? 32768)%Z then u else (u - 65536)%Z.

(** [struct.unpack(f'<{len(b)//2}h', b)]; [None] is [struct.error],
    raised when a byte is left over. *)
Fixpoint unpack_h (b : bytes) : option (list Z) :=
  match b with
  | [] => Some []
  | [_] => None
  | lo :: hi :: rest => cons (int16_of lo hi) <$> unpack_h rest
  end.

(** [struct.pack(f'<{len(l)}h', *l)]; [None] is [struct.error], raised
    for a value outside the 16-bit range. *)
Fixpoint pack_h (l : list Z) : option bytes :=
  match l with
  | [] => Some []
  | z :: rest =>
      if ((-32768 <=? z) && (z <=? 32767))%Z then
        let u := (z mod 65536)%Z in
        app [byte_of_Z (u mod 256); byte_of_Z (u / 256)] <$> pack_h rest
      else None
  end.

(** [int(x)] of a float: truncation toward zero.  Floats are modelled
    by the rationals they stand for. *)
Definition int_of (x : Q) : Z := Z.quot (Qnum x) (Z.pos (Qden x)).

(** [l[i]] with Python's negative indices; [None] is [IndexError]. *)
Definition index (l : list Z) (i : Z) : option Z :=
  if (i <? 0)%Z then
    if (0 <=? Z.of_nat (length l) + i)%Z
    then l !! Z.to_nat (Z.of_nat (length l) + i) else None
  else l !! Z.to_nat i.

(** The body of the resampling loop for output index [i]. *)
Definition resample_at (samples : list Z) (ratio : Q) (i : Z) : option Z :=
  if Qeq_bool ratio 0 then None  (* ZeroDivisionError *)
  else
    let src_pos := (inject_Z i / ratio)%Q in
    let src_index := int_of src_pos in
    if (Z.of_nat (length samples) - 1 <=? src_index)%Z then
      index samples (-1)
    else
      s0 ← index samples src_index;
      s1 ← index samples (src_index + 1);
      let t := (src_pos - inject_Z src_index)%Q in
      let sample := (inject_Z s0 * (1 - t) + inject_Z s1 * t)%Q in
      Some (int_of sample).

(** audio_processor.py, [resample_audio]; [None] is a raised
    exception. *)
Definition resample_audio (pcm_data : bytes) (from_rate to_rate : Z)
  : option bytes :=
  if (from_rate =? to_rate)%Z then Some pcm_data
  else
    samples ← unpack_h pcm_data;
    if (from_rate =? 0)%Z then None  (* ZeroDivisionError *)
    else
      let ratio := (inject_Z to_rate / inject_Z from_rate)%Q in
      let new_length :=
        int_of (inject_Z (Z.of_nat (length samples)) * ratio) in
      resampled ← mapM (resample_at samples ratio)
                       (map Z.of_nat (seq 0 (Z.to_nat new_length)));
      pack_h resampled.

(** [struct.unpack(f'<{len(b)}B', b)]: unsigned bytes. *)
Definition unpack_B (b : bytes) : list Z := map byte_to_Z b.

(** One little-endian signed 32-bit sample, [struct] format [<i]. *)
Definition int32_of (b0 b1 b2 b3 : Byte.byte) : Z :=
  let u := (byte_to_Z b0 + 256 * byte_to_Z b1 + 65536 * byte_to_Z b2
            + 16777216 * byte_to_Z b3)%Z in
  if (u <? 2147483648)%Z then u else (u - 4294967296)%Z.

(** [struct.unpack(f'<{len(b)//4}i', b)]; [None] is [struct.error],
    raised when bytes are left over. *)
Fixpoint unpack_i (b : bytes) : option (list Z) :=
  match b with
  | [] => Some []
  | b0 :: b1 :: b2 :: b3 :: rest => cons (int32_of b0 b1 b2 b3) <$> unpack_i rest
  | _ => None
  end.

(** [sum(l)] *)
Definition sum (l : list Z) : Z := fold_right Z.add 0%Z l.

(** The downmix loop [for i in range(0, len(samples), channels)]: the
    floor of the mean of each group of [channels] samples, the last
    group taking what is left.  [fuel] bounds the iterations. *)
Fixpoint downmix (fuel : nat) (channels : nat) (samples : list Z) : list Z :=
  match fuel with
  | O => []
  | S fuel' =>
      match samples with
      | [] => []
      | _ :: _ =>
          (sum (take channels samples) / Z.of_nat channels)%Z
          :: downmix fuel' channels (drop channels samples)
      end
  end.

(** [max(-32768, min(32767, s))] *)
Definition clamp (s : Z) : Z := Z.max (-32768) (Z.min 32767 s).

(** audio_processor.py, [convert_to_mono_16bit]; [None] is a raised
    exception ([struct.error] or the [ValueError] for a sample width
    that is not supported). *)
Definition convert_to_mono_16bit (audio_data : bytes)
    (channels sample_width : Z) : option bytes :=
  if ((sample_width =? 2) && (channels =? 1))%Z then Some audio_data
  else
    samples ←
      (if (sample_width =? 1)%Z then
         Some (map (fun s => ((s - 128) * 256)%Z) (unpack_B audio_data))
       else if (sample_width =? 2)%Z then unpack_h audio_data
       else if (sample_width =? 4)%Z then
         map (fun s => (s / 65536)%Z) <$> unpack_i audio_data
       else None);
    let samples :=
      if (1 <? channels)%Z
      then downmix (length samples) (Z.to_nat channels) samples
      else samples in
    let samples := map clamp samples in
    pack_h samples.

(** What [wave.open] reads from a WAV container. *)
Record Wav := mkWav {
  getnchannels : Z;
  getsampwidth : Z;
  getframerate : Z;
  readframes : bytes
}.

(** audio_processor.py, [process_wav_audio], after the container is
    parsed. *)
Definition process_wav_audio (wav_file : Wav) : option (bytes * Z) :=
  let channels := getnchannels wav_file in
  let sample_width := getsampwidth wav_file in
  let sample_rate := getframerate wav_file in
  pcm_data ← convert_to_mono_16bit (readframes wav_file) channels sample_width;
  if negb (sample_rate =? 16000)%Z then
    pcm_data ← resample_audio pcm_data sample_rate 16000;
    Some (pcm_data, 16000%Z)
  else Some (pcm_data, sample_rate).

(** *** Vocabulary for statements about audio *)

(** Every sample repeated on each of [channels] channels. *)
Definition interleave_same (channels : nat) (mono : list Z) : list Z :=
  flat_map (fun s => repeat s channels) mono.

(** The number of 16-bit samples in a PCM buffer. *)
Definition sample_count (pcm_data : bytes) : nat := length pcm_data / 2.

(** The range of a signed 16-bit sample. *)
Definition int16 (z : Z) : Prop := (-32768 <= z <= 32767)%Z.

End Audio.

(* ===================================================================== *)

(** ** The conversation history (models.py) *)

Module History.
Import Text.

(** One entry of [UserSession.conversation_history]. *)
Record Round := mkRound {
  user : str;
  assistant : str;
  timestamp : str
}.

(** [l[i:]], with Python's negative start. *)
Definition slice_from {A} (l : list A) (i : Z) : list A :=
  if (i <? 0)%Z
  then drop (Z.to_nat (Z.of_nat (length l) + i)) l
  else drop (Z.to_nat i) l.

(** models.py, [UserSession.add_conversation]: the new value of
    [conversation_history].  [max_conversation_history] is the field of
    the system configuration and [now] the timestamp taken. *)
Definition add_conversation (max_conversation_history : Z)
    (conversation_history : list Round) (user_input ai_response now : str)
  : list Round :=
  let conversation_history :=
    conversation_history ++ [mkRound user_input ai_response now] in
  if (max_conversation_history <? Z.of_nat (length conversation_history))%Z
  then slice_from conversation_history (- max_conversation_history)
  else conversation_history.

End History.

(** ** The non-streaming LLM call (llm_client.py) *)

Module Llm.
Import Text.

(** What [client.chat.completions.create] does: it raises, or returns
    the list of choices, each with its message content, which may be
    [None]. *)
Inductive Completion :=
| ApiError
| Choices (contents : list (option str)).

(** The reply when there is nothing to say. *)
Definition sorry : str :=
  [25265; 27465; 65292; 25105; 26080; 27861; 29702; 35299; 24744; 30340;
   38382; 39064; 12290]%N.

(** The reply when the call raised. *)
Definition unavailable : str :=
  [26381; 21153; 26242; 26102; 19981; 21487; 29992; 65292; 35831; 31245;
   21518; 20877; 35797; 12290]%N.

(** llm_client.py, [call_llm_simple], from the response on.  A content
    of [None] makes [re.sub] raise, which the [except] catches. *)
Definition call_llm_simple (response : Completion) : str :=
  match response with
  | ApiError => unavailable
  | Choices [] => sorry
  | Choices (None :: _) => unavailable
  | Choices (Some content :: _) =>
      let filtered_content := Filter.filter_think_tags content in
      if truthy (strip filtered_content) then strip filtered_content
      else sorry
  end.

End Llm.


(** * Part II: the properties *)
(* ===================================================================== *)

(** ** Facts about strings and substitution *)

Section TextFacts.
Import Text.

Lemma char_eqb_eq a b : char_eqb a b = true <-> a = b.
Proof. unfold char_eqb. apply N.eqb_eq. Qed.

Lemma str_eqb_eq a b : str_eqb a b = true <-> a = b.
Proof.
  revert b. induction a as [|x a IH]; intros [|y b]; simpl; try easy.
  rewrite andb_true_iff, char_eqb_eq, IH. split.
  - intros [-> ->]. reflexivity.
  - intros [= -> ->]. auto.
Qed.

Lemma str_eqb_refl a : str_eqb a a = true.
Proof. apply str_eqb_eq. reflexivity. Qed.

(** A match never leaves more text than it was given. *)
Lemma match_here_length pat : forall s r,
  match_here pat s = Some r -> (length r <= length s)%nat.
Proof.
  induction pat as [|a pat IH]; intros s r.
  - simpl. intros [= ->]. lia.
  - destruct a as [c|p|p|p]; simpl.
    + destruct s as [|x s]; [discriminate|].
      destruct (char_eqb x c); [|discriminate].
      intros H. apply IH in H. simpl. lia.
    + destruct s as [|x s]; [discriminate|].
      destruct (p x); [|discriminate].
      intros H. apply IH in H. simpl. lia.
    + revert r. induction s as [|x s IHs]; intros r.
      * destruct (match_here pat []) eqn:E; [|discriminate].
        intros [= ->]. apply IH in E. exact E.
      * destruct (match_here pat (x :: s)) eqn:E.
        { intros [= ->]. apply IH in E. exact E. }
        destruct (p x); [|discriminate].
        intros H. apply IHs in H. simpl. lia.
    + revert r. induction s as [|x s IHs]; intros r.
      * intros H. apply IH in H. exact H.
      * destruct (p x).
        { match goal with
          | |- context [match ?g with Some _ => _ | None => _ end] =>
              destruct g eqn:E
          end.
          - intros [= ->]. specialize (IHs _ eq_refl). simpl. lia.
          - intros H. apply IH in H. exact H. }
        intros H. apply IH in H. exact H.
Qed.

(** More fuel than characters changes nothing. *)
Lemma re_sub_fuel_enough pat repl : forall fuel s,
  (length s < fuel)%nat ->
  re_sub_fuel fuel pat repl s = re_sub pat repl s.
Proof.
  assert (Hstep : forall n fuel s, (length s <= n)%nat ->
            (length s < fuel)%nat ->
            re_sub_fuel fuel pat repl s
            = re_sub_fuel (S (length s)) pat repl s).
  { induction n as [|n IH]; intros fuel s Hn Hf.
    - destruct s; [|simpl in Hn; lia].
      destruct fuel; [lia|]. simpl.
      destruct (match_here pat []) as [r|] eqn:E; [|reflexivity].
      apply match_here_length in E. destruct r; [|simpl in E; lia].
      reflexivity.
    - destruct fuel as [|fuel]; [lia|].
      cbn [re_sub_fuel].
      destruct (match_here pat s) as [r|] eqn:E.
      + pose proof (match_here_length _ _ _ E) as Hr.
        destruct (length r <? length s)%nat eqn:Hlt.
        * apply Nat.ltb_lt in Hlt.
          rewrite (IH fuel r) by lia.
          rewrite (IH (length s) r) by lia. reflexivity.
        * destruct s as [|c s]; [reflexivity|].
          simpl in Hn, Hf.
          rewrite (IH fuel s) by lia.
          rewrite (IH (length (c :: s)) s) by (simpl; lia). reflexivity.
      + destruct s as [|c s]; [reflexivity|].
        simpl in Hn, Hf.
        rewrite (IH fuel s) by lia.
        rewrite (IH (length (c :: s)) s) by (simpl; lia). reflexivity. }
  intros fuel s Hf. unfold re_sub. eapply Hstep; eauto.
Qed.

(** The equations of [re.sub]. *)
Lemma re_sub_copy pat repl c s :
  match_here pat (c :: s) = None ->
  re_sub pat repl (c :: s) = c :: re_sub pat repl s.
Proof.
  intros E. unfold re_sub at 1. cbn [re_sub_fuel]. rewrite E.
  rewrite re_sub_fuel_enough by (simpl; lia). reflexivity.
Qed.

Lemma re_sub_replace pat repl s r :
  match_here pat s = Some r -> (length r < length s)%nat ->
  re_sub pat repl s = repl ++ re_sub pat repl r.
Proof.
  intros E Hlt. unfold re_sub at 1. cbn [re_sub_fuel]. rewrite E.
  apply Nat.ltb_lt in Hlt. rewrite Hlt.
  rewrite re_sub_fuel_enough by (apply Nat.ltb_lt in Hlt; lia). reflexivity.
Qed.

Lemma re_sub_no_match c pat repl s :
  matches_somewhere (Chr c :: pat) s = false ->
  re_sub (Chr c :: pat) repl s = s.
Proof.
  induction s as [|x s IH]; [reflexivity|].
  cbn [matches_somewhere].
  destruct (match_here (Chr c :: pat) (x :: s)) eqn:E; [discriminate|].
  intros H. rewrite re_sub_copy by exact E. f_equal. apply IH, H.
Qed.

Lemma re_sub_free_of c pat repl t rest :
  free_of c t = true ->
  re_sub (Chr c :: pat) repl (t ++ rest) = t ++ re_sub (Chr c :: pat) repl rest.
Proof.
  induction t as [|x t IH]; [reflexivity|].
  simpl. rewrite andb_true_iff, negb_true_iff. intros [Hx Ht].
  rewrite re_sub_copy by (simpl; rewrite Hx; reflexivity).
  f_equal. apply IH, Ht.
Qed.

Lemma free_of_no_match c pat t :
  free_of c t = true -> matches_somewhere (Chr c :: pat) t = false.
Proof.
  induction t as [|x t IH]; [reflexivity|].
  simpl. rewrite andb_true_iff, negb_true_iff. intros [Hx Ht].
  rewrite Hx. apply IH, Ht.
Qed.

(** [lstrip] and [strip] *)
Lemma lstrip_all_space t rest :
  forallb isspace t = true -> lstrip (t ++ rest) = lstrip rest.
Proof.
  induction t as [|x t IH]; [reflexivity|].
  simpl. rewrite andb_true_iff. intros [-> Ht]. apply IH, Ht.
Qed.

Lemma lstrip_some_text t rest :
  forallb isspace t = false -> lstrip (t ++ rest) = lstrip t ++ rest.
Proof.
  induction t as [|x t IH]; [discriminate|].
  simpl. destruct (isspace x); simpl; [apply IH | reflexivity].
Qed.

Lemma lstrip_suffix s : exists w, s = w ++ lstrip s.
Proof.
  induction s as [|x s [w IH]]; [exists []; reflexivity|].
  simpl. destruct (isspace x).
  - exists (x :: w). simpl. f_equal. exact IH.
  - exists []. reflexivity.
Qed.

Lemma rstrip_id s : ends_with_space s = false -> rstrip s = s.
Proof.
  unfold ends_with_space, rstrip.
  destruct (rev s) as [|c r] eqn:E.
  - intros _. simpl. apply (f_equal (@rev _)) in E.
    rewrite rev_involutive in E. rewrite E. reflexivity.
  - intros H. simpl. rewrite H. rewrite <- E. apply rev_involutive.
Qed.

Lemma ends_with_space_lstrip s :
  ends_with_space s = false -> ends_with_space (lstrip s) = false.
Proof.
  destruct (lstrip_suffix s) as [w Hw].
  destruct (lstrip s) as [|c l] eqn:E; [reflexivity|].
  intros H. rewrite Hw in H. unfold ends_with_space in *.
  rewrite rev_app_distr in H.
  destruct (rev (c :: l)) as [|y r] eqn:Er.
  - apply (f_equal (@length _)) in Er. rewrite length_rev in Er.
    simpl in Er. lia.
  - exact H.
Qed.

Lemma strip_lstrip s : ends_with_space s = false -> strip s = lstrip s.
Proof.
  intros H. unfold strip. apply rstrip_id, ends_with_space_lstrip, H.
Qed.

Lemma lstrip_head s c r : lstrip s = c :: r -> isspace c = false.
Proof.
  induction s as [|x s IH]; [discriminate|].
  simpl. destruct (isspace x) eqn:E; [exact IH|].
  intros [= <- _]. exact E.
Qed.

Lemma lstrip_snoc a c :
  isspace c = false -> lstrip (a ++ [c]) = lstrip a ++ [c].
Proof.
  intros Hc. induction a as [|x a IH]; simpl.
  - rewrite Hc. reflexivity.
  - destruct (isspace x); [exact IH | reflexivity].
Qed.

Lemma ends_with_space_rstrip s : ends_with_space (rstrip s) = false.
Proof.
  unfold ends_with_space, rstrip. rewrite rev_involutive.
  destruct (lstrip (rev s)) as [|c r] eqn:E; [reflexivity|].
  apply lstrip_head in E. exact E.
Qed.

Lemma rstrip_head c r :
  isspace c = false -> exists r', rstrip (c :: r) = c :: r'.
Proof.
  intros Hc. unfold rstrip. simpl. rewrite (lstrip_snoc _ _ Hc).
  rewrite rev_app_distr. simpl. eauto.
Qed.

Lemma strip_idempotent s : strip (strip s) = strip s.
Proof.
  unfold strip at 2 3.
  destruct (lstrip s) as [|c r] eqn:E; [reflexivity|].
  pose proof (lstrip_head _ _ _ E) as Hc.
  destruct (rstrip_head c r Hc) as [r' Hr].
  unfold strip. rewrite Hr. simpl. rewrite Hc. rewrite <- Hr.
  apply rstrip_id, ends_with_space_rstrip.
Qed.

Lemma strip_all_space s : forallb isspace s = true -> strip s = [].
Proof.
  intros H. unfold strip.
  rewrite <- (app_nil_r s), (lstrip_all_space s [] H). reflexivity.
Qed.

(** *** [clean_recognition_text] *)

Lemma rstrip_length s : (length (rstrip s) <= length s)%nat.
Proof.
  unfold rstrip. rewrite length_rev.
  destruct (lstrip_suffix (rev s)) as [w Hw].
  apply (f_equal (@length _)) in Hw. rewrite length_app, length_rev in Hw. lia.
Qed.


End TextFacts.

(** ** The response filter *)

Section FilterFacts.
Import Text Filter.

Example stream_scenario :
  stream_by_char (py "  <think>secret</think>Hello") = py "Hello".
Proof. vm_compute. reflexivity. Qed.

Example whole_scenario :
  filter_think_tags (py "  <think>secret</think>Hello") = py "Hello".
Proof. vm_compute. reflexivity. Qed.

(** *** The streaming loop, state by state *)

Lemma feed_app st a b :
  feed st (a ++ b) =
  (fst (feed (fst (feed st a)) b),
   snd (feed st a) ++ snd (feed (fst (feed st a)) b)).
Proof.
  revert st. induction a as [|c a IH]; intros st; simpl.
  - destruct (feed st b). reflexivity.
  - destruct (step st c) as [st1 o1]. rewrite IH.
    destruct (feed st1 a) as [st2 o2]. simpl.
    rewrite app_assoc. reflexivity.
Qed.

Lemma feed_one_char_chunks st s :
  feed_chunks st (one_char_chunks s) = feed st s.
Proof.
  revert st. induction s as [|c s IH]; intros st; [reflexivity|].
  simpl. destruct (step st c) as [st1 o1]. rewrite IH.
  destruct (feed st1 s) as [st2 o2]. rewrite app_nil_r. reflexivity.
Qed.

(** The chunking of a reply does not matter to the loop. *)
Lemma feed_chunks_concat chunks : forall st,
  feed_chunks st chunks = feed st (concat chunks).
Proof.
  induction chunks as [|chunk chunks IH]; intros st; [reflexivity|].
  cbn [feed_chunks concat]. rewrite feed_app.
  destruct chunk as [|c chunk].
  - cbn [truthy feed fst snd app]. rewrite IH.
    destruct (feed st (concat chunks)). reflexivity.
  - cbn [truthy]. destruct (feed st (c :: chunk)) as [st1 o1].
    rewrite IH. cbn [fst snd].
    destruct (feed st1 (concat chunks)). reflexivity.
Qed.

Lemma free_of_cons c x t :
  free_of c (x :: t) = true -> char_eqb x c = false /\ free_of c t = true.
Proof. simpl. rewrite andb_true_iff, negb_true_iff. auto. Qed.

(** Normal text passes through. *)
Lemma feed_normal_text t :
  free_of langle t = true ->
  fst (feed Normal t) = Normal /\ visible (snd (feed Normal t)) = t.
Proof.
  induction t as [|x t IH]; [auto|].
  intros H. apply free_of_cons in H as [Hx Ht].
  destruct (IH Ht) as [IH1 IH2].
  simpl. unfold step. simpl. rewrite Hx. simpl.
  destruct (feed Normal t) as [st2 o2]. simpl in *.
  split; [exact IH1 | f_equal; exact IH2].
Qed.

(** The start marker hides what follows, from either open state. *)
Lemma feed_start_marker start :
  feed (mkFilterState false start []) (py "<think>") = (Hidden start, []).
Proof. destruct start; reflexivity. Qed.

(** Inside a span nothing is sent. *)
Lemma feed_hidden_body start b :
  free_of langle b = true -> feed (Hidden start) b = (Hidden start, []).
Proof.
  induction b as [|x b IH]; [reflexivity|].
  intros H. apply free_of_cons in H as [Hx Hb].
  simpl. unfold step. simpl. rewrite Hx. simpl.
  change (set_pending (Hidden start) []) with (Hidden start).
  rewrite (IH Hb). reflexivity.
Qed.

(** The end marker gives control back to the state that owned it. *)
Lemma feed_end_marker start :
  feed (Hidden start) (py "</think>") = (mkFilterState false start [], []).
Proof. destruct start; reflexivity. Qed.

(** A whole span, from either open state. *)
Lemma feed_span start body rest :
  free_of langle body = true ->
  feed (mkFilterState false start [])
       (py "<think>" ++ body ++ py "</think>" ++ rest)
  = feed (mkFilterState false start []) rest.
Proof.
  intros Hb.
  rewrite feed_app, feed_start_marker. cbn [fst snd].
  rewrite feed_app, (feed_hidden_body _ _ Hb). cbn [fst snd].
  rewrite feed_app, feed_end_marker. cbn [fst snd].
  destruct (feed _ rest). reflexivity.
Qed.

(** Leading text: whitespace is dropped up to the first other
    character. *)
Lemma feed_leading_text t :
  free_of langle t = true ->
  fst (feed Leading t) = (if forallb isspace t then Leading else Normal)
  /\ visible (snd (feed Leading t)) = lstrip t.
Proof.
  induction t as [|x t IH]; [auto|].
  intros H. pose proof H as H'. apply free_of_cons in H as [Hx Ht].
  simpl. unfold step. simpl.
  destruct (isspace x) eqn:Hs.
  - destruct (IH Ht) as [IH1 IH2]. fold Leading.
    destruct (feed Leading t) as [st2 o2]. simpl in *. auto.
  - rewrite Hx. simpl. fold Normal.
    destruct (feed_normal_text t Ht) as [N1 N2].
    destruct (feed Normal t) as [st2 o2]. simpl in *.
    split; [exact N1 | f_equal; exact N2].
Qed.

Lemma well_delimited_cons t0 body t segs :
  well_delimited t0 ((body, t) :: segs) = true ->
  free_of langle t0 = true /\ free_of langle body = true /\
  well_delimited t segs = true.
Proof.
  unfold well_delimited. simpl.
  rewrite !andb_true_iff. tauto.
Qed.

Lemma with_spans_cons t0 body t segs :
  with_spans t0 ((body, t) :: segs)
  = t0 ++ py "<think>" ++ body ++ py "</think>" ++ with_spans t segs.
Proof.
  unfold with_spans. simpl. rewrite <- !app_assoc. reflexivity.
Qed.

Lemma visible_text_cons t0 body t segs :
  visible_text t0 ((body, t) :: segs) = t0 ++ visible_text t segs.
Proof. reflexivity. Qed.

Lemma feed_normal_spans segs : forall t0,
  well_delimited t0 segs = true ->
  fst (feed Normal (with_spans t0 segs)) = Normal
  /\ visible (snd (feed Normal (with_spans t0 segs))) = visible_text t0 segs.
Proof.
  induction segs as [|[body t] segs IH]; intros t0 H.
  - unfold with_spans, visible_text. simpl. rewrite !app_nil_r.
    apply feed_normal_text.
    unfold well_delimited in H. simpl in H. rewrite andb_true_r in H. exact H.
  - apply well_delimited_cons in H as (H0 & Hb & Hrest).
    rewrite with_spans_cons, visible_text_cons, feed_app.
    destruct (feed_normal_text t0 H0) as [N1 N2].
    cbn [fst snd]. rewrite N1.
    pose proof (feed_span false body (with_spans t segs) Hb) as E.
    change (mkFilterState false false []) with Normal in E. rewrite !E.
    destruct (IH t Hrest) as [I1 I2].
    split; [exact I1|].
    unfold visible in *. rewrite concat_app, N2, I2. reflexivity.
Qed.

Lemma forallb_isspace_app a b :
  forallb isspace (a ++ b) = forallb isspace a && forallb isspace b.
Proof. apply forallb_app. Qed.

Lemma feed_leading_spans segs : forall t0,
  well_delimited t0 segs = true ->
  fst (feed Leading (with_spans t0 segs))
  = (if forallb isspace (visible_text t0 segs) then Leading else Normal)
  /\ visible (snd (feed Leading (with_spans t0 segs)))
     = lstrip (visible_text t0 segs).
Proof.
  induction segs as [|[body t] segs IH]; intros t0 H.
  - unfold with_spans, visible_text. simpl. rewrite !app_nil_r.
    apply feed_leading_text.
    unfold well_delimited in H. simpl in H. rewrite andb_true_r in H. exact H.
  - apply well_delimited_cons in H as (H0 & Hb & Hrest).
    rewrite with_spans_cons, visible_text_cons, feed_app.
    destruct (feed_leading_text t0 H0) as [L1 L2].
    cbn [fst snd]. rewrite L1, forallb_isspace_app.
    destruct (forallb isspace t0) eqn:Hsp.
    + pose proof (feed_span true body (with_spans t segs) Hb) as E.
      change (mkFilterState false true []) with Leading in E. rewrite !E.
      destruct (IH t Hrest) as [I1 I2].
      split; [exact I1|].
      unfold visible in *. rewrite concat_app, L2, I2.
      rewrite (lstrip_all_space t0 _ Hsp).
      rewrite <- (app_nil_r t0) at 1. rewrite (lstrip_all_space t0 [] Hsp).
      reflexivity.
    + pose proof (feed_span false body (with_spans t segs) Hb) as E.
      change (mkFilterState false false []) with Normal in E. rewrite !E.
      destruct (feed_normal_spans segs t Hrest) as [I1 I2].
      split; [exact I1|].
      unfold visible in *. rewrite concat_app, L2, I2.
      rewrite (lstrip_some_text t0 _ Hsp). reflexivity.
Qed.

(** What the client sees of a well-delimited reply delivered one
    character at a time: the text outside the spans, without its leading
    whitespace. *)
Lemma stream_by_char_spans t0 segs :
  well_delimited t0 segs = true ->
  stream_by_char (with_spans t0 segs) = lstrip (visible_text t0 segs).
Proof.
  intros H. unfold stream_by_char, stream_chunks.
  rewrite feed_one_char_chunks. fold Leading.
  destruct (feed_leading_spans segs t0 H) as [S1 S2].
  destruct (feed Leading (with_spans t0 segs)) as [st out]. simpl in *.
  unfold visible in *. rewrite concat_app, S2.
  assert (flush st = []) as ->.
  { rewrite S1. destruct (forallb isspace _); reflexivity. }
  simpl. apply app_nil_r.
Qed.

(** *** The whole-string filter *)

Lemma think_span_unfold :
  think_span = Chr langle :: tl think_span.
Proof. reflexivity. Qed.

(** The lazy star stops at the first end marker. *)
Lemma match_span body rest :
  free_of langle body = true ->
  match_here think_span (py "<think>" ++ body ++ py "</think>" ++ rest)
  = Some rest.
Proof.
  intros Hb.
  set (open := py "<think>"). vm_compute in open. subst open.
  set (close := py "</think>"). vm_compute in close. subst close.
  set (p := think_span). vm_compute in p. subst p.
  cbn [app match_here char_eqb N.eqb Pos.eqb].
  induction body as [|x body IH].
  - reflexivity.
  - apply free_of_cons in Hb as [Hx Hb].
    cbn [app]. cbn [app] in IH. unfold langle in Hx. rewrite Hx.
    apply IH, Hb.
Qed.

Lemma re_sub_spans segs : forall t0,
  well_delimited t0 segs = true ->
  re_sub think_span [] (with_spans t0 segs) = visible_text t0 segs.
Proof.
  induction segs as [|[body t] segs IH]; intros t0 H.
  - unfold with_spans, visible_text. simpl. rewrite !app_nil_r.
    unfold well_delimited in H. simpl in H. rewrite andb_true_r in H.
    rewrite think_span_unfold.
    apply re_sub_no_match, free_of_no_match, H.
  - apply well_delimited_cons in H as (H0 & Hb & Hrest).
    rewrite with_spans_cons, visible_text_cons.
    rewrite think_span_unfold at 1.
    rewrite (re_sub_free_of _ _ _ _ _ H0). rewrite <- think_span_unfold.
    f_equal.
    rewrite (re_sub_replace _ _ _ _ (match_span body _ Hb)).
    + simpl. apply IH, Hrest.
    + rewrite !length_app. simpl. lia.
Qed.

(** What the whole-string filter leaves of a well-delimited reply. *)
Lemma filter_think_tags_spans t0 segs :
  well_delimited t0 segs = true ->
  filter_think_tags (with_spans t0 segs)
  = strip (re_sub blank_lines [10%N] (visible_text t0 segs)).
Proof.
  intros H. unfold filter_think_tags. rewrite (re_sub_spans _ _ H).
  reflexivity.
Qed.

(** *** Streaming against the whole-string filter *)

(** C1, as stated, fails on the code: a reply without any hidden span
    that ends in a space is shown with that space by the streaming
    filter, and the whole-string filter strips it. *)
Lemma stream_differs_from_whole_filter :
  stream_by_char (py "Hello ") = py "Hello "
  /\ filter_think_tags (py "Hello ") = py "Hello"
  /\ stream_by_char (py "Hello ") <> filter_think_tags (py "Hello ").
Proof. vm_compute. repeat split; discriminate. Qed.

(** The two filters also part on a blank line, which only the
    whole-string filter collapses, and on a start marker that is never
    closed, after which the streaming filter shows nothing more. *)
Example blank_line_kept_by_stream :
  stream_by_char [97; 10; 10; 98]%N = [97; 10; 10; 98]%N
  /\ filter_think_tags [97; 10; 10; 98]%N = [97; 10; 98]%N.
Proof. vm_compute. split; reflexivity. Qed.

Example unclosed_span_hidden_by_stream :
  stream_by_char (py "a<think>x") = py "a"
  /\ filter_think_tags (py "a<think>x") = py "a<think>x".
Proof. vm_compute. split; reflexivity. Qed.

(** A ['<'] inside a span can cost the end marker: the streaming loop
    is still inside the span when the reply ends. *)
Example stray_lt_in_span_hides_reply :
  stream_by_char (py "<think>a<</think>x") = []
  /\ filter_think_tags (py "<think>a<</think>x") = py "x".
Proof. vm_compute. split; reflexivity. Qed.

(** *** Blank lines and outer whitespace *)

Lemma greedy_space_run : forall s r,
  match_here [StarGreedy isspace; Chr 10%N] s = Some r ->
  exists m, s = m ++ 10%N :: r /\ forallb isspace m = true.
Proof.
  induction s as [|x s IH]; intros r; simpl.
  - discriminate.
  - assert (Hend : (if char_eqb x 10%N then Some s else None) = Some r ->
                   exists m, x :: s = m ++ 10%N :: r
                             /\ forallb isspace m = true).
    { destruct (char_eqb x 10%N) eqn:E; [|discriminate].
      apply char_eqb_eq in E. subst x. intros [= ->].
      exists []. split; reflexivity. }
    destruct (isspace x) eqn:Hx; [|exact Hend].
    match goal with
    | |- context [match ?g with Some _ => _ | None => _ end] =>
        change g with (match_here [StarGreedy isspace; Chr 10%N] s);
        destruct (match_here [StarGreedy isspace; Chr 10%N] s) as [r'|] eqn:E
    end; [|exact Hend].
    intros [= ->]. destruct (IH _ eq_refl) as (m & -> & Hm).
    exists (x :: m). split; [reflexivity|]. simpl. rewrite Hx. exact Hm.
Qed.

(** What [r'\n\s*\n'] matches is whitespace, two characters or more. *)
Lemma blank_match_run s r :
  match_here blank_lines s = Some r ->
  exists m, s = m ++ r /\ forallb isspace m = true /\ (2 <= length m)%nat.
Proof.
  unfold blank_lines. destruct s as [|x s]; [discriminate|].
  change (match_here [Chr 10%N; StarGreedy isspace; Chr 10%N] (x :: s))
    with (if char_eqb x 10%N
          then match_here [StarGreedy isspace; Chr 10%N] s else None).
  destruct (char_eqb x 10%N) eqn:E; [|discriminate].
  apply char_eqb_eq in E. subst x. intros H.
  destruct (greedy_space_run _ _ H) as (m & -> & Hm).
  exists (10%N :: m ++ [10%N]). split; [|split].
  - cbn [app]. rewrite <- app_assoc. reflexivity.
  - cbn [forallb]. rewrite forallb_app.
    apply andb_true_iff. split; [reflexivity|].
    apply andb_true_iff. split; [exact Hm | reflexivity].
  - cbn [length]. rewrite length_app. simpl. lia.
Qed.

Lemma blank_no_match_text x s :
  isspace x = false -> match_here blank_lines (x :: s) = None.
Proof.
  intros Hx. unfold blank_lines. cbn [match_here].
  destruct (char_eqb x 10%N) eqn:E; [|reflexivity].
  apply char_eqb_eq in E. subst x. discriminate.
Qed.

(** Collapsing blank lines commutes with dropping leading whitespace. *)
Lemma re_sub_blank_lstrip s :
  lstrip (re_sub blank_lines [10%N] s) = re_sub blank_lines [10%N] (lstrip s).
Proof.
  remember (length s) as n eqn:Hn. revert s Hn.
  induction n as [n IH] using lt_wf_ind. intros s Hn.
  destruct s as [|x s]; [reflexivity|].
  destruct (isspace x) eqn:Hx.
  - cbn [lstrip]. rewrite Hx.
    destruct (match_here blank_lines (x :: s)) as [r|] eqn:E.
    + destruct (blank_match_run _ _ E) as (m & Hs & Hm & Hlen).
      assert (Hr : (length r < length (x :: s))%nat)
        by (rewrite Hs, length_app; lia).
      rewrite (re_sub_replace _ _ _ _ E Hr).
      cbn [app lstrip]. change (isspace 10%N) with true. cbv iota.
      rewrite (IH (length r)) by (subst n; lia || reflexivity).
      f_equal.
      assert (Hl : lstrip (x :: s) = lstrip r)
        by (rewrite Hs; apply lstrip_all_space, Hm).
      cbn [lstrip] in Hl. rewrite Hx in Hl. symmetry. exact Hl.
    + rewrite (re_sub_copy _ _ _ _ E). cbn [lstrip]. rewrite Hx.
      apply (IH (length s)); [subst n; simpl; lia | reflexivity].
  - cbn [lstrip]. rewrite Hx.
    rewrite (re_sub_copy _ _ _ _ (blank_no_match_text x s Hx)).
    cbn [lstrip]. rewrite Hx. reflexivity.
Qed.

(** Collapsing blank lines never lengthens a text, and shortens one
    that holds a blank line. *)
Lemma re_sub_blank_length s :
  (length (re_sub blank_lines [10%N] s) <= length s)%nat
  /\ (matches_somewhere blank_lines s = true ->
      (length (re_sub blank_lines [10%N] s) < length s)%nat).
Proof.
  remember (length s) as n eqn:Hn. revert s Hn.
  induction n as [n IH] using lt_wf_ind. intros s Hn.
  destruct s as [|x s].
  - split; [simpl; lia | discriminate].
  - cbn [matches_somewhere].
    destruct (match_here blank_lines (x :: s)) as [r|] eqn:E.
    + destruct (blank_match_run _ _ E) as (m & Hs & Hm & Hlen).
      assert (Hr : (length r < length (x :: s))%nat)
        by (rewrite Hs, length_app; lia).
      rewrite (re_sub_replace _ _ _ _ E Hr).
      destruct (IH (length r) ltac:(subst n; exact Hr) r eq_refl) as [Hle _].
      assert (Hrs : (length r + 2 <= length (x :: s))%nat)
        by (rewrite Hs, length_app; lia).
      cbn [app length] in *. subst n. split; [lia | intros _; lia].
    + rewrite (re_sub_copy _ _ _ _ E).
      destruct (IH (length s) ltac:(subst n; simpl; lia) s eq_refl) as [Hle Hlt].
      cbn [length] in *. subst n. split; [lia|].
      intros H. specialize (Hlt H). lia.
Qed.

(** The whole-string filter returns the left-stripped text exactly when
    that text holds no blank line and does not end in whitespace. *)
Lemma strip_blank_lstrip v :
  strip (re_sub blank_lines [10%N] v) = lstrip v
  <-> matches_somewhere blank_lines (lstrip v) = false
      /\ ends_with_space (lstrip v) = false.
Proof.
  unfold strip. rewrite re_sub_blank_lstrip. set (t := lstrip v). split.
  - intros H. split.
    + destruct (matches_somewhere blank_lines t) eqn:E; [|reflexivity].
      exfalso. pose proof (proj2 (re_sub_blank_length t) E) as Hlt.
      pose proof (rstrip_length (re_sub blank_lines [10%N] t)) as Hle.
      rewrite H in Hle. lia.
    + rewrite <- H. apply ends_with_space_rstrip.
  - intros [Hno Hend]. unfold blank_lines in *.
    rewrite (re_sub_no_match _ _ _ _ Hno). apply rstrip_id, Hend.
Qed.

(** C1, amended: for a reply made of visible text and any number of
    hidden spans (none, one, several), with no ['<'] but those of the
    markers, the streaming filter fed one character at a time (its
    final flush included) shows what the whole-string filter returns
    exactly when the visible text, its leading whitespace apart, holds
    no blank line and does not end in whitespace.  Blank lines and
    whitespace that come before the first visible character (the usual
    newlines after a leading span) do no harm: both filters drop
    them. *)
Theorem stream_matches_whole_filter t0 segs :
  well_delimited t0 segs = true ->
  (stream_by_char (with_spans t0 segs) = filter_think_tags (with_spans t0 segs)
   <-> matches_somewhere blank_lines (lstrip (visible_text t0 segs)) = false
       /\ ends_with_space (lstrip (visible_text t0 segs)) = false).
Proof.
  intros Hwd.
  rewrite (stream_by_char_spans _ _ Hwd), (filter_think_tags_spans _ _ Hwd).
  rewrite <- strip_blank_lstrip. split; intros H; symmetry; exact H.
Qed.

Lemma stream_matches_whole_filter_witness :
  stream_by_char
    (with_spans [] [(py (String "010" (String "010" EmptyString)),
                     py (String "010" (String "010" "Answer")))])
  = filter_think_tags
    (with_spans [] [(py (String "010" (String "010" EmptyString)),
                     py (String "010" (String "010" "Answer")))]).
Proof.
  apply (proj2 (stream_matches_whole_filter []
                  [(py (String "010" (String "010" EmptyString)),
                    py (String "010" (String "010" "Answer")))]
                  eq_refl)).
  split; vm_compute; reflexivity.
Defined.

(** The same holds however the reply is cut into chunks. *)
Lemma stream_any_chunking chunks t0 segs :
  concat chunks = with_spans t0 segs ->
  well_delimited t0 segs = true ->
  (visible (stream_chunks chunks) = filter_think_tags (concat chunks)
   <-> matches_somewhere blank_lines (lstrip (visible_text t0 segs)) = false
       /\ ends_with_space (lstrip (visible_text t0 segs)) = false).
Proof.
  intros Hc Hwd.
  pose proof (stream_by_char_spans _ _ Hwd) as Hs.
  unfold stream_by_char, stream_chunks in *.
  rewrite feed_one_char_chunks in Hs.
  rewrite feed_chunks_concat, Hc, Hs.
  rewrite (filter_think_tags_spans _ _ Hwd).
  rewrite <- strip_blank_lstrip. split; intros H; symmetry; exact H.
Qed.

(** *** A character that breaks a pending start-marker match *)

(** In the normal state the breaking character is consumed: it joins the
    pending text, the two are sent as one chunk, and nothing stays
    pending; this holds for ['<'] as for any other character. *)
Lemma normal_break_consumed pending c :
  truthy pending = true -> (length pending < 7)%nat ->
  startswith (py "<think>") (pending ++ [c]) = false ->
  step (mkFilterState false false pending) c
  = (Normal, [pending ++ [c]]).
Proof.
  intros Ht Hl Hp. unfold step. cbn [in_think_block is_start_output pending_content].
  rewrite Ht. rewrite andb_false_r. cbn [andb].
  apply Nat.ltb_lt in Hl. rewrite Hl.
  destruct (str_eqb (pending ++ [c]) (py "<think>")) eqn:E.
  - apply str_eqb_eq in E. rewrite E in Hp. discriminate.
  - rewrite Hp. reflexivity.
Qed.

(** In the leading state the same holds for a breaking character other
    than whitespace and ['<']. *)
Lemma leading_break_consumed pending c :
  truthy pending = true -> (length pending < 7)%nat ->
  isspace c = false -> char_eqb c langle = false ->
  startswith (py "<think>") (pending ++ [c]) = false ->
  step (mkFilterState false true pending) c
  = (Normal, [pending ++ [c]]).
Proof.
  intros Ht Hl Hs Hc Hp. unfold step.
  cbn [in_think_block is_start_output pending_content].
  rewrite Hs, Hc, Ht. cbn [andb].
  apply Nat.ltb_lt in Hl. rewrite Hl.
  destruct (str_eqb (pending ++ [c]) (py "<think>")) eqn:E.
  - apply str_eqb_eq in E. rewrite E in Hp. discriminate.
  - rewrite Hp. reflexivity.
Qed.

(** C10, where the code departs from it: in the leading state a ['<']
    that arrives while [<t] is pending is not added to the pending text
    and sent with it; it begins a new match and the pending text is
    lost.  On the reply [<t<think>x</think>y] the new match completes
    and the client sees [y] only. *)
Theorem leading_lt_restarts_match :
  step (mkFilterState false true (py "<t")) langle
  = (mkFilterState false true [langle], [])
  /\ stream_chunks (one_char_chunks (py "<t<think>x</think>y")) = [py "y"].
Proof. vm_compute. split; reflexivity. Qed.

End FilterFacts.

(** ** The connection pool *)

Section PoolFacts.
Import Pool.

Lemma create_connection_spec now net :
  _create_connection now net =
  if creation_succeeds net
  then Some {| client := {| websocket := connect_result net |};
               created_at := now; last_used := now;
               in_use := false; user_id := None |}
  else None.
Proof.
  unfold _create_connection, creation_succeeds, connect, send_config.
  destruct (connect_result net); simpl; [|reflexivity].
  destruct (send_ok net); reflexivity.
Qed.

(** *** What an operation does to the owner map *)

Lemma remove_user_connection_lookup p u now u' :
  user_connections (_remove_user_connection p u now) !! u'
  = if decide (u = u') then None else user_connections p !! u'.
Proof.
  unfold _remove_user_connection.
  destruct (user_connections p !! u) eqn:E; simpl.
  - rewrite lookup_delete. reflexivity.
  - destruct (decide (u = u')); [subst; exact E | reflexivity].
Qed.

Lemma remove_user_connection_connections p u now :
  connections (_remove_user_connection p u now) = connections p.
Proof.
  unfold _remove_user_connection.
  destruct (user_connections p !! u); reflexivity.
Qed.

Lemma remove_user_connection_heap_length p u now :
  length (heap (_remove_user_connection p u now)) = length (heap p).
Proof.
  unfold _remove_user_connection.
  destruct (user_connections p !! u); simpl; [apply length_alter | reflexivity].
Qed.

Lemma get_connection_other p u now net u' :
  u <> u' ->
  user_connections (fst (get_connection p u now net)) !! u'
  = user_connections p !! u'.
Proof.
  intros Hne. unfold get_connection, get_connection_new.
  pose proof (remove_user_connection_lookup p u now u') as Hrm.
  destruct (decide (u = u')) as [|_]; [contradiction|].
  destruct (user_connections p !! u) as [l|] eqn:E.
  - destruct (live p l); [reflexivity|].
    set (q := _remove_user_connection p u now) in *.
    destruct (List.find _ (connections q)); simpl.
    + rewrite lookup_insert_ne by exact Hne. exact Hrm.
    + destruct (_ <? _)%Z; [|exact Hrm].
      destruct (_create_connection now net); simpl; [|exact Hrm].
      rewrite lookup_insert_ne by exact Hne. exact Hrm.
  - destruct (List.find _ (connections p)); simpl.
    + rewrite lookup_insert_ne by exact Hne. reflexivity.
    + destruct (_ <? _)%Z; [|reflexivity].
      destruct (_create_connection now net); simpl; [|reflexivity].
      rewrite lookup_insert_ne by exact Hne. reflexivity.
Qed.

(** A successful acquire leaves the owner bound to what it returned. *)
Lemma get_connection_binds p u now net l :
  snd (get_connection p u now net) = Some l ->
  user_connections (fst (get_connection p u now net)) !! u = Some l.
Proof.
  unfold get_connection, get_connection_new.
  destruct (user_connections p !! u) as [l0|] eqn:E.
  - destruct (live p l0).
    + simpl. intros [= <-]. exact E.
    + set (q := _remove_user_connection p u now).
      destruct (List.find _ (connections q)); simpl.
      * intros [= <-]. apply lookup_insert_eq.
      * destruct (_ <? _)%Z; [|discriminate].
        destruct (_create_connection now net); simpl; [|discriminate].
        intros [= <-]. apply lookup_insert_eq.
  - destruct (List.find _ (connections p)); simpl.
    + intros [= <-]. apply lookup_insert_eq.
    + destruct (_ <? _)%Z; [|discriminate].
      destruct (_create_connection now net); simpl; [|discriminate].
      intros [= <-]. apply lookup_insert_eq.
Qed.

(** An owner bound to a live connection gets that connection. *)
Lemma get_connection_bound_live p u now net l :
  user_connections p !! u = Some l -> live p l = true ->
  snd (get_connection p u now net) = Some l.
Proof.
  intros E Hl. unfold get_connection, get_connection_new. rewrite E, Hl. reflexivity.
Qed.

Lemma remove_at_user_connections cr indices : forall p,
  user_connections (remove_at p cr indices) = user_connections p.
Proof.
  induction indices as [|i indices IH]; intros p; [reflexivity|].
  simpl. destruct (connections p !! i); [|reflexivity].
  rewrite IH. reflexivity.
Qed.

Lemma run_event_other p e u :
  event_owner e <> Some u ->
  user_connections (run_event p e) !! u = user_connections p !! u.
Proof.
  destruct e as [u' now net|u' now|t cr|l]; simpl; intros Hne.
  - apply get_connection_other. congruence.
  - unfold release_connection. rewrite remove_user_connection_lookup.
    destruct (decide (u' = u)); [congruence | reflexivity].
  - unfold cleanup_tick. rewrite remove_at_user_connections. reflexivity.
  - reflexivity.
Qed.

Lemma run_events_other es : forall p u,
  Forall (fun e => event_owner e <> Some u) es ->
  user_connections (run_events p es) !! u = user_connections p !! u.
Proof.
  induction es as [|e es IH]; intros p u H; [reflexivity|].
  apply Forall_cons in H as [He Hes].
  unfold run_events in *. simpl. rewrite (IH _ _ Hes).
  apply run_event_other, He.
Qed.

(** C9: an owner that acquired a connection and does not release it gets
    the same connection from its next acquire, whatever the other
    owners, the sweep and the network did to the pool in between, as
    long as that connection is live when the second call is made. *)
Theorem acquire_twice_same_connection p u now net l es now' net' :
  snd (get_connection p u now net) = Some l ->
  Forall (fun e => event_owner e <> Some u) es ->
  live (run_events (fst (get_connection p u now net)) es) l = true ->
  snd (get_connection (run_events (fst (get_connection p u now net)) es)
                      u now' net') = Some l.
Proof.
  intros Hfirst Hes Hlive.
  apply get_connection_bound_live; [|exact Hlive].
  rewrite (run_events_other _ _ _ Hes).
  apply get_connection_binds, Hfirst.
Qed.

Lemma acquire_twice_same_connection_witness :
  let p := initialize (new_pool 2 10 300) 0 (fun _ => good_net) in
  let es := [Acquire "bob" 1 good_net; Sweep 1000 (fun _ => false);
             Release "bob" 1001; TransportClosed 1] in
  snd (get_connection (run_events (fst (get_connection p "alice" 0 good_net)) es)
                      "alice" 1002 good_net) = Some 0%nat.
Proof.
  intros p es.
  apply (acquire_twice_same_connection p "alice" 0 good_net 0%nat es
           1002 good_net).
  - vm_compute. reflexivity.
  - repeat constructor; simpl; discriminate.
  - vm_compute. reflexivity.
Defined.

(** *** Failed creation *)

Lemma creation_fails_iff now net :
  _create_connection now net = None <-> creation_succeeds net = false.
Proof.
  rewrite create_connection_spec.
  destruct (creation_succeeds net); split; congruence.
Qed.

Lemma remove_user_connection_unbound p u now :
  user_connections p !! u = None -> _remove_user_connection p u now = p.
Proof. intros E. unfold _remove_user_connection. rewrite E. reflexivity. Qed.

(** An acquire that hands out nothing has at most dropped the owner's
    stale binding. *)
Lemma get_connection_none p u now net :
  snd (get_connection p u now net) = None ->
  fst (get_connection p u now net) = _remove_user_connection p u now.
Proof.
  unfold get_connection, get_connection_new.
  destruct (user_connections p !! u) as [l0|] eqn:E.
  - destruct (live p l0); [discriminate|].
    set (q := _remove_user_connection p u now).
    destruct (List.find _ (connections q)); [discriminate|].
    destruct (_ <? _)%Z; [|reflexivity].
    destruct (_create_connection now net); [discriminate | reflexivity].
  - rewrite (remove_user_connection_unbound _ _ _ E).
    destruct (List.find _ (connections p)); [discriminate|].
    destruct (_ <? _)%Z; [|reflexivity].
    destruct (_create_connection now net); [discriminate | reflexivity].
Qed.

(** The connection list changes in one way only: a connection that was
    fully created is appended. *)
Lemma get_connection_connections p u now net :
  connections (fst (get_connection p u now net)) = connections p
  /\ length (heap (fst (get_connection p u now net))) = length (heap p)
  \/ creation_succeeds net = true
     /\ connections (fst (get_connection p u now net))
        = connections p ++ [length (heap p)]
     /\ heap (fst (get_connection p u now net)) !! length (heap p)
        = Some {| client := {| websocket := connect_result net |};
                  created_at := now; last_used := now;
                  in_use := true; user_id := Some u |}
     /\ snd (get_connection p u now net) = Some (length (heap p)).
Proof.
  unfold get_connection, get_connection_new.
  pose proof (remove_user_connection_connections p u now) as Hc.
  pose proof (remove_user_connection_heap_length p u now) as Hh.
  assert (Hgen : forall q, connections q = connections p ->
            length (heap q) = length (heap p) ->
            let r := match List.find (fun l => free q l && live q l)
                                     (connections q) with
                     | Some l =>
                         (set_store q (alter (bound u now) l (heap q))
                            (connections q) (<[u:=l]> (user_connections q)),
                          Some l)
                     | None => get_connection_new q u now net
                     end in
            connections (fst r) = connections p
            /\ length (heap (fst r)) = length (heap p)
            \/ creation_succeeds net = true
               /\ connections (fst r) = connections p ++ [length (heap p)]
               /\ heap (fst r) !! length (heap p)
                  = Some {| client := {| websocket := connect_result net |};
                            created_at := now; last_used := now;
                            in_use := true; user_id := Some u |}
               /\ snd r = Some (length (heap p))).
  { intros q Hqc Hqh r. subst r. unfold get_connection_new.
    destruct (List.find _ (connections q)); simpl.
    - left. rewrite length_alter. auto.
    - destruct (_ <? _)%Z; [|left; auto].
      rewrite create_connection_spec.
      destruct (creation_succeeds net); [|left; auto].
      right. simpl. rewrite Hqc, Hqh. repeat split.
      rewrite <- Hqh. rewrite lookup_app_r by lia.
      rewrite Nat.sub_diag. reflexivity. }
  destruct (user_connections p !! u) as [l0|] eqn:E.
  - destruct (live p l0).
    + left. simpl. rewrite length_alter. auto.
    + apply Hgen; assumption.
  - apply Hgen; reflexivity.
Qed.

(** C7: when the creation of a connection fails (the connect or the
    send of the initial configuration raises), the creating block of an
    acquire returns "pool full" and leaves the pool exactly as it was;
    the whole acquire then appends nothing to the connection list,
    allocates no pooled connection and, handing out nothing, adds no
    owner binding (it has at most dropped the owner's own stale binding
    before the attempt).  And whenever an acquire does change the
    connection list, it has appended one connection whose client was
    connected and had sent its configuration. *)
Theorem failed_creation_leaves_pool p u now net :
  (_create_connection now net = None ->
     get_connection_new p u now net = (p, None)
     /\ connections (fst (get_connection p u now net)) = connections p
     /\ length (heap (fst (get_connection p u now net))) = length (heap p)
     /\ (snd (get_connection p u now net) = None ->
           (forall u' l,
              user_connections (fst (get_connection p u now net)) !! u' = Some l ->
              user_connections p !! u' = Some l)
           /\ (user_connections p !! u = None ->
                 fst (get_connection p u now net) = p)))
  /\ (connections (fst (get_connection p u now net)) <> connections p ->
        exists ws,
          connect_result net = Some ws /\ send_ok net = true
          /\ connections (fst (get_connection p u now net))
             = connections p ++ [length (heap p)]
          /\ heap (fst (get_connection p u now net)) !! length (heap p)
             = Some {| client := {| websocket := Some ws |};
                       created_at := now; last_used := now;
                       in_use := true; user_id := Some u |}).
Proof.
  split.
  - intros Hfail. split.
    { unfold get_connection_new. rewrite Hfail.
      destruct (_ <? _)%Z; reflexivity. }
    apply creation_fails_iff in Hfail.
    destruct (get_connection_connections p u now net)
      as [[Hc Hh]|[Hok _]]; [|congruence].
    split; [exact Hc|]. split; [exact Hh|].
    intros Hnone. rewrite (get_connection_none _ _ _ _ Hnone). split.
    + intros u' l. rewrite remove_user_connection_lookup.
      destruct (decide (u = u')); [discriminate | auto].
    + apply remove_user_connection_unbound.
  - intros Hchg.
    destruct (get_connection_connections p u now net)
      as [[Hc _]|(Hok & Hc & Hh & _)]; [contradiction|].
    unfold creation_succeeds in Hok.
    destruct (connect_result net) as [ws|]; [|discriminate].
    exists ws. auto.
Qed.

Lemma failed_creation_leaves_pool_witness :
  let bad := {| connect_result := Some {| closed := Some false |};
                send_ok := false |} in
  let p := fst (get_connection
                  (initialize (new_pool 1 5 300) 0 (fun _ => good_net))
                  "alice" 1 good_net) in
  get_connection_new p "carol" 2 bad = (p, None)
  /\ fst (get_connection p "carol" 2 bad) = p.
Proof.
  intros bad p.
  destruct (proj1 (failed_creation_leaves_pool p "carol" 2 bad) eq_refl)
    as (Hblock & _ & _ & Hnone).
  split; [exact Hblock|].
  apply Hnone; vm_compute; reflexivity.
Defined.

(** *** The idle sweep *)

Lemma to_remove_all (f : loc -> bool) cs : forall k,
  forallb f cs = true ->
  omap (fun '(i, l) => if f l then Some i else None)
       (imap (fun i l => (k + i, l)) cs)
  = seq k (length cs).
Proof.
  induction cs as [|l cs IH]; intros k H; [reflexivity|].
  simpl in H. apply andb_true_iff in H as [Hl Hcs].
  rewrite imap_cons. cbn [omap list_omap]. rewrite Hl. cbn [length seq]. rewrite Nat.add_0_r. f_equal.
  rewrite <- (IH (S k) Hcs). f_equal.
  apply imap_ext. intros i x _. simpl. f_equal. lia.
Qed.

Lemma to_remove_none (f : loc -> bool) cs : forall k,
  forallb (fun l => negb (f l)) cs = true ->
  omap (fun '(i, l) => if f l then Some i else None)
       (imap (fun i l => (k + i, l)) cs)
  = [].
Proof.
  induction cs as [|l cs IH]; intros k H; [reflexivity|].
  simpl in H. apply andb_true_iff in H as [Hl Hcs].
  rewrite imap_cons. cbn [omap list_omap]. apply negb_true_iff in Hl. rewrite Hl.
  rewrite <- (IH (S k) Hcs). f_equal.
  apply imap_ext. intros i x _. simpl. f_equal. lia.
Qed.

Lemma remove_at_all cr n : forall p,
  length (connections p) = n ->
  connections (remove_at p cr (rev (seq 0 n))) = [].
Proof.
  induction n as [|n IH]; intros p Hn.
  - simpl. destruct (connections p); [reflexivity | discriminate].
  - rewrite seq_S, rev_app_distr. simpl.
    destruct (connections p !! n) as [l|] eqn:E.
    + apply IH. simpl. pose proof (length_delete (connections p) n (mk_is_Some _ _ E)) as Hd. lia.
    + apply lookup_ge_None in E. lia.
Qed.

(** The sweep reads the length of the list while it collects, before
    anything is removed: once the pool holds more than [min_connections]
    connections, every idle one is a candidate, and when all are idle
    the sweep removes them all. *)
Lemma sweep_removes_every_idle p current_time cr :
  all_idle_since p current_time = true ->
  (min_connections p < Z.of_nat (total_connections p))%Z ->
  total_connections (cleanup_tick p current_time cr) = 0%nat.
Proof.
  intros Hidle Hmin. unfold total_connections, cleanup_tick in *.
  assert (connections_to_remove p current_time
          = seq 0 (length (connections p))) as ->.
  { unfold connections_to_remove.
    apply (to_remove_all (sweep_candidate p current_time) _ 0).
    unfold all_idle_since in Hidle.
    rewrite forallb_forall in *. intros l Hl. specialize (Hidle l Hl).
    unfold sweep_candidate. destruct (heap p !! l); [|discriminate].
    apply andb_true_iff in Hidle as [-> ->].
    apply Z.ltb_lt in Hmin. rewrite Hmin. reflexivity. }
  rewrite remove_at_all; reflexivity.
Qed.

(** At or below [min_connections] the guard holds every connection
    back. *)
Lemma sweep_keeps_small_pool p current_time cr :
  (Z.of_nat (total_connections p) <= min_connections p)%Z ->
  cleanup_tick p current_time cr = p.
Proof.
  intros Hmin. unfold total_connections, cleanup_tick in *.
  assert (connections_to_remove p current_time = []) as ->; [|reflexivity].
  unfold connections_to_remove.
  apply (to_remove_none (sweep_candidate p current_time) _ 0).
  rewrite forallb_forall. intros l _. unfold sweep_candidate.
  destruct (heap p !! l); [|reflexivity].
  apply Z.ltb_ge in Hmin. rewrite Hmin, andb_false_r. reflexivity.
Qed.

(** C2, where the code departs from it: a pool with [min_connections]
    2 that grew to three connections for three owners, all released and
    idle for longer than [max_idle_time], is emptied by one sweep tick:
    all three connections are closed and the total falls to 0, below
    the minimum. *)
Theorem sweep_drops_below_min :
  let p := run_events
             (initialize (new_pool 2 10 300) 0 (fun _ => good_net))
             [Acquire "a" 1 good_net; Acquire "b" 1 good_net;
              Acquire "c" 1 good_net;
              Release "a" 2; Release "b" 2; Release "c" 2] in
  all_idle_since p 1000 = true
  /\ total_connections p = 3%nat
  /\ connections_to_remove p 1000 = [0; 1; 2]%nat
  /\ total_connections (cleanup_tick p 1000 (fun _ => false)) = 0%nat
  /\ (Z.of_nat (total_connections (cleanup_tick p 1000 (fun _ => false)))
      < min_connections p)%Z.
Proof. vm_compute. repeat split; reflexivity. Qed.

(** *** Exhaustion *)

Lemma filter_length_flip (P P' : loc -> bool) cs l :
  NoDup cs -> In l cs -> P l = false -> P' l = true ->
  (forall l', l' <> l -> P' l' = P l') ->
  length (List.filter P' cs) = S (length (List.filter P cs)).
Proof.
  intros Hnd Hin HP HP' Hext.
  induction cs as [|x cs IH]; [destruct Hin|].
  apply NoDup_cons in Hnd as [Hx Hnd]. rewrite list_elem_of_In in Hx.
  simpl. destruct (decide (x = l)) as [->|Hne].
  - rewrite HP, HP'. simpl. f_equal. f_equal.
    apply List.filter_ext_in. intros l' Hl'. apply Hext.
    intros ->. contradiction.
  - rewrite (Hext x Hne).
    destruct Hin as [?|Hin]; [contradiction|].
    destruct (P x); simpl; rewrite (IH Hnd Hin); reflexivity.
Qed.

Lemma filter_length_all (P : loc -> bool) cs :
  length (List.filter P cs) = length cs -> forall l, In l cs -> P l = true.
Proof.
  induction cs as [|x cs IH]; intros Hlen l Hin; [destruct Hin|].
  pose proof (List.filter_length_le P cs) as Hle.
  simpl in Hlen. destruct (P x) eqn:Hx; simpl in Hlen; [|lia].
  destruct Hin as [<-|Hin]; [exact Hx|].
  apply IH; [lia | exact Hin].
Qed.

Lemma filter_length_none (P : loc -> bool) cs :
  (forall l, In l cs -> P l = true) -> length (List.filter P cs) = length cs.
Proof.
  induction cs as [|x cs IH]; intros H; [reflexivity|].
  simpl. rewrite (H x) by (left; reflexivity). simpl. f_equal.
  apply IH. intros l Hl. apply H. right. exact Hl.
Qed.

Lemma find_none_all (P : loc -> bool) cs :
  (forall l, In l cs -> P l = false) -> List.find P cs = None.
Proof.
  induction cs as [|x cs IH]; intros H; [reflexivity|].
  simpl. rewrite (H x) by (left; reflexivity).
  apply IH. intros l Hl. apply H. right. exact Hl.
Qed.

(** An idle pool serves nobody yet. *)
Lemma all_idle_serving p :
  all_idle p = true -> NoDup (connections p) ->
  user_connections p = ∅ ->
  (Z.of_nat (length (connections p)) <= max_connections p)%Z ->
  serving p [].
Proof.
  intros Hidle Hnd Hempty Hmax. unfold all_idle in Hidle.
  rewrite forallb_forall in Hidle.
  split; try assumption.
  - intros l Hl. specialize (Hidle l Hl).
    apply andb_true_iff in Hidle as [Hf _]. unfold free in Hf.
    destruct (heap p !! l) eqn:E; [|discriminate].
    apply lookup_lt_Some in E. exact E.
  - intros l Hl _. specialize (Hidle l Hl).
    apply andb_true_iff in Hidle as [_ Hlive]. exact Hlive.
  - unfold in_use_count.
    rewrite (List.filter_ext_in _ (fun _ => false)).
    + generalize (connections p). intros cs.
      induction cs as [|x cs IHcs]; [reflexivity | exact IHcs].
    + intros l Hl. specialize (Hidle l Hl).
      apply andb_true_iff in Hidle as [-> _]. reflexivity.
  - intros u l. rewrite Hempty, lookup_empty. discriminate.
Qed.

(** One more owner is served as long as the pool has room. *)
Lemma get_connection_serving p owners u now net :
  serving p owners -> ~ In u owners ->
  (Z.of_nat (length owners) < max_connections p)%Z ->
  creation_succeeds net = true ->
  is_Some (snd (get_connection p u now net))
  /\ serving (fst (get_connection p u now net)) (u :: owners)
  /\ max_connections (fst (get_connection p u now net)) = max_connections p.
Proof.
  intros [Hnd Hvalid Hfl Hcount Hmax Hown] Hu Hroom Hnet.
  assert (Hunbound : user_connections p !! u = None).
  { destruct (user_connections p !! u) eqn:E; [|reflexivity].
    exfalso. eauto. }
  unfold get_connection, get_connection_new. rewrite Hunbound.
  destruct (List.find _ (connections p)) as [l|] eqn:Efind.
  - apply List.find_some in Efind as [Hl Hfree].
    apply andb_true_iff in Hfree as [Hfree Hlive].
    cbn [fst snd]. split; [eauto|]. split; [|reflexivity].
    assert (Hnow : free (set_store p (alter (bound u now) l (heap p))
                           (connections p)
                           (<[u:=l]> (user_connections p))) l = false).
    { unfold free. cbn [heap set_store]. rewrite list_lookup_alter_eq.
      destruct (heap p !! l); reflexivity. }
    assert (Hother : forall l', l' <> l ->
              heap (set_store p (alter (bound u now) l (heap p))
                      (connections p) (<[u:=l]> (user_connections p))) !! l'
              = heap p !! l').
    { intros l' Hne. cbn [heap set_store].
      apply list_lookup_alter_ne. congruence. }
    split; simpl.
    + exact Hnd.
    + intros l' Hl'. rewrite length_alter. auto.
    + intros l' Hl' Hf'. destruct (decide (l' = l)) as [->|Hne].
      * rewrite Hnow in Hf'. discriminate.
      * unfold free, live in *. rewrite (Hother l' Hne) in *. auto.
    + unfold in_use_count in *. cbn [connections set_store].
      rewrite <- Hcount.
      apply (filter_length_flip _ _ _ l Hnd Hl).
      * rewrite Hfree. reflexivity.
      * rewrite Hnow. reflexivity.
      * intros l' Hne. unfold free. rewrite (Hother l' Hne). reflexivity.
    + exact Hmax.
    + intros u' l'. destruct (decide (u = u')) as [->|Hne].
      * intros _. left. reflexivity.
      * rewrite lookup_insert_ne by exact Hne. intros H. right. eauto.
  - assert (Hbusy : forall l, In l (connections p) -> free p l = false).
    { intros l Hl. pose proof (List.find_none _ _ Efind l Hl) as Hn.
      simpl in Hn. destruct (free p l) eqn:Ef; [|reflexivity].
      rewrite (Hfl l Hl Ef) in Hn. discriminate. }
    assert (Hlen : length (connections p) = length owners).
    { rewrite <- Hcount. unfold in_use_count. symmetry.
      apply filter_length_none. intros l Hl. rewrite (Hbusy l Hl).
      reflexivity. }
    assert ((Z.of_nat (length (connections p)) <? max_connections p)%Z = true)
      as -> by (apply Z.ltb_lt; lia).
    rewrite create_connection_spec, Hnet.
    cbn [fst snd]. split; [eauto|]. split; [|reflexivity].
    assert (Hfresh : ~ In (length (heap p)) (connections p)).
    { intros Hin. apply Hvalid in Hin. lia. }
    split; simpl.
    + apply NoDup_app. split; [exact Hnd|]. split.
      * intros l Hl Hl'. apply list_elem_of_In in Hl.
        apply list_elem_of_singleton in Hl'. subst. contradiction.
      * apply NoDup_singleton.
    + intros l Hl. rewrite length_app. simpl.
      apply in_app_or in Hl as [Hl|[<-|[]]]; [apply Hvalid in Hl|]; lia.
    + intros l Hl Hf. exfalso.
      apply in_app_or in Hl as [Hl|[<-|[]]].
      * pose proof (Hvalid l Hl) as Hlt. unfold free in Hf. simpl in Hf.
        rewrite lookup_app_l in Hf by exact Hlt.
        pose proof (Hbusy l Hl) as Hb. unfold free in Hb.
        rewrite Hb in Hf. discriminate.
      * unfold free in Hf. simpl in Hf.
        rewrite lookup_app_r, Nat.sub_diag in Hf by lia.
        simpl in Hf. discriminate.
    + unfold in_use_count. cbn [connections set_store].
      rewrite List.filter_app, length_app.
      rewrite (filter_length_none _ (connections p)).
      * cbn [List.filter]. unfold free at 1. cbn [heap set_store].
        rewrite lookup_app_r, Nat.sub_diag by lia. simpl. lia.
      * intros l Hl. pose proof (Hvalid l Hl) as Hlt.
        unfold free. cbn [heap set_store]. rewrite lookup_app_l by exact Hlt.
        pose proof (Hbusy l Hl) as Hb. unfold free in Hb. rewrite Hb.
        reflexivity.
    + rewrite length_app. simpl. lia.
    + intros u' l'. destruct (decide (u = u')) as [->|Hne].
      * intros _. left. reflexivity.
      * rewrite lookup_insert_ne by exact Hne. intros H. right. eauto.
Qed.

Lemma acquire_all_serving calls : forall p served,
  serving p served ->
  NoDup (map caller calls ++ served) ->
  (Z.of_nat (length calls + length served) <= max_connections p)%Z ->
  Forall (fun c => creation_succeeds (network c) = true) calls ->
  Forall is_Some (snd (acquire_all p calls))
  /\ serving (fst (acquire_all p calls)) (rev (map caller calls) ++ served)
  /\ max_connections (fst (acquire_all p calls)) = max_connections p.
Proof.
  induction calls as [|[u now net] calls IH]; intros p served Hs Hnd Hmax Hnet.
  - simpl. auto.
  - simpl in Hnd. apply NoDup_cons in Hnd as [Hu Hnd].
    rewrite list_elem_of_In in Hu.
    apply Forall_cons in Hnet as [Hnet1 Hnet].
    assert (Hu' : ~ In u served).
    { intros Hin. apply Hu, in_or_app. right. exact Hin. }
    simpl in Hmax.
    destruct (get_connection_serving p served u now net Hs Hu')
      as (Hsome & Hs1 & Hm1); [lia | exact Hnet1 |].
    simpl. destruct (get_connection p u now net) as [p1 r]. simpl in *.
    destruct (IH p1 (u :: served) Hs1) as (Hall & Hs2 & Hm2).
    + apply NoDup_app. apply NoDup_app in Hnd as (Ho & Hdis & Hsv).
      split; [exact Ho|]. split.
      * intros x Hx Hx'. apply elem_of_cons in Hx' as [->|Hx'].
        -- apply Hu, in_or_app. left. apply list_elem_of_In. exact Hx.
        -- exact (Hdis x Hx Hx').
      * apply NoDup_cons. split; [|exact Hsv].
        rewrite list_elem_of_In. exact Hu'.
    + rewrite Hm1. simpl. lia.
    + exact Hnet.
    + destruct (acquire_all p1 calls) as [p2 rs]. simpl in *.
      split; [constructor; assumption|].
      split; [|congruence].
      rewrite <- app_assoc. exact Hs2.
Qed.

(** A pool that serves [max_connections] owners has nothing for one
    more. *)
Lemma get_connection_full p served u now net :
  serving p served -> ~ In u served ->
  Z.of_nat (length served) = max_connections p ->
  get_connection p u now net = (p, None).
Proof.
  intros [Hnd Hvalid Hfl Hcount Hmax Hown] Hu Hfull.
  assert (Hunbound : user_connections p !! u = None).
  { destruct (user_connections p !! u) eqn:E; [|reflexivity].
    exfalso. eauto. }
  unfold get_connection, get_connection_new. rewrite Hunbound.
  pose proof (List.filter_length_le (fun l => negb (free p l)) (connections p))
    as Hle.
  unfold in_use_count in Hcount.
  assert (Hlen : length (List.filter (fun l => negb (free p l)) (connections p))
                 = length (connections p)) by lia.
  rewrite find_none_all.
  - assert ((Z.of_nat (length (connections p)) <? max_connections p)%Z = false)
      as -> by (apply Z.ltb_ge; lia).
    reflexivity.
  - intros l Hl. pose proof (filter_length_all _ _ Hlen l Hl) as Hb.
    simpl in Hb. apply negb_true_iff in Hb. rewrite Hb. reflexivity.
Qed.

(** C4: on an idle pool of capacity [max_connections], with connection
    creation succeeding, acquires for [max_connections] distinct owners
    and no release in between each return a connection, and the acquire
    for one more owner returns [None], the "pool full" result. *)
Theorem pool_full_after_max p calls extra now net :
  all_idle p = true ->
  NoDup (connections p) ->
  user_connections p = ∅ ->
  (Z.of_nat (length (connections p)) <= max_connections p)%Z ->
  Forall (fun c => creation_succeeds (network c) = true) calls ->
  NoDup (map caller calls ++ [extra]) ->
  Z.of_nat (length calls) = max_connections p ->
  Forall is_Some (snd (acquire_all p calls))
  /\ snd (get_connection (fst (acquire_all p calls)) extra now net) = None.
Proof.
  intros Hidle Hnd Hempty Hmax Hnet Howners Hlen.
  pose proof (all_idle_serving p Hidle Hnd Hempty Hmax) as Hs.
  apply NoDup_app in Howners as (Ho & Hdis & _).
  destruct (acquire_all_serving calls p [] Hs) as (Hall & Hs' & Hm).
  - rewrite app_nil_r. exact Ho.
  - simpl. lia.
  - exact Hnet.
  - split; [exact Hall|].
    rewrite app_nil_r in Hs'.
    rewrite (get_connection_full _ (rev (map caller calls)) extra now net Hs').
    + reflexivity.
    + rewrite <- in_rev. intros Hin. apply list_elem_of_In in Hin.
      apply (Hdis extra Hin). apply list_elem_of_singleton. reflexivity.
    + rewrite length_rev, length_map, Hm. exact Hlen.
Qed.

Lemma pool_full_after_max_witness :
  let p := initialize (new_pool 2 3 300) 0 (fun _ => good_net) in
  let calls := [mkCall "a" 1 good_net; mkCall "b" 2 good_net;
                mkCall "c" 3 good_net] in
  Forall is_Some (snd (acquire_all p calls))
  /\ snd (get_connection (fst (acquire_all p calls)) "d" 4 good_net) = None.
Proof.
  intros p calls.
  apply (pool_full_after_max p calls "d" 4 good_net).
  - vm_compute. reflexivity.
  - vm_compute. repeat constructor; rewrite list_elem_of_In; simpl; lia.
  - reflexivity.
  - vm_compute. discriminate.
  - repeat constructor.
  - repeat constructor; rewrite list_elem_of_In; simpl;
      intuition discriminate.
  - reflexivity.
Defined.

End PoolFacts.

(** ** The listener of a streaming session *)

Section SessionFacts.
Import Text Session.

Lemma isspace_not_lt c : isspace c = true -> char_eqb c 60%N = false.
Proof.
  unfold char_eqb. intros H. apply N.eqb_neq. intros ->.
  vm_compute in H. discriminate.
Qed.

Lemma all_space_free_of_lt s :
  forallb isspace s = true -> free_of 60%N s = true.
Proof.
  induction s as [|x s IH]; [reflexivity|].
  simpl. rewrite !andb_true_iff. intros [Hx Hs].
  rewrite (isspace_not_lt _ Hx). auto.
Qed.

(** Text without ['<'] carries no tag: cleaning strips it and nothing
    more. *)
Lemma clean_free_of_lt s :
  free_of 60%N s = true -> clean_recognition_text s = strip s.
Proof.
  intros H. unfold clean_recognition_text.
  destruct s as [|c s]; [reflexivity|]. cbn [truthy negb].
  change (tag ++ tag ++ tag ++ [StarGreedy isspace])
    with (Chr 60%N :: tl (tag ++ tag ++ tag ++ [StarGreedy isspace])).
  rewrite (re_sub_no_match _ _ _ _ (free_of_no_match _ _ _ H)).
  change (tag ++ [StarGreedy isspace])
    with (Chr 60%N :: tl (tag ++ [StarGreedy isspace])).
  rewrite (re_sub_no_match _ _ _ _ (free_of_no_match _ _ _ H)).
  reflexivity.
Qed.

Lemma clean_all_space s :
  forallb isspace s = true -> clean_recognition_text s = [].
Proof.
  intros H. rewrite (clean_free_of_lt _ (all_space_free_of_lt _ H)).
  apply strip_all_space, H.
Qed.

(** The cleaned text is stripped already. *)
Lemma strip_clean s :
  strip (clean_recognition_text s) = clean_recognition_text s.
Proof.
  unfold clean_recognition_text.
  destruct s; [reflexivity|]. cbn [truthy negb]. apply strip_idempotent.
Qed.

(** *** One finalized result *)

Lemma final_not_online data :
  final_result data = true ->
  str_eqb (get_mode data) (py "2pass-online") = false.
Proof.
  unfold final_result. rewrite orb_true_iff, !str_eqb_eq.
  intros [-> | ->]; reflexivity.
Qed.

(** What the listener does with a finalized result: nothing while a
    reply is being produced or the session has stopped; otherwise it
    records the text and, when the cleaned text is not empty and not the
    last one finalized, begins a call. *)
Lemma handle_final st data raw :
  text data = Some raw -> final_result data = true ->
  handle_data st data =
  if negb (is_ai_speaking st) && is_running st then
    if truthy (clean_recognition_text raw)
       && negb (str_eqb (clean_recognition_text raw) (last_complete_text st))
    then
      ({| is_running := is_running st; accumulated_text := raw;
          last_complete_text := clean_recognition_text raw;
          is_ai_speaking := true;
          llm_calls_active := S (llm_calls_active st) |},
       [recognition_final (clean_recognition_text raw);
        call_llm_and_respond (clean_recognition_text raw)])
    else
      ({| is_running := is_running st; accumulated_text := raw;
          last_complete_text := last_complete_text st;
          is_ai_speaking := is_ai_speaking st;
          llm_calls_active := llm_calls_active st |}, [])
  else (st, []).
Proof.
  intros Ht Hf. unfold handle_data. rewrite Ht.
  destruct (negb (is_ai_speaking st) && is_running st); [|reflexivity].
  rewrite (final_not_online _ Hf).
  unfold final_result in Hf. rewrite Hf.
  rewrite strip_clean.
  destruct (truthy (clean_recognition_text raw)); reflexivity.
Qed.

(** *** The in-flight guard *)

(** The flag and the number of running calls go together. *)
Lemma active_calls_flag es : forall st,
  llm_calls_active st = (if is_ai_speaking st then 1 else 0)%nat ->
  llm_calls_active (fst (run st es))
  = (if is_ai_speaking (fst (run st es)) then 1 else 0)%nat.
Proof.
  induction es as [|e es IH]; intros st Hst; [exact Hst|].
  simpl. destruct (on_event st e) as [st1 o1] eqn:E.
  specialize (IH st1). destruct (run st1 es) as [st2 o2]. simpl in *.
  apply IH. clear IH.
  destruct e as [data| |]; simpl in E.
  - unfold handle_data in E.
    destruct (text data); [|injection E as <- _; exact Hst].
    destruct (is_ai_speaking st) eqn:Hsp; simpl in E;
      [injection E as <- _; rewrite Hsp; exact Hst|].
    destruct (is_running st); simpl in E;
      [|injection E as <- _; rewrite Hsp; exact Hst].
    repeat match type of E with
           | (if ?c then _ else _) = _ => destruct c
           end;
      injection E as <- _; simpl; rewrite ?Hsp; try exact Hst.
    rewrite Hst. reflexivity.
  - injection E as <- _. unfold llm_finished.
    destruct (llm_calls_active st) as [|n] eqn:En.
    + rewrite En. exact Hst.
    + simpl. destruct (is_ai_speaking st); simpl in Hst; lia.
  - injection E as <- _. exact Hst.
Qed.

(** *** Repeated and empty results *)

(** C6: two consecutive finalized results with the same text, the first
    of them new and not empty once cleaned, trigger exactly one LLM
    call, whether the call ends before the repeat is handled or not: the
    first triggers it and the repeat none.  A finalized result whose
    text is empty or all whitespace triggers none. *)
Theorem repeated_final_triggers_once st d1 d2 raw (finished : bool) :
  is_running st = true -> is_ai_speaking st = false ->
  text d1 = Some raw -> final_result d1 = true ->
  text d2 = Some raw -> final_result d2 = true ->
  (clean_recognition_text raw <> [] ->
   clean_recognition_text raw <> last_complete_text st ->
   llm_calls (snd (handle_data st d1)) = 1%nat
   /\ llm_calls
        (snd (run st (Received d1
                        :: (if finished then [LlmFinished] else [])
                        ++ [Received d2]))) = 1%nat)
  /\ (forallb isspace raw = true ->
      llm_calls (snd (handle_data st d1)) = 0%nat).
Proof.
  intros Hrun Hidle Ht1 Hf1 Ht2 Hf2. split.
  - intros Hne Hnew.
    assert (Hd1 : handle_data st d1 =
              ({| is_running := true; accumulated_text := raw;
                  last_complete_text := clean_recognition_text raw;
                  is_ai_speaking := true;
                  llm_calls_active := S (llm_calls_active st) |},
               [recognition_final (clean_recognition_text raw);
                call_llm_and_respond (clean_recognition_text raw)])).
    { rewrite (handle_final _ _ _ Ht1 Hf1), Hrun, Hidle. cbn [negb andb].
      assert (truthy (clean_recognition_text raw) = true) as ->
        by (destruct (clean_recognition_text raw); [contradiction|reflexivity]).
      destruct (str_eqb (clean_recognition_text raw) (last_complete_text st))
        eqn:Eq; [|reflexivity].
      apply str_eqb_eq in Eq. contradiction. }
    split; [rewrite Hd1; reflexivity|].
    cbn [run on_event]. rewrite Hd1.
    destruct finished; cbn [app run on_event llm_finished llm_calls_active].
    + rewrite (handle_final _ _ _ Ht2 Hf2). simpl.
      rewrite str_eqb_refl, andb_false_r. reflexivity.
    + rewrite (handle_final _ _ _ Ht2 Hf2). reflexivity.
  - intros Hsp. rewrite (handle_final _ _ _ Ht1 Hf1).
    rewrite (clean_all_space _ Hsp).
    destruct (negb (is_ai_speaking st) && is_running st); reflexivity.
Qed.

Lemma repeated_final_triggers_once_witness :
  llm_calls (snd (handle_data connected (Final (py "turn on the light"))))
  = 1%nat
  /\ llm_calls
       (snd (run connected
               [Received (Final (py "turn on the light")); LlmFinished;
                Received (Final (py "turn on the light"))])) = 1%nat.
Proof.
  apply (proj1 (repeated_final_triggers_once connected
                  (Final (py "turn on the light"))
                  (Final (py "turn on the light"))
                  (py "turn on the light") true
                  eq_refl eq_refl eq_refl eq_refl eq_refl eq_refl));
    vm_compute; discriminate.
Defined.

End SessionFacts.

(** ** The listener and the call it awaits *)

Section ListenerFacts.
Import Text Pool Session Client.

(** The flag and the number of running calls go together, whatever
    happens. *)
Lemma relay_calls_flag ticks : forall s,
  llm_calls_active (consumer s)
  = (if is_ai_speaking (consumer s) then 1 else 0)%nat ->
  llm_calls_active (consumer (fst (relay s ticks)))
  = (if is_ai_speaking (consumer (fst (relay s ticks))) then 1 else 0)%nat.
Proof.
  induction ticks as [|t ticks IH]; intros s Hs; [exact Hs|].
  cbn [relay]. destruct (tick s t) as [s1 o1] eqn:E.
  specialize (IH s1). destruct (relay s1 ticks) as [s2 o2]. cbn [fst] in *.
  apply IH. clear IH.
  destruct t as [net| | |]; cbn [tick] in E.
  - injection E as <- _. exact Hs.
  - unfold listener_runs in E.
    destruct (0 <? llm_calls_active (consumer s))%nat;
      [injection E as <- _; exact Hs|].
    destruct (negb (is_running (consumer s)));
      [injection E as <- _; exact Hs|].
    destruct (negb (is_connected (funasr_client s)));
      [injection E as <- _; exact Hs|].
    destruct (receive_message _ _) as [c1 [data|]];
      [|injection E as <- _; exact Hs].
    pose proof (active_calls_flag [Received data] (consumer s) Hs) as H.
    cbn [run on_event] in H.
    destruct (handle_data (consumer s) data) as [st1 out].
    injection E as <- _. exact H.
  - injection E as <- _.
    exact (active_calls_flag [LlmFinished] (consumer s) Hs).
  - injection E as <- _.
    exact (active_calls_flag [Disconnected] (consumer s) Hs).
Qed.




End ListenerFacts.

(** ** Batch recognition *)

Section BatchFacts.
Import Text Batch.

(** *** Framing *)

Lemma chunk_size_eq : chunk_size = 960%nat.
Proof. reflexivity. Qed.

#[local] Opaque chunk_size.

Lemma split_frames_concat fuel : forall data,
  (length data <= fuel)%nat -> concat (split_frames fuel data) = data.
Proof.
  induction fuel as [|fuel IH]; intros data Hlen.
  - destruct data; [reflexivity | simpl in Hlen; lia].
  - destruct data as [|b data]; [reflexivity|].
    cbn [split_frames concat].
    rewrite IH.
    + apply take_drop.
    + rewrite length_drop. simpl in *. pose proof chunk_size_eq. lia.
Qed.

Lemma split_frames_sizes fuel : forall data i f,
  (length data <= fuel)%nat ->
  split_frames fuel data !! i = Some f ->
  (0 < length f <= chunk_size)%nat
  /\ (S i < length (split_frames fuel data) -> length f = chunk_size)%nat.
Proof.
  induction fuel as [|fuel IH]; intros data i f Hlen Hf; [discriminate|].
  destruct data as [|b data]; [discriminate|].
  cbn [split_frames] in *.
  assert (Hrest : (length (drop chunk_size (b :: data)) <= fuel)%nat).
  { rewrite length_drop. simpl in *. pose proof chunk_size_eq. lia. }
  destruct i as [|i].
  - cbn [lookup list_lookup] in Hf. injection Hf as <-.
    rewrite length_take. split.
    + cbn [length]. pose proof chunk_size_eq. lia.
    + cbn [length]. intros Hmore.
      destruct (drop chunk_size (b :: data)) as [|b' rest] eqn:Ed.
      * destruct fuel; cbn [split_frames length] in Hmore; lia.
      * pose proof (length_drop (b :: data) chunk_size) as Hd.
        rewrite Ed in Hd. cbn [length] in Hd. lia.
  - cbn [lookup list_lookup] in Hf.
    destruct (IH _ i f Hrest Hf) as [H1 H2].
    split; [exact H1|]. cbn [length]. intros Hmore. apply H2. lia.
Qed.

#[local] Transparent chunk_size.

(** With the connection open and no send failing, the send loop puts
    out the frames of what is left of the buffer. *)
Lemma send_chunks_sent fuel : forall pcm_data pos w,
  is_Some (Pool.websocket (client w)) -> sends_left w = None ->
  send_chunks fuel pcm_data pos w
  = (Some tt,
     {| client := client w;
        sent := sent w ++ map BinaryFrame
                              (split_frames fuel (drop pos pcm_data));
        sends_left := None |}).
Proof.
  induction fuel as [|fuel IH]; intros pcm_data pos w Hopen Hleft.
  - simpl. rewrite app_nil_r. destruct w. simpl in *. subst. reflexivity.
  - cbn [send_chunks split_frames].
    destruct (pos <? length pcm_data)%nat eqn:Hpos.
    + apply Nat.ltb_lt in Hpos.
      destruct (drop pos pcm_data) as [|b rest] eqn:Ed.
      { apply (f_equal (@length _)) in Ed. rewrite length_drop in Ed.
        simpl in Ed. lia. }
      assert ((length (take chunk_size (b :: rest)) =? 0)%nat = false) as ->.
      { apply Nat.eqb_neq. rewrite length_take. simpl. unfold chunk_size. lia. }
      unfold mbind, M_bind, send_audio_data, websocket_send.
      destruct Hopen as [ws Hws]. rewrite Hws, Hleft.
      rewrite IH; [| cbn [client]; rewrite Hws; eauto | reflexivity].
      cbn [sent client].
      rewrite <- Ed, drop_drop, <- app_assoc. reflexivity.
    + apply Nat.ltb_ge in Hpos.
      rewrite drop_ge by exact Hpos.
      simpl. rewrite app_nil_r. destruct w. simpl in *. subst. reflexivity.
Qed.

(** *** The result task *)

(** On an open connection a receive that does not fail leaves the
    client as it is. *)
Lemma receive_message_open c net :
  Pool.is_connected c = true ->
  net <> Client.ConnectionClosed -> net <> Client.OtherError ->
  Client.receive_message c net
  = (c, match net with Client.TextMessage parsed => parsed | _ => None end).
Proof.
  unfold Pool.is_connected, Client.receive_message. intros Hc H1 H2.
  destruct (Pool.websocket c) as [ws|]; [|discriminate].
  destruct (Pool.closed ws) as [[|]|]; [discriminate| |];
    destruct net; congruence.
Qed.

Lemma receive_message_fails c net :
  Pool.is_connected c = true ->
  net = Client.ConnectionClosed \/ net = Client.OtherError ->
  Client.receive_message c net = ({| Pool.websocket := None |}, None).
Proof.
  unfold Pool.is_connected, Client.receive_message. intros Hc H.
  destruct (Pool.websocket c) as [ws|]; [|discriminate].
  destruct (Pool.closed ws) as [[|]|]; [discriminate| |];
    destruct H as [-> | ->]; reflexivity.
Qed.

Lemma handle_recognition_results_dead c acc incoming :
  Pool.is_connected c = false ->
  handle_recognition_results c acc incoming = Spins.
Proof. intros H. destruct incoming; simpl; rewrite H; reflexivity. Qed.

(** While the connection stays open the task ends, with the finalized
    fragments it took in, each followed by a space. *)
Lemma handle_recognition_results_fragments c incoming : forall acc,
  Pool.is_connected c = true -> stays_open incoming = true ->
  handle_recognition_results c acc incoming
  = TaskOver (acc ++ concat (map (fun t => t ++ py " ") (fragments incoming))).
Proof.
  intros acc Hc. revert acc.
  induction incoming as [|net incoming IH]; intros acc Hopen.
  - simpl. rewrite Hc, app_nil_r. reflexivity.
  - cbn [handle_recognition_results]. rewrite Hc. cbn [negb].
    destruct net as [|message|[data|]| |];
      try (rewrite receive_message_open by (assumption || discriminate);
           cbn [fragments stays_open] in *; apply IH; exact Hopen);
      try discriminate.
    rewrite receive_message_open by (assumption || discriminate).
    cbn [fragments stays_open] in *.
    destruct (Session.text data) as [t|].
    + destruct (truthy (strip t)); cbn [andb].
      * destruct (str_eqb (Session.get_mode data) (py "offline")
                  || str_eqb (Session.get_mode data) (py "2pass-offline")).
        -- destruct (Session.is_final data).
           ++ simpl. rewrite app_nil_r. reflexivity.
           ++ rewrite IH by exact Hopen. simpl.
              rewrite <- !app_assoc. reflexivity.
        -- destruct (Session.is_final data).
           ++ simpl. rewrite app_nil_r. reflexivity.
           ++ rewrite IH by exact Hopen. reflexivity.
      * destruct (Session.is_final data).
        -- simpl. rewrite app_nil_r. reflexivity.
        -- rewrite IH by exact Hopen. reflexivity.
    + destruct (Session.is_final data).
      * simpl. rewrite app_nil_r. reflexivity.
      * rewrite IH by exact Hopen. reflexivity.
Qed.

(** When a receive meets a closed connection or an error before a
    final flag, the task spins. *)
Lemma handle_recognition_results_spins c incoming : forall acc,
  Pool.is_connected c = true -> stays_open incoming = false ->
  handle_recognition_results c acc incoming = Spins.
Proof.
  intros acc Hc. revert acc.
  induction incoming as [|net incoming IH]; intros acc Hopen; [discriminate|].
  cbn [handle_recognition_results]. rewrite Hc. cbn [negb].
  destruct net as [|message|[data|]| |]; cbn [stays_open] in Hopen.
  - rewrite receive_message_open by (assumption || discriminate).
    apply IH, Hopen.
  - rewrite receive_message_open by (assumption || discriminate).
    apply IH, Hopen.
  - rewrite receive_message_open by (assumption || discriminate).
    destruct (Session.is_final data); [discriminate|]. apply IH, Hopen.
  - rewrite receive_message_open by (assumption || discriminate).
    apply IH, Hopen.
  - rewrite (receive_message_fails c) by auto.
    apply handle_recognition_results_dead. reflexivity.
  - rewrite (receive_message_fails c) by auto.
    apply handle_recognition_results_dead. reflexivity.
Qed.




(** When the connection does not open, nothing is sent and the result
    is the empty string. *)
Lemma recognize_audio_connect_fails pcm_data sample_rate net :
  connect_result net = None ->
  recognize_audio pcm_data sample_rate net = Returned [] [].
Proof.
  intros H. unfold recognize_audio.
  unfold mbind, M_bind, connect. rewrite H. reflexivity.
Qed.

End BatchFacts.

(** ** Resampling *)

Section AudioFacts.
Import Audio.

(** *** Samples and bytes *)

Lemma byte_to_Z_range b : (0 <= byte_to_Z b <= 255)%Z.
Proof.
  unfold byte_to_Z. pose proof (Byte.to_N_bounded b). lia.
Qed.

Lemma int16_of_range lo hi : int16 (int16_of lo hi).
Proof.
  unfold int16, int16_of.
  pose proof (byte_to_Z_range lo). pose proof (byte_to_Z_range hi).
  destruct (_ <? _)%Z eqn:E; [apply Z.ltb_lt in E | apply Z.ltb_ge in E]; lia.
Qed.

Lemma unpack_h_pairs n : forall pcm_data,
  length pcm_data = (2 * n)%nat ->
  exists samples,
    unpack_h pcm_data = Some samples
    /\ length samples = n /\ Forall int16 samples.
Proof.
  induction n as [|n IH]; intros pcm_data Hlen.
  - destruct pcm_data; [|discriminate]. exists []. auto.
  - destruct pcm_data as [|lo [|hi rest]]; try (simpl in Hlen; lia).
    destruct (IH rest) as (samples & Hs & Hl & Hr);
      [simpl in Hlen; lia|].
    exists (int16_of lo hi :: samples).
    cbn [unpack_h]. rewrite Hs. simpl. repeat split.
    + f_equal. exact Hl.
    + constructor; [apply int16_of_range | exact Hr].
Qed.

Lemma pack_h_length l :
  Forall int16 l ->
  exists out, pack_h l = Some out /\ length out = (2 * length l)%nat.
Proof.
  induction 1 as [|z l Hz _ (out & Ho & Hl)].
  - exists []. auto.
  - unfold int16 in Hz. cbn [pack_h].
    assert (((-32768 <=? z) && (z <=? 32767))%Z = true) as ->.
    { apply andb_true_iff. split; apply Z.leb_le; lia. }
    rewrite Ho. eexists. split; [reflexivity|]. simpl. lia.
Qed.

(** *** [int] of a float *)

Lemma int_of_bounds a b x :
  (inject_Z a <= x)%Q -> (x <= inject_Z b)%Q ->
  (a <= int_of x <= b)%Z.
Proof.
  destruct x as [n d]. unfold Qle, int_of, inject_Z. simpl.
  intros Ha Hb.
  pose proof (Z.quot_rem' n (Z.pos d)) as Hqr.
  destruct (Z_le_gt_dec 0 n) as [Hn|Hn].
  - pose proof (Z.rem_bound_pos n (Z.pos d) Hn ltac:(lia)). nia.
  - pose proof (Z.rem_bound_pos_neg n (Z.pos d) ltac:(lia) ltac:(lia)). nia.
Qed.

Lemma int_of_floor x : (0 <= x)%Q -> int_of x = Qfloor x.
Proof.
  destruct x as [n d]. unfold Qle, int_of, Qfloor. simpl. intros Hn.
  apply Z.quot_div_nonneg; lia.
Qed.

(** *** One output sample *)

Lemma resample_at_int16 samples ratio i :
  samples <> [] -> Forall int16 samples ->
  (0 < ratio)%Q -> (0 <= i)%Z ->
  exists z, resample_at samples ratio i = Some z /\ int16 z.
Proof.
  intros Hne Hall Hratio Hi. unfold resample_at.
  assert (Qeq_bool ratio 0 = false) as ->.
  { destruct (Qeq_bool ratio 0) eqn:E; [|reflexivity].
    apply Qeq_bool_eq in E. rewrite E in Hratio.
    exfalso. exact (Qlt_irrefl _ Hratio). }
  set (src_pos := (inject_Z i / ratio)%Q).
  assert (Hpos : (0 <= src_pos)%Q).
  { unfold src_pos, Qdiv. apply Qmult_le_0_compat.
    - change 0%Q with (inject_Z 0). rewrite <- Zle_Qle. exact Hi.
    - apply Qinv_le_0_compat, Qlt_le_weak, Hratio. }
  rewrite (int_of_floor _ Hpos).
  assert (Hfloor : (0 <= Qfloor src_pos)%Z).
  { rewrite <- (Qfloor_Z 0). apply Qfloor_resp_le. exact Hpos. }
  assert (Hlen : (0 < length samples)%nat) by (destruct samples; simpl; [congruence|lia]).
  rewrite Forall_lookup in Hall.
  destruct (_ <=? _)%Z eqn:Hcmp.
  - unfold index. simpl (-1 <? 0)%Z. cbv iota.
    assert ((0 <=? Z.of_nat (length samples) + -1)%Z = true) as ->
      by (apply Z.leb_le; lia).
    destruct (lookup_lt_is_Some_2 samples
                (Z.to_nat (Z.of_nat (length samples) + -1))) as [z Hz]; [lia|].
    exists z. split; [exact Hz | exact (Hall _ _ Hz)].
  - apply Z.leb_gt in Hcmp.
    unfold index.
    assert ((Qfloor src_pos <? 0)%Z = false) as -> by (apply Z.ltb_ge; lia).
    assert ((Qfloor src_pos + 1 <? 0)%Z = false) as -> by (apply Z.ltb_ge; lia).
    destruct (lookup_lt_is_Some_2 samples (Z.to_nat (Qfloor src_pos)))
      as [s0 Hs0]; [lia|].
    destruct (lookup_lt_is_Some_2 samples (Z.to_nat (Qfloor src_pos + 1)))
      as [s1 Hs1]; [lia|].
    rewrite Hs0, Hs1. cbn [mbind option_bind].
    eexists. split; [reflexivity|].
    pose proof (Hall _ _ Hs0) as [L0 U0]. pose proof (Hall _ _ Hs1) as [L1 U1].
    rewrite Zle_Qle in L0, U0, L1, U1.
    pose proof (Qfloor_le src_pos) as Hfl.
    pose proof (Qlt_floor src_pos) as Hfu.
    rewrite inject_Z_plus in Hfu.
    set (t := (src_pos - inject_Z (Qfloor src_pos))%Q).
    assert (Ht0 : (0 <= t)%Q) by (unfold t; lra).
    assert (Ht1 : (t <= 1)%Q) by (unfold t; change (inject_Z 1) with 1%Q in Hfu; lra).
    unfold int16. apply int_of_bounds; nra.
Qed.

Lemma mapM_int16 (f : Z -> option Z) l :
  (forall i, In i l -> exists z, f i = Some z /\ int16 z) ->
  exists zs, mapM f l = Some zs /\ length zs = length l /\ Forall int16 zs.
Proof.
  induction l as [|i l IH]; intros H.
  - exists []. auto.
  - destruct (H i) as (z & Hz & Hr); [left; reflexivity|].
    destruct IH as (zs & Hzs & Hl & Hall);
      [intros j Hj; apply H; right; exact Hj|].
    exists (z :: zs). cbn [mapM]. rewrite Hz, Hzs. simpl.
    repeat split; [f_equal; exact Hl | constructor; assumption].
Qed.

(** For positive rates and a buffer of whole samples the resampler
    returns, and the output holds the truncated product of the input
    count and the rate ratio. *)
Lemma resample_audio_count pcm_data from_rate to_rate :
  Nat.even (length pcm_data) = true ->
  (0 < from_rate)%Z -> (0 < to_rate)%Z -> from_rate <> to_rate ->
  exists out,
    resample_audio pcm_data from_rate to_rate = Some out
    /\ length out
       = (2 * Z.to_nat
                (int_of (inject_Z (Z.of_nat (sample_count pcm_data))
                         * (inject_Z to_rate / inject_Z from_rate))))%nat.
Proof.
  intros Heven Hfrom Hto Hne.
  apply Nat.even_spec in Heven as [n Hn].
  destruct (unpack_h_pairs n pcm_data Hn) as (samples & Hs & Hl & Hall).
  unfold resample_audio.
  assert ((from_rate =? to_rate)%Z = false) as -> by (apply Z.eqb_neq; exact Hne).
  rewrite Hs. cbn [mbind option_bind].
  assert ((from_rate =? 0)%Z = false) as -> by (apply Z.eqb_neq; lia).
  assert (Hratio : (0 < inject_Z to_rate / inject_Z from_rate)%Q).
  { unfold Qdiv. apply Qmult_lt_0_compat.
    - change 0%Q with (inject_Z 0). rewrite <- Zlt_Qlt. exact Hto.
    - apply Qinv_lt_0_compat. change 0%Q with (inject_Z 0).
      rewrite <- Zlt_Qlt. exact Hfrom. }
  assert (Hcount : sample_count pcm_data = length samples).
  { unfold sample_count. rewrite Hn, Hl.
    rewrite Nat.mul_comm. apply Nat.div_mul. lia. }
  rewrite Hcount.
  set (new_length := int_of _).
  destruct (mapM_int16
              (resample_at samples (inject_Z to_rate / inject_Z from_rate))
              (map Z.of_nat (seq 0 (Z.to_nat new_length))))
    as (zs & Hzs & Hlz & Hallz).
  { intros i Hi. apply in_map_iff in Hi as (k & <- & Hk).
    apply resample_at_int16; try assumption; [|lia].
    intros ->. apply in_seq in Hk.
    assert (Hzero : new_length = 0%Z).
    { unfold new_length, int_of. cbn [length Z.of_nat inject_Z Qmult Qnum Qden].
      rewrite Z.mul_0_l. reflexivity. }
    rewrite Hzero in Hk. simpl in Hk. lia. }
  rewrite Hzs. cbn [mbind option_bind].
  destruct (pack_h_length zs Hallz) as (out & Ho & Hlo).
  exists out. split; [exact Ho|].
  rewrite Hlo, Hlz, length_map, length_seq. reflexivity.
Qed.

(** C8: resampling mono 16-bit PCM from 8000 Hz to 16000 Hz returns a
    buffer with exactly twice as many samples as the input, hence within
    one sample of twice the input count; resampling with the source rate
    equal to the target rate returns the input bytes unchanged. *)
Theorem resample_doubles_or_copies pcm_data :
  (Nat.even (length pcm_data) = true ->
   exists out,
     resample_audio pcm_data 8000 16000 = Some out
     /\ sample_count out = (2 * sample_count pcm_data)%nat
     /\ (Z.abs (Z.of_nat (sample_count out)
                - 2 * Z.of_nat (sample_count pcm_data)) <= 1)%Z)
  /\ (forall rate, resample_audio pcm_data rate rate = Some pcm_data).
Proof.
  split.
  - intros Heven.
    destruct (resample_audio_count pcm_data 8000 16000 Heven)
      as (out & Ho & Hl); [lia | lia | lia |].
    exists out. split; [exact Ho|].
    assert (Hcount : sample_count out = (2 * sample_count pcm_data)%nat).
    { unfold sample_count at 1. rewrite Hl.
      rewrite Nat.mul_comm, Nat.div_mul by lia.
      unfold int_of, Qdiv, Qmult, Qinv, inject_Z. simpl.
      rewrite Z.mul_1_r.
      replace (Z.of_nat (sample_count pcm_data) * 16000)%Z
        with (2 * Z.of_nat (sample_count pcm_data) * 8000)%Z by lia.
      rewrite Z.quot_mul by lia. lia. }
    split; [exact Hcount | lia].
  - intros rate. unfold resample_audio. rewrite Z.eqb_refl. reflexivity.
Qed.

Lemma resample_doubles_or_copies_witness :
  exists out,
    resample_audio [Byte.x01; Byte.x00; Byte.xff; Byte.xff; Byte.x00; Byte.x80]
                   8000 16000 = Some out
    /\ sample_count out = 6%nat.
Proof.
  destruct (proj1 (resample_doubles_or_copies
                     [Byte.x01; Byte.x00; Byte.xff; Byte.xff;
                      Byte.x00; Byte.x80]) eq_refl)
    as (out & Ho & Hc & _).
  exists out. split; [exact Ho | exact Hc].
Defined.

Example resample_example :
  resample_audio [Byte.x01; Byte.x00; Byte.xff; Byte.xff; Byte.x00; Byte.x80]
                 8000 16000
  = Some [Byte.x01; Byte.x00; Byte.x00; Byte.x00; Byte.xff; Byte.xff;
          Byte.x00; Byte.xc0; Byte.x00; Byte.x80; Byte.x00; Byte.x80].
Proof. vm_compute. reflexivity. Qed.

End AudioFacts.

(* ===================================================================== *)
(** * Part III: further properties *)
(* ===================================================================== *)

(** ** The streaming filter on arbitrary replies *)

Section FilterMore.
Import Text Filter.

Lemma startswith_app s prefix :
  startswith s prefix = true -> exists rest, s = prefix ++ rest.
Proof.
  revert s. induction prefix as [|p prefix IH]; intros s H.
  - exists s. reflexivity.
  - destruct s as [|c s]; [discriminate|]. simpl in H.
    apply andb_true_iff in H as [Hc Hs]. apply char_eqb_eq in Hc as ->.
    destruct (IH _ Hs) as [rest ->]. exists rest. reflexivity.
Qed.

(** A prefix of a marker that is not the marker is shorter than it. *)
Lemma proper_prefix_shorter m p :
  startswith m p = true -> str_eqb p m = false ->
  (length p < length m)%nat.
Proof.
  intros Hp Hne. destruct (startswith_app _ _ Hp) as [rest ->].
  destruct rest as [|c rest].
  - rewrite app_nil_r, str_eqb_refl in Hne. discriminate.
  - rewrite length_app. simpl. lia.
Qed.

Lemma pending_ok_nil t s : pending_ok (mkFilterState t s []).
Proof. destruct t; split; simpl; try reflexivity; lia. Qed.

Lemma pending_ok_langle t s : pending_ok (mkFilterState t s [langle]).
Proof. destruct t; split; simpl; try reflexivity; lia. Qed.

Lemma step_pending_ok st c : pending_ok st -> pending_ok (fst (step st c)).
Proof.
  intros Hok. destruct st as [think start pending]. unfold step.
  cbn [in_think_block is_start_output pending_content set_pending].
  destruct think.
  - destruct (char_eqb c langle && negb (truthy pending));
      [apply pending_ok_langle|].
    destruct (truthy pending && (length pending <? 8)%nat);
      [|apply pending_ok_nil].
    destruct (str_eqb (pending ++ [c]) (py "</think>")) eqn:E;
      [apply pending_ok_nil|].
    destruct (startswith (py "</think>") (pending ++ [c])) eqn:P;
      [|apply pending_ok_nil].
    split; [exact P | exact (proper_prefix_shorter _ _ P E)].
  - destruct start.
    + destruct (isspace c); [exact Hok|].
      destruct (char_eqb c langle); [apply pending_ok_langle|].
      destruct (truthy pending && (length pending <? 7)%nat);
        [|apply pending_ok_nil].
      destruct (str_eqb (pending ++ [c]) (py "<think>")) eqn:E;
        [apply pending_ok_nil|].
      destruct (startswith (py "<think>") (pending ++ [c])) eqn:P;
        [|apply pending_ok_nil].
      split; [exact P | exact (proper_prefix_shorter _ _ P E)].
    + destruct (char_eqb c langle && negb (truthy pending));
        [apply pending_ok_langle|].
      destruct (truthy pending && (length pending <? 7)%nat);
        [|exact Hok].
      destruct (str_eqb (pending ++ [c]) (py "<think>")) eqn:E;
        [apply pending_ok_nil|].
      destruct (startswith (py "<think>") (pending ++ [c])) eqn:P;
        [|apply pending_ok_nil].
      split; [exact P | exact (proper_prefix_shorter _ _ P E)].
Qed.

Lemma feed_pending_ok s : forall st,
  pending_ok st -> pending_ok (fst (feed st s)).
Proof.
  induction s as [|c s IH]; intros st Hok; [exact Hok|].
  simpl. pose proof (step_pending_ok st c Hok) as H1.
  destruct (step st c) as [st1 o1]. specialize (IH st1 H1).
  destruct (feed st1 s). exact IH.
Qed.

(** The pending buffer is bounded: whatever the model sends, after any
    number of chunks the loop holds a proper prefix of the marker it is
    watching for, at most 6 characters outside a hidden span and at most
    7 inside one. *)
Theorem pending_buffer_bounded chunks :
  let st := fst (feed_chunks initial chunks) in
  startswith (watched st) (pending_content st) = true
  /\ (length (pending_content st) <= if in_think_block st then 7 else 6)%nat.
Proof.
  intros st. subst st. rewrite feed_chunks_concat.
  destruct (feed_pending_ok (concat chunks) initial (pending_ok_nil false true))
    as [Hp Hl].
  split; [exact Hp|].
  unfold watched in Hl.
  destruct (in_think_block _); simpl in Hl; lia.
Qed.

(** The chunking of a reply is invisible to the client: any way of
    cutting it, empty chunks included, shows what delivery one character
    at a time shows. *)
Theorem stream_chunking_irrelevant chunks :
  visible (stream_chunks chunks) = stream_by_char (concat chunks).
Proof.
  unfold stream_by_char, stream_chunks.
  rewrite feed_chunks_concat, feed_one_char_chunks. reflexivity.
Qed.

(** *** The filter only ever drops characters *)

Lemma step_sublist st c acc consumed :
  pending_ok st ->
  acc ++ pending_content st `sublist_of` consumed ->
  acc ++ visible (snd (step st c)) ++ pending_content (fst (step st c))
    `sublist_of` consumed ++ [c].
Proof.
  intros [_ Hlen] Hsub.
  assert (Hacc : acc `sublist_of` consumed).
  { etransitivity; [|exact Hsub]. apply sublist_inserts_r. reflexivity. }
  assert (Hdrop : acc ++ [] ++ [] `sublist_of` consumed ++ [c]).
  { simpl. rewrite app_nil_r. apply sublist_inserts_r, Hacc. }
  assert (Hrestart : acc ++ [] ++ [langle] `sublist_of` consumed ++ [langle]).
  { simpl. apply sublist_app; [exact Hacc | reflexivity]. }
  assert (Hkeep : acc ++ [] ++ (pending_content st ++ [c])
                    `sublist_of` consumed ++ [c]).
  { simpl. rewrite app_assoc. apply sublist_app; [exact Hsub | reflexivity]. }
  assert (Hsend : acc ++ visible [pending_content st ++ [c]] ++ []
                    `sublist_of` consumed ++ [c]).
  { unfold visible. simpl. rewrite !app_nil_r, app_assoc.
    apply sublist_app; [exact Hsub | reflexivity]. }
  destruct st as [think start pending]. unfold step, watched in *.
  cbn [in_think_block is_start_output pending_content set_pending] in *.
  destruct think.
  - destruct (char_eqb c langle && negb (truthy pending)) eqn:E.
    { apply andb_true_iff in E as [E _]. apply char_eqb_eq in E as ->.
      exact Hrestart. }
    destruct (truthy pending && (length pending <? 8)%nat);
      [|exact Hdrop].
    destruct (str_eqb (pending ++ [c]) (py "</think>")); [exact Hdrop|].
    destruct (startswith (py "</think>") (pending ++ [c]));
      [exact Hkeep | exact Hdrop].
  - destruct start.
    + destruct (isspace c).
      { cbn [fst snd pending_content visible concat app].
        apply sublist_inserts_r, Hsub. }
      destruct (char_eqb c langle) eqn:E.
      { apply char_eqb_eq in E as ->. exact Hrestart. }
      destruct (truthy pending && (length pending <? 7)%nat) eqn:T.
      * destruct (str_eqb (pending ++ [c]) (py "<think>")); [exact Hdrop|].
        destruct (startswith (py "<think>") (pending ++ [c]));
          [exact Hkeep | exact Hsend].
      * destruct pending as [|x pending].
        -- cbn [truthy fst snd pending_content].
           unfold visible. simpl. rewrite app_nil_r in *.
           apply sublist_app; [exact Hsub | reflexivity].
        -- cbn [truthy fst snd pending_content]. exact Hsend.
    + destruct (char_eqb c langle && negb (truthy pending)) eqn:E.
      { apply andb_true_iff in E as [E _]. apply char_eqb_eq in E as ->.
        exact Hrestart. }
      destruct (truthy pending && (length pending <? 7)%nat) eqn:T.
      * destruct (str_eqb (pending ++ [c]) (py "<think>")); [exact Hdrop|].
        destruct (startswith (py "<think>") (pending ++ [c]));
          [exact Hkeep | exact Hsend].
      * destruct pending as [|x pending].
        -- cbn [fst snd pending_content]. unfold visible. simpl.
           rewrite app_nil_r in *.
           apply sublist_app; [exact Hsub | reflexivity].
        -- exfalso. simpl in T, Hlen.
           apply Nat.ltb_ge in T. simpl in T. lia.
Qed.

Lemma feed_sublist s : forall st acc consumed,
  pending_ok st ->
  acc ++ pending_content st `sublist_of` consumed ->
  acc ++ visible (snd (feed st s)) ++ pending_content (fst (feed st s))
    `sublist_of` consumed ++ s.
Proof.
  induction s as [|c s IH]; intros st acc consumed Hok Hsub.
  - simpl. rewrite app_nil_r. exact Hsub.
  - simpl.
    pose proof (step_pending_ok st c Hok) as Hok1.
    pose proof (step_sublist st c acc consumed Hok Hsub) as H1.
    destruct (step st c) as [st1 o1]. cbn [fst snd] in *.
    rewrite app_assoc in H1.
    pose proof (IH st1 (acc ++ visible o1) (consumed ++ [c]) Hok1 H1) as H2.
    destruct (feed st1 s) as [st2 o2]. cbn [fst snd] in *.
    unfold visible in *. rewrite concat_app.
    rewrite <- !app_assoc in *. exact H2.
Qed.

(** Whatever the reply and however it is cut, what the client is shown
    is made of characters of the reply in their order: the filter drops
    characters, it never adds, repeats or reorders any. *)
Theorem stream_output_sublist chunks :
  visible (stream_chunks chunks) `sublist_of` concat chunks.
Proof.
  unfold stream_chunks. rewrite feed_chunks_concat.
  pose proof (feed_sublist (concat chunks) initial [] []
                (pending_ok_nil false true) (sublist_nil_l _)) as H.
  destruct (feed initial (concat chunks)) as [st out]. cbn [fst snd app] in H.
  unfold visible in *. rewrite concat_app. unfold flush.
  destruct (truthy (pending_content st) && negb (in_think_block st)
            && negb (is_start_output st)).
  - simpl. rewrite app_nil_r. exact H.
  - simpl. rewrite app_nil_r. etransitivity; [|exact H].
    apply sublist_inserts_r. reflexivity.
Qed.

(** *** Well-delimited replies *)

(** For a reply in which ['<'] occurs only in the markers, however it is
    cut into chunks, the client is shown exactly the text outside the
    hidden spans, without its leading whitespace: nothing of a span is
    displayed and nothing after the first visible character is lost. *)
Theorem stream_shows_visible_text chunks t0 segs :
  concat chunks = with_spans t0 segs ->
  well_delimited t0 segs = true ->
  visible (stream_chunks chunks) = lstrip (visible_text t0 segs).
Proof.
  intros Hc Hwd.
  pose proof (stream_by_char_spans _ _ Hwd) as Hs.
  unfold stream_by_char, stream_chunks in *.
  rewrite feed_one_char_chunks in Hs.
  rewrite feed_chunks_concat, Hc. exact Hs.
Qed.

Lemma stream_shows_visible_text_witness :
  visible (stream_chunks [py " <thi"; []; py "nk>plan</th"; py "ink> Hi";
                          py " there<think>more</think>!"])
  = py "Hi there!".
Proof.
  rewrite (stream_shows_visible_text _ (py " ")
             [(py "plan", py " Hi there"); (py "more", py "!")]);
    vm_compute; reflexivity.
Defined.

Lemma matches_somewhere_here pat s r :
  match_here pat s = Some r -> matches_somewhere pat s = true.
Proof. intros H. destruct s; simpl; rewrite H; reflexivity. Qed.

Lemma matches_somewhere_tail pat a : forall b,
  matches_somewhere pat (a ++ b) = false -> matches_somewhere pat b = false.
Proof.
  induction a as [|x a IH]; intros b H; [exact H|].
  apply IH. simpl in H. destruct (match_here pat (x :: a ++ b)); [discriminate|].
  exact H.
Qed.

Lemma match_here_lit m r : match_here (map Chr m) (m ++ r) = Some r.
Proof.
  induction m as [|c m IH]; [reflexivity|].
  cbn [map app match_here].
  rewrite (proj2 (char_eqb_eq c c) eq_refl). exact IH.
Qed.

(** Inside a span the loop stays silent and hidden for as long as the
    end marker does not come. *)
Lemma feed_hidden_unclosed start rest : forall p,
  startswith (py "</think>") p = true -> (length p < 8)%nat ->
  matches_somewhere (lit "</think>") (p ++ rest) = false ->
  in_think_block (fst (feed (mkFilterState true start p) rest)) = true
  /\ snd (feed (mkFilterState true start p) rest) = [].
Proof.
  induction rest as [|c rest IH]; intros p Hp Hlen Hno; [split; reflexivity|].
  assert (Hgo : forall q,
            startswith (py "</think>") q = true -> (length q < 8)%nat ->
            matches_somewhere (lit "</think>") (q ++ rest) = false ->
            step (mkFilterState true start p) c
            = (mkFilterState true start q, []) ->
            in_think_block
              (fst (feed (mkFilterState true start p) (c :: rest))) = true
            /\ snd (feed (mkFilterState true start p) (c :: rest)) = []).
  { intros q Hq Hql Hqn Hstep. cbn [feed]. rewrite Hstep.
    destruct (IH q Hq Hql Hqn) as [I1 I2].
    destruct (feed (mkFilterState true start q) rest) as [st2 o2].
    cbn [fst snd] in *. subst o2. auto. }
  assert (Hrest : matches_somewhere (lit "</think>") ([] ++ rest) = false).
  { apply (matches_somewhere_tail _ (p ++ [c])).
    rewrite <- app_assoc. exact Hno. }
  unfold step in Hgo.
  cbn [in_think_block is_start_output pending_content set_pending] in Hgo.
  destruct (char_eqb c langle && negb (truthy p)) eqn:E1.
  - apply andb_true_iff in E1 as [Ec Ep]. apply char_eqb_eq in Ec. subst c.
    destruct p as [|x p]; [|discriminate].
    apply (Hgo [langle]); [reflexivity | simpl; lia | exact Hno | reflexivity].
  - destruct (truthy p && (length p <? 8)%nat) eqn:E2.
    + destruct (str_eqb (p ++ [c]) (py "</think>")) eqn:E3.
      * exfalso. apply str_eqb_eq in E3.
        rewrite (app_assoc p [c] rest : p ++ c :: rest = (p ++ [c]) ++ rest),
          E3 in Hno.
        unfold lit in Hno.
        rewrite (matches_somewhere_here _ _ _ (match_here_lit _ rest)) in Hno.
        discriminate.
      * destruct (startswith (py "</think>") (p ++ [c])) eqn:E4; cbn [negb] in Hgo.
        -- apply (Hgo (p ++ [c])); [exact E4 | | | reflexivity].
           ++ exact (proper_prefix_shorter _ _ E4 E3).
           ++ rewrite <- app_assoc. exact Hno.
        -- apply (Hgo []); [reflexivity | simpl; lia | exact Hrest | reflexivity].
    + apply (Hgo []); [reflexivity | simpl; lia | exact Hrest | reflexivity].
Qed.

(** A start marker that is never closed hides the rest of the reply.
    When, after a prefix of the reply, the loop is outside a span and
    holds nothing pending, a [<think>] that follows and is never
    followed by [</think>] hides everything after it, whatever
    characters come (other ['<'] included): the client is shown what it
    is shown for the prefix and nothing more, not even at the end of
    the stream. *)
Theorem unclosed_span_hides_rest s rest :
  in_think_block (fst (feed initial s)) = false ->
  pending_content (fst (feed initial s)) = [] ->
  matches_somewhere (lit "</think>") rest = false ->
  stream_by_char (s ++ py "<think>" ++ rest) = stream_by_char s.
Proof.
  intros Hout Hpend Hno. unfold stream_by_char, stream_chunks.
  rewrite !feed_one_char_chunks, feed_app.
  destruct (feed initial s) as [[think start pending] out].
  cbn [fst snd in_think_block pending_content] in *. subst think pending.
  rewrite feed_app, feed_start_marker. cbn [fst snd app].
  destruct (feed_hidden_unclosed start rest [] eq_refl ltac:(simpl; lia) Hno)
    as [H1 H2].
  unfold Hidden.
  destruct (feed (mkFilterState true start []) rest) as [st2 o2].
  cbn [fst snd] in *. subst o2.
  unfold flush. rewrite H1.
  cbn [pending_content truthy andb negb]. rewrite !andb_false_r.
  rewrite !app_nil_r. reflexivity.
Qed.

Lemma unclosed_span_hides_rest_witness :
  stream_by_char (py "Sure.<think>if a<b then </thin") = py "Sure.".
Proof.
  exact (unclosed_span_hides_rest (py "Sure.") (py "if a<b then </thin")
           eq_refl eq_refl eq_refl).
Defined.

End FilterMore.

(** ** The whole-string filters on arbitrary text *)

Section TextMore.
Import Text Filter Session.

(** *** Matches are suffixes *)

Lemma match_here_suffix pat : forall s r,
  match_here pat s = Some r -> r `suffix_of` s.
Proof.
  induction pat as [|a pat IH]; intros s r.
  - simpl. intros [= ->]. reflexivity.
  - destruct a as [c|p|p|p]; simpl.
    + destruct s as [|x s]; [discriminate|].
      destruct (char_eqb x c); [|discriminate].
      intros H. apply suffix_cons_r, IH, H.
    + destruct s as [|x s]; [discriminate|].
      destruct (p x); [|discriminate].
      intros H. apply suffix_cons_r, IH, H.
    + revert r. induction s as [|x s IHs]; intros r.
      * destruct (match_here pat []) eqn:E; [|discriminate].
        intros [= ->]. apply IH, E.
      * destruct (match_here pat (x :: s)) eqn:E.
        { intros [= ->]. apply IH, E. }
        destruct (p x); [|discriminate].
        intros H. apply suffix_cons_r, IHs, H.
    + revert r. induction s as [|x s IHs]; intros r.
      * intros H. apply IH, H.
      * destruct (p x).
        { match goal with
          | |- context [match ?g with Some _ => _ | None => _ end] =>
              destruct g eqn:E
          end.
          - intros [= ->]. apply suffix_cons_r, IHs. reflexivity.
          - intros H. apply IH, H. }
        intros H. apply IH, H.
Qed.

Lemma suffix_sublist (r s : str) : r `suffix_of` s -> r `sublist_of` s.
Proof. intros [k ->]. apply sublist_inserts_l. reflexivity. Qed.

(** A substitution whose replacement is taken from the match only drops
    characters. *)
Lemma re_sub_sublist pat repl :
  (forall s r, match_here pat s = Some r -> repl ++ r `sublist_of` s) ->
  forall s, re_sub pat repl s `sublist_of` s.
Proof.
  intros Hrepl.
  assert (Hfuel : forall fuel s, re_sub_fuel fuel pat repl s `sublist_of` s).
  { induction fuel as [|fuel IH]; intros s; [reflexivity|].
    cbn [re_sub_fuel].
    destruct (match_here pat s) as [r|] eqn:E.
    - pose proof (Hrepl _ _ E) as Hs.
      destruct (length r <? length s)%nat eqn:Hlt.
      + etransitivity; [|exact Hs].
        apply sublist_app; [reflexivity | apply IH].
      + apply Nat.ltb_ge in Hlt.
        pose proof (sublist_length _ _ Hs) as Hl.
        rewrite length_app in Hl.
        destruct repl; [|simpl in Hl; lia].
        destruct s as [|c s]; [reflexivity|].
        simpl. apply sublist_skip, IH.
    - destruct s as [|c s]; [reflexivity|].
      apply sublist_skip, IH. }
  intros s. apply Hfuel.
Qed.

Lemma re_sub_erase_sublist pat s : re_sub pat [] s `sublist_of` s.
Proof.
  apply re_sub_sublist. intros s' r H. simpl.
  apply suffix_sublist, (match_here_suffix _ _ _ H).
Qed.

Lemma lstrip_sublist s : lstrip s `sublist_of` s.
Proof.
  destruct (lstrip_suffix s) as [w Hw]. rewrite Hw at 2.
  apply sublist_inserts_l. reflexivity.
Qed.

Lemma rstrip_sublist s : rstrip s `sublist_of` s.
Proof.
  unfold rstrip. destruct (lstrip_suffix (rev s)) as [w Hw].
  apply (f_equal (@rev _)) in Hw.
  rewrite rev_involutive, rev_app_distr in Hw. rewrite Hw at 2.
  apply sublist_inserts_r. reflexivity.
Qed.

Lemma strip_sublist s : strip s `sublist_of` s.
Proof.
  unfold strip. etransitivity; [apply rstrip_sublist | apply lstrip_sublist].
Qed.

(** *** Stripped results *)

Lemma lstrip_strip s : lstrip (strip s) = strip s.
Proof.
  unfold strip. destruct (lstrip s) as [|c r] eqn:E; [reflexivity|].
  pose proof (lstrip_head _ _ _ E) as Hc.
  destruct (rstrip_head c r Hc) as [r' ->]. simpl. rewrite Hc. reflexivity.
Qed.

(** [filter_think_tags] only ever drops characters of its input, and
    what it returns neither starts nor ends with whitespace. *)
Theorem filter_think_tags_drops_and_strips s :
  filter_think_tags s `sublist_of` s
  /\ lstrip (filter_think_tags s) = filter_think_tags s
  /\ ends_with_space (filter_think_tags s) = false.
Proof.
  unfold filter_think_tags. split; [|split].
  - etransitivity; [apply strip_sublist|].
    etransitivity; [|apply (re_sub_erase_sublist think_span)].
    apply re_sub_sublist. intros s' r H.
    unfold blank_lines in H. cbn [match_here] in H.
    destruct s' as [|x s']; [discriminate|].
    destruct (char_eqb x 10%N) eqn:Ex; [|discriminate].
    apply char_eqb_eq in Ex as ->. simpl.
    apply sublist_skip, suffix_sublist.
    exact (match_here_suffix [StarGreedy isspace; Chr 10%N] _ _ H).
  - apply lstrip_strip.
  - apply ends_with_space_rstrip.
Qed.

(** [clean_recognition_text] only ever drops characters of its input,
    and what it returns neither starts nor ends with whitespace. *)
Theorem clean_recognition_text_drops_and_strips s :
  clean_recognition_text s `sublist_of` s
  /\ lstrip (clean_recognition_text s) = clean_recognition_text s
  /\ ends_with_space (clean_recognition_text s) = false.
Proof.
  unfold clean_recognition_text.
  destruct s as [|c s]; [repeat split; reflexivity|]. cbn [truthy negb].
  split; [|split].
  - etransitivity; [apply strip_sublist|].
    etransitivity; apply re_sub_erase_sublist.
  - apply lstrip_strip.
  - apply ends_with_space_rstrip.
Qed.

(** *** Recogniser tags *)

(** A greedy class star followed by a character outside the class takes
    the whole run of the class. *)
Lemma match_greedy_run p pat x c rest r :
  forallb p x = true -> p c = false ->
  match_here pat (c :: rest) = Some r ->
  match_here (StarGreedy p :: pat) (x ++ c :: rest) = Some r.
Proof.
  intros Hx Hc Hr. induction x as [|a x IH].
  - cbn [app match_here]. rewrite Hc. exact Hr.
  - simpl in Hx. apply andb_true_iff in Hx as [Ha Hx].
    specialize (IH Hx). cbn [app match_here] in *. rewrite Ha, IH.
    reflexivity.
Qed.

Lemma match_chr c pat s :
  match_here (Chr c :: pat) (c :: s) = match_here pat s.
Proof. cbn [match_here]. rewrite (proj2 (char_eqb_eq c c) eq_refl). reflexivity. Qed.

Lemma match_tag pat x rest r :
  free_of 124%N x = true ->
  match_here pat rest = Some r ->
  match_here (tag ++ pat) (tagged x ++ rest) = Some r.
Proof.
  intros Hx Hr. unfold tagged, tag.
  set (o := py "<|"). vm_compute in o. subst o.
  set (e := py "|>"). vm_compute in e. subst e.
  rewrite <- !app_assoc. cbn [app]. rewrite !match_chr.
  apply (match_greedy_run _ (Chr 124%N :: Chr 62%N :: pat) x 124%N
           (62%N :: rest) r).
  - exact Hx.
  - reflexivity.
  - rewrite !match_chr. exact Hr.
Qed.

Lemma match_trailing_space s :
  match_here [StarGreedy isspace] s = Some (lstrip s).
Proof.
  induction s as [|c s IH]; [reflexivity|].
  cbn [match_here lstrip] in *. destruct (isspace c); [|reflexivity].
  rewrite IH. reflexivity.
Qed.

Lemma free_of_lstrip c s : free_of c s = true -> free_of c (lstrip s) = true.
Proof.
  induction s as [|x s IH]; [auto|].
  intros H. simpl. destruct (isspace x); [|exact H].
  apply IH. simpl in H. apply andb_true_iff in H as [_ H]. exact H.
Qed.

Lemma lstrip_lstrip s : lstrip (lstrip s) = lstrip s.
Proof.
  destruct (lstrip s) as [|c r] eqn:E; [reflexivity|].
  simpl. rewrite (lstrip_head _ _ _ E). reflexivity.
Qed.

(** The language, emotion and event tags the recogniser puts before a
    result are removed together with the whitespace after them: what is
    left is the text of the result, stripped. *)
Theorem clean_removes_tag_prefix lang emo event body :
  free_of 124%N lang = true -> free_of 124%N emo = true ->
  free_of 124%N event = true -> free_of 60%N body = true ->
  clean_recognition_text (tagged lang ++ tagged emo ++ tagged event ++ body)
  = strip body.
Proof.
  intros Hl He Hv Hb. unfold clean_recognition_text.
  assert (truthy (tagged lang ++ tagged emo ++ tagged event ++ body) = true)
    as -> by reflexivity.
  cbn [negb].
  assert (Hm : match_here (tag ++ tag ++ tag ++ [StarGreedy isspace])
                 (tagged lang ++ tagged emo ++ tagged event ++ body)
               = Some (lstrip body)).
  { apply match_tag; [exact Hl|]. apply match_tag; [exact He|].
    apply match_tag; [exact Hv|]. apply match_trailing_space. }
  rewrite (re_sub_replace _ _ _ _ Hm).
  - pose proof (free_of_lstrip _ _ Hb) as Hb'.
    change (tag ++ tag ++ tag ++ [StarGreedy isspace])
      with (Chr 60%N :: tl (tag ++ tag ++ tag ++ [StarGreedy isspace])).
    rewrite (re_sub_no_match _ _ _ _ (free_of_no_match _ _ _ Hb')).
    change (tag ++ [StarGreedy isspace])
      with (Chr 60%N :: tl (tag ++ [StarGreedy isspace])).
    cbn [app].
    rewrite (re_sub_no_match _ _ _ _ (free_of_no_match _ _ _ Hb')).
    unfold strip. rewrite lstrip_lstrip. reflexivity.
  - pose proof (sublist_length _ _ (lstrip_sublist body)) as Hlen.
    unfold tagged. rewrite !length_app. simpl. lia.
Qed.

Lemma clean_removes_tag_prefix_witness :
  clean_recognition_text (py "<|zh|><|NEUTRAL|><|Speech|> turn it off ")
  = py "turn it off".
Proof.
  etransitivity.
  - exact (clean_removes_tag_prefix (py "zh") (py "NEUTRAL") (py "Speech")
             (py " turn it off ") eq_refl eq_refl eq_refl eq_refl).
  - vm_compute. reflexivity.
Defined.

(** Text without ['<'] holds no tag: cleaning it is stripping it, and
    text of whitespace only comes out empty. *)
Lemma clean_plain_text s :
  free_of 60%N s = true ->
  clean_recognition_text s = strip s
  /\ (forallb isspace s = true -> clean_recognition_text s = []).
Proof.
  intros H. split; [apply clean_free_of_lt, H|].
  intros Hsp. rewrite (clean_free_of_lt _ H). apply strip_all_space, Hsp.
Qed.

Lemma clean_plain_text_witness :
  clean_recognition_text (py "  what time is it ") = py "what time is it".
Proof.
  rewrite (proj1 (clean_plain_text (py "  what time is it ") eq_refl)).
  vm_compute. reflexivity.
Defined.

End TextMore.

(** ** The listener over whole runs *)

Section SessionMore.
Import Text Session.

(** One message launches no call, or one call whose input is new. *)
Lemma handle_data_call st data :
  call_inputs (snd (handle_data st data)) = []
  /\ last_complete_text (fst (handle_data st data)) = last_complete_text st
  \/ exists d,
       call_inputs (snd (handle_data st data)) = [d]
       /\ d <> [] /\ strip d = d /\ d <> last_complete_text st
       /\ last_complete_text (fst (handle_data st data)) = d
       /\ final_result data = true.
Proof.
  unfold handle_data, final_result.
  destruct (text data) as [raw|]; [|left; auto].
  destruct (negb (is_ai_speaking st) && is_running st); [|left; auto].
  destruct (str_eqb (get_mode data) (py "2pass-online")); [left; auto|].
  destruct (str_eqb (get_mode data) (py "2pass-offline")
            || str_eqb (get_mode data) (py "offline")); [|left; auto].
  destruct (truthy (clean_recognition_text raw)
            && truthy (strip (clean_recognition_text raw))
            && negb (str_eqb (clean_recognition_text raw)
                             (last_complete_text st))) eqn:E;
    [|left; auto].
  right. exists (clean_recognition_text raw).
  apply andb_true_iff in E as [E Hnew].
  apply andb_true_iff in E as [Htruthy _].
  cbn [fst snd call_inputs omap list_omap last_complete_text].
  repeat split.
  - intros Hnil. rewrite Hnil in Htruthy. discriminate.
  - apply strip_clean.
  - intros Heq. rewrite <- Heq, str_eqb_refl in Hnew. discriminate.
Qed.

Lemma on_event_call st e :
  call_inputs (snd (on_event st e)) = []
  /\ last_complete_text (fst (on_event st e)) = last_complete_text st
  \/ exists d,
       call_inputs (snd (on_event st e)) = [d]
       /\ d <> [] /\ strip d = d /\ d <> last_complete_text st
       /\ last_complete_text (fst (on_event st e)) = d
       /\ match e with
          | Received data => final_result data = true
          | _ => False
          end.
Proof.
  destruct e as [data| |].
  - apply handle_data_call.
  - left. simpl. unfold llm_finished.
    destruct (llm_calls_active st); auto.
  - left. auto.
Qed.

Lemma run_calls es : forall st,
  Forall (fun d => d <> [] /\ strip d = d) (call_inputs (snd (run st es)))
  /\ adjacent_distinct
       (last_complete_text st :: call_inputs (snd (run st es)))
  /\ (length (call_inputs (snd (run st es))) <= final_results es)%nat.
Proof.
  induction es as [|e es IH]; intros st.
  - simpl. repeat split; [constructor | lia].
  - cbn [run]. pose proof (on_event_call st e) as He.
    destruct (on_event st e) as [st1 o1]. specialize (IH st1).
    destruct (run st1 es) as [st2 o2]. cbn [fst snd] in *.
    unfold call_inputs in *. rewrite omap_app. fold call_inputs in *.
    destruct IH as (IH1 & IH2 & IH3).
    unfold final_results in *. cbn [List.filter].
    destruct He as [[-> Hl]|(d & -> & Hd1 & Hd2 & Hd3 & Hl & Hf)].
    + rewrite <- Hl. cbn [app]. repeat split; try assumption.
      destruct (match e with Received d => final_result d | _ => false end);
        simpl; lia.
    + rewrite Hl in IH2. cbn [app]. repeat split.
      * constructor; [split; assumption | exact IH1].
      * intros Heq. apply Hd3. symmetry. exact Heq.
      * exact IH2.
      * destruct e as [data| |]; try contradiction. rewrite Hf. simpl. lia.
Qed.

(** Over any run of a session, every LLM call gets a user input that is
    not empty and carries no outer whitespace, and no two calls in a row
    get the same input. *)
Theorem llm_inputs_fresh es :
  Forall (fun d => d <> [] /\ strip d = d)
         (call_inputs (snd (run connected es)))
  /\ adjacent_distinct (call_inputs (snd (run connected es))).
Proof.
  destruct (run_calls es connected) as (H1 & H2 & _).
  split; [exact H1|].
  simpl in H2. destruct (call_inputs (snd (run connected es))); [exact I|].
  apply H2.
Qed.

(** LLM calls come from finalized results only: a run launches at most
    as many calls as it handles results of an offline mode; partial
    results, messages without text and messages of other modes launch
    none. *)
Theorem calls_only_from_final_results st es :
  (llm_calls (snd (run st es)) <= final_results es)%nat.
Proof.
  destruct (run_calls es st) as (_ & _ & H).
  assert (Heq : forall out, llm_calls out = length (call_inputs out)).
  { induction out as [|a out IHo]; [reflexivity|].
    unfold llm_calls, call_inputs in *. destruct a; simpl; auto. }
  rewrite Heq. exact H.
Qed.

(** *** After the client has left *)

Lemma not_running_inert es : forall st,
  is_running st = false ->
  snd (run st es) = []
  /\ is_running (fst (run st es)) = false
  /\ accumulated_text (fst (run st es)) = accumulated_text st
  /\ last_complete_text (fst (run st es)) = last_complete_text st.
Proof.
  induction es as [|e es IH]; intros st Hst; [auto|].
  cbn [run].
  assert (He : snd (on_event st e) = []
               /\ is_running (fst (on_event st e)) = false
               /\ accumulated_text (fst (on_event st e)) = accumulated_text st
               /\ last_complete_text (fst (on_event st e))
                  = last_complete_text st).
  { destruct e as [data| |]; simpl.
    - unfold handle_data. destruct (text data); [|auto].
      rewrite Hst, andb_false_r. auto.
    - unfold llm_finished. destruct (llm_calls_active st); auto.
    - auto. }
  destruct (on_event st e) as [st1 o1]. cbn [fst snd] in He.
  destruct He as (-> & Hr & Ha & Hl).
  destruct (IH st1 Hr) as (Ho & Hr2 & Ha2 & Hl2).
  destruct (run st1 es) as [st2 o2]. cbn [fst snd] in *.
  subst o2. rewrite Ha2, Hl2. auto.
Qed.

(** Once the client has disconnected, nothing the recogniser still
    delivers reaches it or the LLM: every later message is dropped, no
    action is taken, and the session's texts stay as they were. *)
Theorem disconnected_session_inert st es :
  snd (run st (Disconnected :: es)) = []
  /\ accumulated_text (fst (run st (Disconnected :: es))) = accumulated_text st
  /\ last_complete_text (fst (run st (Disconnected :: es)))
     = last_complete_text st.
Proof.
  cbn [run on_event].
  destruct (not_running_inert es (stopped st) eq_refl) as (Ho & _ & Ha & Hl).
  destruct (run (stopped st) es) as [st2 o2]. cbn [fst snd app] in *.
  auto.
Qed.

End SessionMore.

(** ** The pool over whole runs *)

Section PoolMore.
Import Pool.

(** *** What a sweep removes *)

Lemma candidates_snoc (f : loc -> bool) cs x :
  omap (fun '(i, l) => if f l then Some i else None)
       (imap (fun i l => (i, l)) (cs ++ [x]))
  = omap (fun '(i, l) => if f l then Some i else None)
         (imap (fun i l => (i, l)) cs)
    ++ (if f x then [length cs] else []).
Proof.
  rewrite imap_app, omap_app. f_equal.
  cbn [imap omap list_omap]. rewrite Nat.add_0_r.
  destruct (f x); reflexivity.
Qed.

Lemma remove_at_connections cr (f : loc -> bool) cs : forall tail p,
  connections p = cs ++ tail ->
  connections
    (remove_at p cr
       (rev (omap (fun '(i, l) => if f l then Some i else None)
                  (imap (fun i l => (i, l)) cs))))
  = List.filter (fun l => negb (f l)) cs ++ tail.
Proof.
  induction cs as [|x cs IH] using rev_ind; intros tail p Hp.
  - exact Hp.
  - rewrite candidates_snoc, rev_app_distr, List.filter_app.
    cbn [List.filter].
    destruct (f x) eqn:Hx; cbn [negb rev app].
    + rewrite <- app_assoc in Hp. cbn [app] in Hp.
      cbn [remove_at]. rewrite Hp.
      rewrite (list_lookup_middle cs tail x (length cs) eq_refl).
      rewrite app_nil_r. apply IH. cbn [connections set_store].
      apply delete_middle.
    + rewrite <- app_assoc. apply IH. rewrite Hp, <- app_assoc. reflexivity.
Qed.

Lemma slot_alter p f l0 cs us l :
  (forall conn, in_use (f conn) = in_use conn
                /\ user_id (f conn) = user_id conn) ->
  slot (set_store p (alter f l0 (heap p)) cs us) l = slot p l.
Proof.
  intros Hf. unfold slot. cbn [heap set_store].
  rewrite list_lookup_alter. destruct (decide (l0 = l)) as [->|]; [|reflexivity].
  destruct (heap p !! l) as [conn|]; [|reflexivity].
  simpl. destruct (Hf conn) as [-> ->]. reflexivity.
Qed.

Lemma remove_at_slot cr indices : forall p l,
  slot (remove_at p cr indices) l = slot p l.
Proof.
  induction indices as [|i indices IH]; intros p l; [reflexivity|].
  cbn [remove_at]. destruct (connections p !! i) as [l0|]; [|reflexivity].
  rewrite IH. apply slot_alter. intros conn. split; reflexivity.
Qed.

Lemma cleanup_tick_filters p current_time cr :
  connections (cleanup_tick p current_time cr)
  = List.filter (fun l => negb (sweep_candidate p current_time l))
                (connections p)
  /\ user_connections (cleanup_tick p current_time cr) = user_connections p.
Proof.
  unfold cleanup_tick, connections_to_remove. split.
  - rewrite <- (app_nil_r (List.filter _ _)).
    apply remove_at_connections. rewrite app_nil_r. reflexivity.
  - apply remove_at_user_connections.
Qed.

(** One sweep tick removes from the list exactly the connections that
    pass its test, keeps the others in their order, and leaves the owner
    map alone. *)
Theorem sweep_removes_candidates p current_time cr :
  connections (cleanup_tick p current_time cr)
  = List.filter (fun l => negb (sweep_candidate p current_time l))
                (connections p)
  /\ user_connections (cleanup_tick p current_time cr) = user_connections p.
Proof. exact (cleanup_tick_filters p current_time cr). Qed.

Lemma candidate_free p t l : sweep_candidate p t l = true -> free p l = true.
Proof.
  unfold sweep_candidate, free. destruct (heap p !! l); [|discriminate].
  intros H. apply andb_true_iff in H as [H _].
  apply andb_true_iff in H as [H _]. exact H.
Qed.

Lemma remove_at_heap_spared cr (f : loc -> bool) l cs : forall tail p,
  connections p = cs ++ tail -> f l = false ->
  heap (remove_at p cr
          (rev (omap (fun '(i, l) => if f l then Some i else None)
                     (imap (fun i l => (i, l)) cs)))) !! l
  = heap p !! l.
Proof.
  induction cs as [|x cs IH] using rev_ind; intros tail p Hp Hl.
  - reflexivity.
  - rewrite candidates_snoc, rev_app_distr.
    destruct (f x) eqn:Hx; cbn [rev app].
    + rewrite <- app_assoc in Hp. cbn [app] in Hp.
      cbn [remove_at]. rewrite Hp.
      rewrite (list_lookup_middle cs tail x (length cs) eq_refl).
      rewrite (IH tail); [| cbn [connections set_store]; apply delete_middle
                          | exact Hl].
      cbn [heap set_store]. apply list_lookup_alter_ne. congruence.
    + apply (IH ([x] ++ tail)); [|exact Hl].
      rewrite Hp, <- app_assoc. reflexivity.
Qed.

(** A sweep never closes a connection that is in use: a listed
    connection that is not free is still listed after the tick and its
    pooled object is untouched, its client as connected as before, so
    an owner keeps the connection it holds however long it has been
    silent and whatever else the tick closes. *)
Theorem sweep_spares_connections_in_use p current_time cr l :
  In l (connections p) -> free p l = false ->
  In l (connections (cleanup_tick p current_time cr))
  /\ heap (cleanup_tick p current_time cr) !! l = heap p !! l
  /\ live (cleanup_tick p current_time cr) l = live p l.
Proof.
  intros Hl Hbusy.
  assert (Hnot : sweep_candidate p current_time l = false).
  { destruct (sweep_candidate p current_time l) eqn:E; [|reflexivity].
    apply candidate_free in E. congruence. }
  assert (Hheap : heap (cleanup_tick p current_time cr) !! l = heap p !! l).
  { unfold cleanup_tick, connections_to_remove.
    apply (remove_at_heap_spared cr _ l (connections p) []);
      [rewrite app_nil_r; reflexivity | exact Hnot]. }
  split; [|split].
  - rewrite (proj1 (cleanup_tick_filters p current_time cr)).
    apply List.filter_In. split; [exact Hl|]. rewrite Hnot. reflexivity.
  - exact Hheap.
  - unfold live. rewrite Hheap. reflexivity.
Qed.

Lemma sweep_spares_connections_in_use_witness :
  let p := run_events
             (initialize (new_pool 1 10 300) 0 (fun _ => good_net))
             [Acquire "a" 1 good_net; Acquire "b" 1 good_net;
              Release "b" 2] in
  In 0%nat (connections (cleanup_tick p 100000 (fun _ => false)))
  /\ live (cleanup_tick p 100000 (fun _ => false)) 0%nat = true
  /\ live (cleanup_tick p 100000 (fun _ => false)) 1%nat = false.
Proof.
  intros p.
  destruct (sweep_spares_connections_in_use p 100000 (fun _ => false) 0%nat)
    as (H1 & _ & H3).
  - vm_compute. auto.
  - vm_compute. reflexivity.
  - split; [exact H1|]. split; [rewrite H3|]; vm_compute; reflexivity.
Defined.

(** *** The bookkeeping invariant *)

Lemma slot_is_Some_lt p l : is_Some (slot p l) <-> (l < length (heap p))%nat.
Proof.
  unfold slot. rewrite fmap_is_Some. apply lookup_lt_is_Some.
Qed.

Lemma slot_append_old p conn cs us l :
  (l < length (heap p))%nat ->
  slot (set_store p (heap p ++ [conn]) cs us) l = slot p l.
Proof.
  intros Hl. unfold slot. cbn [heap set_store].
  rewrite lookup_app_l by exact Hl. reflexivity.
Qed.

Lemma slot_append_new p conn cs us :
  slot (set_store p (heap p ++ [conn]) cs us) (length (heap p))
  = Some (in_use conn, user_id conn).
Proof.
  unfold slot. cbn [heap set_store].
  rewrite (list_lookup_middle (heap p) [] conn _ eq_refl). reflexivity.
Qed.

Lemma slot_alter_eq p f l cs us conn :
  heap p !! l = Some conn ->
  slot (set_store p (alter f l (heap p)) cs us) l
  = Some (in_use (f conn), user_id (f conn)).
Proof.
  intros H. unfold slot. cbn [heap set_store].
  rewrite list_lookup_alter_eq, H. reflexivity.
Qed.

Lemma slot_alter_ne p f l0 l cs us :
  l0 <> l ->
  slot (set_store p (alter f l0 (heap p)) cs us) l = slot p l.
Proof.
  intros H. unfold slot. cbn [heap set_store].
  rewrite list_lookup_alter_ne by exact H. reflexivity.
Qed.

(** Changes that leave flags, list and owner map alone. *)
Lemma bookkeeping_frame p p' :
  bookkeeping_ok p ->
  connections p' = connections p ->
  user_connections p' = user_connections p ->
  (forall l, slot p' l = slot p l) ->
  bookkeeping_ok p'.
Proof.
  intros [Hnd Hv Hb Hi] Hc Hu Hs. split.
  - rewrite Hc. exact Hnd.
  - intros l. rewrite Hc, Hs. apply Hv.
  - intros u l. rewrite Hc, Hu, Hs. apply Hb.
  - intros l o. rewrite Hc, Hs. intros Hl Ho.
    destruct (Hi l o Hl Ho) as (u & -> & Hul). exists u.
    rewrite Hu. auto.
Qed.

Lemma remove_user_connection_ok p u now :
  bookkeeping_ok p -> bookkeeping_ok (_remove_user_connection p u now).
Proof.
  intros Hok. pose proof Hok as [Hnd Hv Hb Hi].
  unfold _remove_user_connection.
  destruct (user_connections p !! u) as [l|] eqn:E; [|exact Hok].
  destruct (Hb u l E) as [Hl Hsl].
  assert (Hconn : exists conn, heap p !! l = Some conn).
  { unfold slot in Hsl. destruct (heap p !! l) as [conn|]; [eauto|discriminate]. }
  destruct Hconn as [conn Hconn].
  pose proof (slot_alter_eq p (unbound now) l (connections p)
                (delete u (user_connections p)) conn Hconn) as Hnew.
  cbn [unbound in_use user_id] in Hnew.
  split; cbn [connections user_connections set_store].
  - exact Hnd.
  - intros l' Hl'. apply slot_is_Some_lt. cbn [heap set_store].
    rewrite length_alter. apply slot_is_Some_lt, Hv, Hl'.
  - intros u' l'. rewrite lookup_delete.
    destruct (decide (u = u')) as [|Hne]; [discriminate|].
    intros Hu'. destruct (Hb u' l' Hu') as [Hl' Hs'].
    split; [exact Hl'|].
    rewrite slot_alter_ne; [exact Hs'|].
    intros ->. rewrite Hsl in Hs'. congruence.
  - intros l' o Hl' Ho.
    destruct (decide (l = l')) as [<-|Hne].
    { rewrite Hnew in Ho. discriminate. }
    rewrite slot_alter_ne in Ho by exact Hne.
    destruct (Hi l' o Hl' Ho) as (u' & -> & Hu').
    exists u'. split; [reflexivity|].
    rewrite lookup_delete_ne; [exact Hu'|].
    intros ->. congruence.
Qed.

Lemma bind_ok p u now l :
  bookkeeping_ok p -> user_connections p !! u = None ->
  In l (connections p) -> free p l = true ->
  bookkeeping_ok (set_store p (alter (bound u now) l (heap p))
                    (connections p) (<[u:=l]> (user_connections p))).
Proof.
  intros [Hnd Hv Hb Hi] Hu Hl Hfree.
  unfold free in Hfree.
  destruct (heap p !! l) as [conn|] eqn:Hconn; [|discriminate].
  apply negb_true_iff in Hfree.
  assert (Hold : slot p l = Some (false, user_id conn)).
  { unfold slot. rewrite Hconn. simpl. rewrite Hfree. reflexivity. }
  pose proof (slot_alter_eq p (bound u now) l (connections p)
                (<[u:=l]> (user_connections p)) conn Hconn) as Hnew.
  cbn [bound in_use user_id] in Hnew.
  split; cbn [connections user_connections set_store].
  - exact Hnd.
  - intros l' Hl'. apply slot_is_Some_lt. cbn [heap set_store].
    rewrite length_alter. apply slot_is_Some_lt, Hv, Hl'.
  - intros u' l'. rewrite lookup_insert.
    destruct (decide (u = u')) as [<-|Hne].
    + intros [= <-]. auto.
    + intros Hu'. destruct (Hb u' l' Hu') as [Hl' Hs'].
      split; [exact Hl'|].
      rewrite slot_alter_ne; [exact Hs'|].
      intros ->. rewrite Hold in Hs'. discriminate.
  - intros l' o Hl' Ho.
    destruct (decide (l = l')) as [<-|Hne].
    + rewrite Hnew in Ho. injection Ho as <-.
      exists u. split; [reflexivity | apply lookup_insert_eq].
    + rewrite slot_alter_ne in Ho by exact Hne.
      destruct (Hi l' o Hl' Ho) as (u' & -> & Hu').
      exists u'. split; [reflexivity|].
      rewrite lookup_insert_ne; [exact Hu'|].
      intros ->. congruence.
Qed.

Lemma append_bound_ok p u conn :
  bookkeeping_ok p -> user_connections p !! u = None ->
  in_use conn = true -> user_id conn = Some u ->
  bookkeeping_ok (set_store p (heap p ++ [conn])
                    (connections p ++ [length (heap p)])
                    (<[u:=length (heap p)]> (user_connections p))).
Proof.
  intros [Hnd Hv Hb Hi] Hu Hin Hid.
  assert (Hlt : forall l, In l (connections p) -> (l < length (heap p))%nat).
  { intros l Hl. apply slot_is_Some_lt, Hv, Hl. }
  assert (Hfresh : ~ In (length (heap p)) (connections p)).
  { intros H. apply Hlt in H. lia. }
  split; cbn [connections user_connections set_store].
  - apply NoDup_app. split; [exact Hnd|]. split; [|apply NoDup_singleton].
    intros l Hl Hl'. apply list_elem_of_In in Hl.
    apply list_elem_of_singleton in Hl'. subst. contradiction.
  - intros l Hl. apply slot_is_Some_lt. cbn [heap set_store].
    rewrite length_app. simpl.
    apply in_app_or in Hl as [Hl|[<-|[]]]; [apply Hlt in Hl|]; lia.
  - intros u' l. rewrite lookup_insert.
    destruct (decide (u = u')) as [<-|Hne].
    + intros [= <-]. split; [apply in_or_app; right; left; reflexivity|].
      rewrite slot_append_new, Hin, Hid. reflexivity.
    + intros Hu'. destruct (Hb u' l Hu') as [Hl Hs].
      split; [apply in_or_app; left; exact Hl|].
      rewrite slot_append_old by (apply Hlt, Hl). exact Hs.
  - intros l o Hl Ho.
    apply in_app_or in Hl as [Hl|[<-|[]]].
    + rewrite slot_append_old in Ho by (apply Hlt, Hl).
      destruct (Hi l o Hl Ho) as (u' & -> & Hu').
      exists u'. split; [reflexivity|].
      rewrite lookup_insert_ne; [exact Hu'|].
      intros ->. congruence.
    + rewrite slot_append_new, Hid in Ho. injection Ho as _ <-.
      exists u. split; [reflexivity | apply lookup_insert_eq].
Qed.

Lemma append_free_ok p conn :
  bookkeeping_ok p -> in_use conn = false ->
  bookkeeping_ok (set_store p (heap p ++ [conn])
                    (connections p ++ [length (heap p)])
                    (user_connections p)).
Proof.
  intros [Hnd Hv Hb Hi] Hin.
  assert (Hlt : forall l, In l (connections p) -> (l < length (heap p))%nat).
  { intros l Hl. apply slot_is_Some_lt, Hv, Hl. }
  assert (Hfresh : ~ In (length (heap p)) (connections p)).
  { intros H. apply Hlt in H. lia. }
  split; cbn [connections user_connections set_store].
  - apply NoDup_app. split; [exact Hnd|]. split; [|apply NoDup_singleton].
    intros l Hl Hl'. apply list_elem_of_In in Hl.
    apply list_elem_of_singleton in Hl'. subst. contradiction.
  - intros l Hl. apply slot_is_Some_lt. cbn [heap set_store].
    rewrite length_app. simpl.
    apply in_app_or in Hl as [Hl|[<-|[]]]; [apply Hlt in Hl|]; lia.
  - intros u l Hu. destruct (Hb u l Hu) as [Hl Hs].
    split; [apply in_or_app; left; exact Hl|].
    rewrite slot_append_old by (apply Hlt, Hl). exact Hs.
  - intros l o Hl Ho.
    apply in_app_or in Hl as [Hl|[<-|[]]].
    + rewrite slot_append_old in Ho by (apply Hlt, Hl). eauto.
    + rewrite slot_append_new, Hin in Ho. discriminate.
Qed.

Lemma get_connection_ok p u now net :
  bookkeeping_ok p -> bookkeeping_ok (fst (get_connection p u now net)).
Proof.
  intros Hok.
  assert (Hgen : forall q, bookkeeping_ok q -> user_connections q !! u = None ->
            bookkeeping_ok
              (fst match List.find (fun l => free q l && live q l)
                                   (connections q) with
                   | Some l =>
                       (set_store q (alter (bound u now) l (heap q))
                          (connections q) (<[u:=l]> (user_connections q)),
                        Some l)
                   | None => get_connection_new q u now net
                   end)).
  { intros q Hq Hu.
    destruct (List.find _ (connections q)) as [l|] eqn:Ef.
    - apply List.find_some in Ef as [Hl Hf].
      apply andb_true_iff in Hf as [Hf _].
      apply bind_ok; assumption.
    - unfold get_connection_new.
      destruct (_ <? _)%Z; [|exact Hq].
      rewrite create_connection_spec.
      destruct (creation_succeeds net); [|exact Hq].
      apply append_bound_ok; auto. }
  unfold get_connection.
  destruct (user_connections p !! u) as [l0|] eqn:E.
  - destruct (live p l0).
    + cbn [fst]. apply (bookkeeping_frame p); auto.
      intros l. apply slot_alter. intros conn. split; reflexivity.
    + apply Hgen.
      * apply remove_user_connection_ok, Hok.
      * rewrite remove_user_connection_lookup.
        destruct (decide (u = u)); [reflexivity | contradiction].
  - apply Hgen; assumption.
Qed.

Lemma cleanup_tick_ok p t cr :
  bookkeeping_ok p -> bookkeeping_ok (cleanup_tick p t cr).
Proof.
  intros [Hnd Hv Hb Hi].
  destruct (cleanup_tick_filters p t cr) as [Hc Hu].
  assert (Hs : forall l, slot (cleanup_tick p t cr) l = slot p l)
    by (intros l; apply remove_at_slot).
  assert (Hsub : forall l, In l (connections (cleanup_tick p t cr)) ->
                           In l (connections p)).
  { intros l. rewrite Hc, List.filter_In. tauto. }
  split.
  - rewrite Hc. apply NoDup_ListNoDup, List.NoDup_filter, NoDup_ListNoDup, Hnd.
  - intros l Hl. rewrite Hs. apply Hv, Hsub, Hl.
  - intros u l. rewrite Hu, Hs. intros Hul.
    destruct (Hb u l Hul) as [Hl Hsl]. split; [|exact Hsl].
    rewrite Hc. apply List.filter_In. split; [exact Hl|].
    destruct (sweep_candidate p t l) eqn:Ec; [|reflexivity].
    apply candidate_free in Ec. unfold free, slot in *.
    destruct (heap p !! l) as [conn|]; [|discriminate].
    simpl in Hsl. injection Hsl as Hin _. rewrite Hin in Ec. discriminate.
  - intros l o Hl. rewrite Hs, Hu. intros Ho. apply (Hi l o (Hsub l Hl) Ho).
Qed.

Lemma run_event_ok p e : bookkeeping_ok p -> bookkeeping_ok (run_event p e).
Proof.
  intros Hok. destruct e as [u now net|u now|t cr|l]; simpl.
  - apply get_connection_ok, Hok.
  - apply remove_user_connection_ok, Hok.
  - apply cleanup_tick_ok, Hok.
  - apply (bookkeeping_frame p); auto.
    intros l'. apply slot_alter. intros conn. split; reflexivity.
Qed.

Lemma run_events_ok es : forall p,
  bookkeeping_ok p -> bookkeeping_ok (run_events p es).
Proof.
  induction es as [|e es IH]; intros p Hok; [exact Hok|].
  unfold run_events in *. simpl. apply IH, run_event_ok, Hok.
Qed.

Lemma create_initial_ok now nets : forall p,
  bookkeeping_ok p -> bookkeeping_ok (create_initial p now nets).
Proof.
  induction nets as [|net nets IH]; intros p Hok; [exact Hok|].
  simpl. apply IH. rewrite create_connection_spec.
  destruct (creation_succeeds net); [|exact Hok].
  apply append_free_ok; [exact Hok | reflexivity].
Qed.

Lemma new_pool_ok min_c max_c max_idle :
  bookkeeping_ok (new_pool min_c max_c max_idle).
Proof.
  split; simpl.
  - apply NoDup_nil_2.
  - intros l [].
  - intros u l. rewrite lookup_empty. discriminate.
  - intros l o [].
Qed.

Lemma initialize_ok p now nets :
  bookkeeping_ok p -> bookkeeping_ok (initialize p now nets).
Proof.
  intros Hok. unfold initialize. destruct (_initialized p); [exact Hok|].
  apply (bookkeeping_frame (create_initial p now
           (map nets (seq 0 (Z.to_nat (min_connections p)))))); auto.
  apply create_initial_ok, Hok.
Qed.

(** At most one owner per connection, and no owner without one: however
    a pool is used after it is initialised (acquires, releases, sweeps,
    transports failing, in any order), two owners are never bound to the
    same connection, and the connection an owner is bound to is in the
    list and marked in use. *)
Theorem one_owner_per_connection min_c max_c max_idle now nets es u1 u2 l :
  let p := run_events (initialize (new_pool min_c max_c max_idle) now nets) es in
  user_connections p !! u1 = Some l ->
  user_connections p !! u2 = Some l ->
  u1 = u2 /\ In l (connections p) /\ free p l = false.
Proof.
  intros p H1 H2.
  assert (Hok : bookkeeping_ok p)
    by (apply run_events_ok, initialize_ok, new_pool_ok).
  destruct (ok_bound p Hok u1 l H1) as [Hl Hs1].
  destruct (ok_bound p Hok u2 l H2) as [_ Hs2].
  split; [congruence|]. split; [exact Hl|].
  unfold slot, free in *. destruct (heap p !! l) as [conn|]; [|discriminate].
  simpl in Hs1. injection Hs1 as -> _. reflexivity.
Qed.

Lemma one_owner_per_connection_witness :
  let p := run_events (initialize (new_pool 2 3 300) 0 (fun _ => good_net))
             [Acquire "a" 1 good_net; Acquire "b" 2 good_net;
              Release "a" 3; Acquire "c" 4 good_net] in
  In 0%nat (connections p) /\ free p 0%nat = false.
Proof.
  intros p.
  exact (proj2 (one_owner_per_connection 2 3 300 0 (fun _ => good_net)
                  [Acquire "a" 1 good_net; Acquire "b" 2 good_net;
                   Release "a" 3; Acquire "c" 4 good_net]
                  "c" "c" 0%nat eq_refl eq_refl)).
Defined.

(** *** The bound on the total *)

Lemma get_connection_length p u now net :
  max_connections (fst (get_connection p u now net)) = max_connections p
  /\ (length (connections (fst (get_connection p u now net)))
      = length (connections p)
      \/ length (connections (fst (get_connection p u now net)))
         = S (length (connections p))
         /\ (Z.of_nat (length (connections p)) < max_connections p)%Z).
Proof.
  assert (Hgen : forall q,
            max_connections q = max_connections p ->
            connections q = connections p ->
            let r := match List.find (fun l => free q l && live q l)
                                     (connections q) with
                     | Some l =>
                         (set_store q (alter (bound u now) l (heap q))
                            (connections q) (<[u:=l]> (user_connections q)),
                          Some l)
                     | None => get_connection_new q u now net
                     end in
            max_connections (fst r) = max_connections p
            /\ (length (connections (fst r)) = length (connections p)
                \/ length (connections (fst r)) = S (length (connections p))
                   /\ (Z.of_nat (length (connections p))
                       < max_connections p)%Z)).
  { intros q Hm Hc r. subst r. unfold get_connection_new.
    destruct (List.find _ (connections q)).
    - cbn [fst connections set_store max_connections]. rewrite Hc. auto.
    - destruct (_ <? _)%Z eqn:Hlt.
      + destruct (_create_connection now net);
          cbn [fst connections set_store max_connections].
        * split; [exact Hm|]. right. apply Z.ltb_lt in Hlt.
          rewrite length_app, <- Hc, <- Hm. simpl. split; lia.
        * rewrite Hc. auto.
      + cbn [fst]. rewrite Hc. auto. }
  unfold get_connection.
  destruct (user_connections p !! u) as [l0|].
  - destruct (live p l0).
    + cbn [fst connections set_store max_connections]. auto.
    + apply Hgen.
      * unfold _remove_user_connection.
        destruct (user_connections p !! u); reflexivity.
      * apply remove_user_connection_connections.
  - apply Hgen; reflexivity.
Qed.

Lemma remove_at_max cr indices : forall p,
  max_connections (remove_at p cr indices) = max_connections p.
Proof.
  induction indices as [|i indices IH]; intros p; [reflexivity|].
  simpl. destruct (connections p !! i); [|reflexivity].
  rewrite IH. reflexivity.
Qed.

Lemma run_event_bound p e :
  (Z.of_nat (length (connections p)) <= max_connections p)%Z ->
  (Z.of_nat (length (connections (run_event p e)))
   <= max_connections (run_event p e))%Z.
Proof.
  intros Hb. destruct e as [u now net|u now|t cr|l]; cbn [run_event].
  - destruct (get_connection_length p u now net) as [-> [->|[-> Hlt]]]; lia.
  - unfold release_connection, _remove_user_connection.
    destruct (user_connections p !! u); exact Hb.
  - rewrite (proj1 (cleanup_tick_filters p t cr)).
    unfold cleanup_tick. rewrite remove_at_max.
    pose proof (List.filter_length_le
                  (fun l => negb (sweep_candidate p t l)) (connections p)).
    lia.
  - exact Hb.
Qed.

Lemma create_initial_length now nets : forall p,
  max_connections (create_initial p now nets) = max_connections p
  /\ (length (connections (create_initial p now nets))
      <= length (connections p) + length nets)%nat.
Proof.
  induction nets as [|net nets IH]; intros p; [simpl; lia|].
  cbn [create_initial length].
  destruct (_create_connection now net).
  - destruct (IH (set_store p (heap p ++ [p0])
                    (connections p ++ [length (heap p)])
                    (user_connections p))) as [-> Hl].
    cbn [connections set_store max_connections] in *.
    rewrite length_app in Hl. simpl in Hl. split; [reflexivity | lia].
  - destruct (IH p) as [-> Hl]. split; [reflexivity | lia].
Qed.

(** The total never exceeds the maximum: a pool constructed with
    [0 <= max] and [min <= max] holds at most [max_connections]
    connections after it is initialised and after any sequence of
    acquires, releases, sweeps and transport failures. *)
Theorem total_never_exceeds_max min_c max_c max_idle now nets es :
  (0 <= max_c)%Z -> (min_c <= max_c)%Z ->
  (Z.of_nat (total_connections
               (run_events (initialize (new_pool min_c max_c max_idle) now nets)
                           es))
   <= max_c)%Z.
Proof.
  intros H0 Hmin. unfold total_connections.
  set (p0 := initialize (new_pool min_c max_c max_idle) now nets).
  assert (Hp0 : max_connections p0 = max_c
                /\ (Z.of_nat (length (connections p0)) <= max_c)%Z).
  { unfold p0, initialize. cbn [_initialized new_pool connections
      max_connections min_connections].
    destruct (create_initial_length now
                (map nets (seq 0 (Z.to_nat min_c)))
                (new_pool min_c max_c max_idle)) as [Hm Hl].
    rewrite length_map, length_seq in Hl. cbn in Hl, Hm.
    split; [exact Hm | lia]. }
  assert (Hgen : forall es p,
            (Z.of_nat (length (connections p)) <= max_connections p)%Z ->
            (Z.of_nat (length (connections (run_events p es)))
             <= max_connections (run_events p es))%Z
            /\ max_connections (run_events p es) = max_connections p).
  { clear. induction es as [|e es IH]; intros p Hb; [auto|].
    unfold run_events in *. cbn [fold_left].
    destruct (IH (run_event p e) (run_event_bound p e Hb)) as [H1 H2].
    split; [exact H1|]. rewrite H2.
    destruct e as [u now net|u now|t cr|l]; cbn [run_event].
    - apply get_connection_length.
    - unfold release_connection, _remove_user_connection.
      destruct (user_connections p !! u); reflexivity.
    - unfold cleanup_tick. apply remove_at_max.
    - reflexivity. }
  destruct Hp0 as [Hm Hl].
  destruct (Hgen es p0) as [H1 H2]; [lia|]. lia.
Qed.

Lemma total_never_exceeds_max_witness :
  (Z.of_nat (total_connections
               (run_events (initialize (new_pool 1 2 300) 0 (fun _ => good_net))
                  [Acquire "a" 1 good_net; Acquire "b" 1 good_net;
                   Acquire "c" 1 good_net; Release "a" 2;
                   Acquire "d" 3 good_net]))
   <= 2)%Z.
Proof. apply total_never_exceeds_max; lia. Defined.

(** *** Release and reuse *)

Lemma get_connection_allocated p u now net l :
  snd (get_connection p u now net) = Some l ->
  is_Some (heap (fst (get_connection p u now net)) !! l).
Proof.
  assert (Halter : forall (h : list PooledConnection) f l0,
            is_Some (h !! l0) -> is_Some (alter f l0 h !! l0)).
  { intros h f l0 [c Hc]. rewrite list_lookup_alter_eq, Hc. eauto. }
  assert (Hgen : forall q,
            snd match List.find (fun l => free q l && live q l)
                                (connections q) with
                | Some l =>
                    (set_store q (alter (bound u now) l (heap q))
                       (connections q) (<[u:=l]> (user_connections q)),
                     Some l)
                | None => get_connection_new q u now net
                end = Some l ->
            is_Some (heap (fst match List.find (fun l => free q l && live q l)
                                               (connections q) with
                               | Some l =>
                                   (set_store q (alter (bound u now) l (heap q))
                                      (connections q)
                                      (<[u:=l]> (user_connections q)),
                                    Some l)
                               | None => get_connection_new q u now net
                               end) !! l)).
  { intros q. destruct (List.find _ (connections q)) as [l1|] eqn:Ef.
    - cbn [fst snd heap set_store]. intros [= <-].
      apply List.find_some in Ef as [_ Hf].
      apply andb_true_iff in Hf as [Hf _]. unfold free in Hf.
      apply Halter. destruct (heap q !! l1); [eauto | discriminate].
    - unfold get_connection_new.
      destruct (_ <? _)%Z; [|discriminate].
      destruct (_create_connection now net); [|discriminate].
      cbn [fst snd heap set_store]. intros [= <-].
      rewrite (list_lookup_middle (heap q) [] _ _ eq_refl). eauto. }
  unfold get_connection.
  destruct (user_connections p !! u) as [l0|].
  - destruct (live p l0) eqn:Hl.
    + cbn [fst snd heap set_store]. intros [= <-].
      apply Halter. unfold live in Hl.
      destruct (heap p !! l0); [eauto | discriminate].
    + apply Hgen.
  - apply Hgen.
Qed.

(** Releasing gives the connection back without closing it: after an
    owner that acquired a connection releases it, the owner holds
    nothing, the list is as it was, and the connection is free and as
    live as before. *)
Theorem released_connection_stays_pooled p u now net l now' :
  snd (get_connection p u now net) = Some l ->
  let p1 := fst (get_connection p u now net) in
  let p2 := release_connection p1 u now' in
  user_connections p2 !! u = None
  /\ connections p2 = connections p1
  /\ free p2 l = true
  /\ live p2 l = live p1 l.
Proof.
  intros Hsome p1 p2.
  pose proof (get_connection_binds p u now net l Hsome) as Hb.
  destruct (get_connection_allocated p u now net l Hsome) as [conn Hc].
  fold p1 in Hb, Hc. subst p2.
  unfold release_connection, _remove_user_connection. rewrite Hb.
  cbn [user_connections connections set_store].
  split; [apply lookup_delete_eq|]. split; [reflexivity|].
  unfold free, live. cbn [heap set_store].
  rewrite list_lookup_alter_eq, Hc. auto.
Qed.

Lemma released_connection_stays_pooled_witness :
  let p := initialize (new_pool 1 2 300) 0 (fun _ => good_net) in
  let p2 := release_connection (fst (get_connection p "a" 1 good_net)) "a" 2 in
  user_connections p2 !! "a" = None /\ free p2 0%nat = true.
Proof.
  intros p p2.
  destruct (released_connection_stays_pooled p "a" 1 good_net 0%nat 2 eq_refl)
    as (H1 & _ & H3 & _).
  split; [exact H1 | exact H3].
Defined.

(** A free live connection is reused: an owner without a connection is
    given one from the list whenever one is free and live; nothing is
    created, whatever the network would do. *)
Theorem free_connection_is_reused p u now net l :
  user_connections p !! u = None ->
  In l (connections p) -> free p l = true -> live p l = true ->
  exists l',
    snd (get_connection p u now net) = Some l'
    /\ In l' (connections p) /\ free p l' = true /\ live p l' = true
    /\ connections (fst (get_connection p u now net)) = connections p
    /\ length (heap (fst (get_connection p u now net))) = length (heap p).
Proof.
  intros Hu Hl Hf Hlive. unfold get_connection. rewrite Hu.
  destruct (List.find _ (connections p)) as [l'|] eqn:Ef.
  - apply List.find_some in Ef as [Hl' Hc].
    apply andb_true_iff in Hc as [Hf' Hlive'].
    exists l'. cbn [fst snd connections heap set_store].
    rewrite length_alter. auto 10.
  - pose proof (List.find_none _ _ Ef l Hl) as Hn. simpl in Hn.
    rewrite Hf, Hlive in Hn. discriminate.
Qed.

Lemma free_connection_is_reused_witness :
  let bad := {| connect_result := None; send_ok := false |} in
  let p := initialize (new_pool 1 2 300) 0 (fun _ => good_net) in
  exists l', snd (get_connection p "a" 1 bad) = Some l'.
Proof.
  intros bad p.
  destruct (free_connection_is_reused p "a" 1 bad 0%nat eq_refl
              ltac:(left; reflexivity) eq_refl eq_refl) as (l' & H & _).
  exists l'. exact H.
Defined.

(** At or below the minimum a sweep does nothing at all, however long
    the connections have been idle. *)
Theorem sweep_idle_below_min p current_time cr :
  (Z.of_nat (total_connections p) <= min_connections p)%Z ->
  cleanup_tick p current_time cr = p.
Proof. apply sweep_keeps_small_pool. Qed.

Lemma sweep_idle_below_min_witness :
  let p := initialize (new_pool 2 10 300) 0 (fun _ => good_net) in
  cleanup_tick p 100000 (fun _ => false) = p.
Proof.
  intros p. apply sweep_idle_below_min. vm_compute. discriminate.
Defined.

(** *** Initialisation and shutdown *)

Lemma create_initial_all now nets : forall p,
  Forall (fun net => creation_succeeds net = true) nets ->
  heap (create_initial p now nets) = heap p ++ map (created now) nets
  /\ connections (create_initial p now nets)
     = connections p ++ seq (length (heap p)) (length nets)
  /\ user_connections (create_initial p now nets) = user_connections p.
Proof.
  induction nets as [|net nets IH]; intros p Hall.
  - simpl. rewrite !app_nil_r. auto.
  - apply Forall_cons in Hall as [Hnet Hall].
    cbn [create_initial]. rewrite create_connection_spec, Hnet.
    destruct (IH (set_store p (heap p ++ [created now net])
                    (connections p ++ [length (heap p)])
                    (user_connections p)) Hall) as (Hh & Hc & Hu).
    unfold created in *. rewrite Hh, Hc, Hu.
    cbn [heap connections user_connections set_store map length seq].
    rewrite length_app, <- !app_assoc. simpl.
    rewrite Nat.add_1_r. auto.
Qed.

(** Initialisation fills the pool to the minimum when every creation
    succeeds: the list then holds exactly [min_connections] connections,
    all free and with no owner bound; and initialising again changes
    nothing. *)
Theorem initialize_fills_to_min min_c max_c max_idle now nets :
  (forall i, creation_succeeds (nets i) = true) ->
  let p := initialize (new_pool min_c max_c max_idle) now nets in
  total_connections p = Z.to_nat min_c
  /\ NoDup (connections p)
  /\ user_connections p = ∅
  /\ (forall l, In l (connections p) -> free p l = true)
  /\ (forall now' nets', initialize p now' nets' = p).
Proof.
  intros Hnets p. subst p. unfold initialize.
  cbn [_initialized new_pool min_connections].
  destruct (create_initial_all now (map nets (seq 0 (Z.to_nat min_c)))
              (new_pool min_c max_c max_idle)) as (Hh & Hc & Hu).
  { apply Forall_forall. intros net Hin.
    apply list_elem_of_In, in_map_iff in Hin as (i & <- & _). apply Hnets. }
  cbn [heap connections user_connections new_pool length app] in Hh, Hc, Hu.
  rewrite length_map, length_seq in Hc.
  unfold total_connections. cbn [connections user_connections heap
    _initialized].
  rewrite Hc, Hu. repeat split.
  - apply length_seq.
  - apply NoDup_ListNoDup, List.seq_NoDup.
  - intros l Hl. apply in_seq in Hl. unfold free. cbn [heap].
    rewrite Hh.
    destruct (lookup_lt_is_Some_2 (map (created now)
                (map nets (seq 0 (Z.to_nat min_c)))) l) as [conn Hconn].
    { rewrite !length_map, length_seq. lia. }
    rewrite Hconn. apply list_lookup_fmap_Some in Hconn as (net & -> & _).
    reflexivity.
Qed.

Lemma initialize_fills_to_min_witness :
  total_connections (initialize (new_pool 3 10 300) 0 (fun _ => good_net))
  = 3%nat.
Proof.
  exact (proj1 (initialize_fills_to_min 3 10 300 0 (fun _ => good_net)
                  (fun _ => eq_refl))).
Defined.

Lemma close_heap_disconnected (cr : nat -> bool) (cs : list nat) :
  forall (h : list PooledConnection) (l : nat),
  (In l cs /\ cr l = false
   \/ match h !! l with
      | Some conn => websocket (client conn) = None
      | None => True
      end) ->
  match fold_left (fun h l => alter (disconnected (cr l)) l h) cs h !! l with
  | Some conn => websocket (client conn) = None
  | None => True
  end.
Proof.
  induction cs as [|l0 cs IH]; intros h l H.
  - destruct H as [[[] _]|H]. exact H.
  - cbn [fold_left]. apply IH.
    destruct (decide (l0 = l)) as [->|Hne].
    + destruct H as [[_ Hcr]|H].
      * right. rewrite list_lookup_alter_eq.
        destruct (h !! l) as [conn|]; [|exact I]. simpl.
        unfold disconnect. rewrite Hcr.
        destruct (websocket (client conn)) eqn:E; [reflexivity | exact E].
      * right. rewrite list_lookup_alter_eq.
        destruct (h !! l) as [conn|]; [|exact I]. simpl.
        unfold disconnect. rewrite H. exact H.
    + rewrite list_lookup_alter_ne by exact Hne.
      destruct H as [[[?|Hin] Hcr]|H]; [contradiction | left; auto | right; auto].
Qed.

(** Shutdown empties the pool: after [close] the list and the owner map
    are empty and every pooled client whose close did not fail is
    disconnected.  Closing again changes nothing, and neither does
    initialising again: a closed pool is not refilled to the minimum. *)
Theorem close_empties_pool p cr :
  total_connections (close p cr) = 0%nat
  /\ user_connections (close p cr) = ∅
  /\ (forall l, In l (connections p) -> cr l = false ->
        live (close p cr) l = false)
  /\ (forall cr', close (close p cr) cr' = close p cr)
  /\ (_initialized p = true ->
      forall now nets, initialize (close p cr) now nets = close p cr).
Proof.
  repeat split.
  - intros l Hl Hcr. unfold live, close. cbn [heap].
    pose proof (close_heap_disconnected cr (connections p) (heap p) l
                  (or_introl (conj Hl Hcr))) as H.
    destruct (fold_left _ _ _ !! l) as [conn|]; [|reflexivity].
    unfold is_connected. rewrite H. reflexivity.
  - intros Hinit now nets. unfold initialize, close at 1.
    cbn [_initialized]. rewrite Hinit. reflexivity.
Qed.

Lemma close_empties_pool_witness :
  let p := fst (get_connection
                  (initialize (new_pool 2 10 300) 0 (fun _ => good_net))
                  "a" 1 good_net) in
  live (close p (fun _ => false)) 0%nat = false
  /\ initialize (close p (fun _ => false)) 5 (fun _ => good_net)
     = close p (fun _ => false).
Proof.
  intros p.
  destruct (close_empties_pool p (fun _ => false)) as (_ & _ & H3 & _ & H5).
  split.
  - apply H3; [vm_compute; auto | reflexivity].
  - apply H5. reflexivity.
Defined.

End PoolMore.

(** ** The recogniser client *)

Section ClientFacts.
Import Text Pool Session Client.

Lemma receive_message_disconnected c net :
  is_connected c = false -> receive_message c net = (c, None).
Proof.
  unfold is_connected, receive_message.
  destruct (websocket c) as [ws|]; [|reflexivity].
  destruct (closed ws) as [[|]|]; [reflexivity | discriminate | discriminate].
Qed.

Lemma receive_all_disconnected nets : forall c,
  is_connected c = false ->
  receive_all c nets = (c, map (fun _ => None) nets).
Proof.
  induction nets as [|net nets IH]; intros c Hc; [reflexivity|].
  cbn [receive_all map]. rewrite (receive_message_disconnected _ _ Hc).
  rewrite (IH c Hc). reflexivity.
Qed.

(** A closed transport is final: once a receive has met a closed
    connection or any other receive error, the client counts as
    disconnected and every later receive returns no event, without
    looking at the network again. *)
Lemma closed_transport_is_final c (failure : bool) nets :
  let c1 := fst (receive_message c
                   (if failure then OtherError else ConnectionClosed)) in
  is_connected c1 = false
  /\ receive_all c1 nets = (c1, map (fun _ => None) nets).
Proof.
  intros c1.
  assert (H : is_connected c1 = false).
  { subst c1. unfold receive_message, is_connected.
    destruct (websocket c) as [ws|] eqn:E; [|cbn; rewrite E; reflexivity].
    destruct (closed ws) as [[|]|] eqn:Ec; destruct failure; cbn;
      rewrite ?E, ?Ec; reflexivity. }
  split; [exact H | apply receive_all_disconnected, H].
Qed.

Lemma listener_disconnected st c nets :
  is_connected c = false ->
  handle_funasr_responses st c nets = (st, c, []).
Proof.
  intros Hc. destruct nets as [|net nets]; [reflexivity|].
  cbn [handle_funasr_responses]. rewrite Hc.
  destruct (negb (is_running st)); reflexivity.
Qed.

(** The listener stops at a closed transport: what the recogniser sends
    after the connection was found closed is never handled; the session
    state and the actions taken are those of the messages before. *)
Theorem listener_stops_at_closed_transport st c before after :
  let '(st1, _, out1) :=
    handle_funasr_responses st c (before ++ ConnectionClosed :: after) in
  let '(st2, _, out2) := handle_funasr_responses st c before in
  st1 = st2 /\ out1 = out2.
Proof.
  revert st c. induction before as [|net before IH]; intros st c.
  - cbn [app handle_funasr_responses].
    destruct (negb (is_running st)); [auto|].
    destruct (negb (is_connected c)) eqn:Hc; [auto|].
    destruct (closed_transport_is_final c false after) as [Hd _].
    cbn [fst] in Hd.
    destruct (receive_message c ConnectionClosed) as [c1 data] eqn:E.
    cbn [fst] in Hd.
    assert (data = None) as ->.
    { unfold receive_message in E.
      destruct (websocket c) as [ws|]; [|congruence].
      destruct (closed ws) as [[|]|]; congruence. }
    rewrite (listener_disconnected st c1 after Hd). auto.
  - cbn [app handle_funasr_responses].
    destruct (negb (is_running st)); [auto|].
    destruct (negb (is_connected c)); [auto|].
    destruct (receive_message c net) as [c1 [data|]].
    + destruct (handle_data st data) as [st1 o1].
      set (st1' := if (0 <? llm_calls o1)%nat then llm_finished st1 else st1).
      specialize (IH st1' c1).
      destruct (handle_funasr_responses st1' c1
                  (before ++ ConnectionClosed :: after)) as [[sa ca] oa].
      destruct (handle_funasr_responses st1' c1 before) as [[sb cb] ob].
      destruct IH as [-> ->]. auto.
    + apply IH.
Qed.

End ClientFacts.

(** ** Batch recognition over a failing transport *)

Section BatchMore.
Import Text Batch.

#[local] Opaque chunk_size.

Lemma split_frames_count fuel : forall data,
  (length data <= fuel)%nat ->
  length (split_frames fuel data) = ((length data + 959) / 960)%nat.
Proof.
  induction fuel as [|fuel IH]; intros data Hlen.
  - destruct data; [reflexivity | simpl in Hlen; lia].
  - destruct data as [|b data]; [reflexivity|].
    cbn [split_frames length].
    rewrite IH by (rewrite length_drop; simpl in *;
                   pose proof chunk_size_eq; lia).
    rewrite length_drop, chunk_size_eq. cbn [length].
    destruct (Nat.le_gt_cases (S (length data)) 960) as [Hs|Hb].
    + replace (S (length data) - 960)%nat with 0%nat by lia.
      change ((0 + 959) / 960)%nat with 0%nat.
      apply (Nat.div_unique _ 960 1 (S (length data) - 1)); lia.
    + replace (S (length data) + 959)%nat
        with ((S (length data) - 960 + 959) + 1 * 960)%nat by lia.
      rewrite Nat.div_add by lia. lia.
Qed.

#[local] Transparent chunk_size.

Lemma filter_audio_frames cfg1 cfg2 (fs : list bytes) :
  List.filter is_audio ([TextFrame cfg1] ++ map BinaryFrame fs ++ [TextFrame cfg2])
  = map BinaryFrame fs.
Proof.
  cbn [app List.filter is_audio]. rewrite List.filter_app.
  cbn [List.filter is_audio]. rewrite app_nil_r.
  induction fs as [|f fs IH]; [reflexivity|].
  cbn [map List.filter is_audio]. rewrite IH. reflexivity.
Qed.

(** The number of audio frames is the buffer length over 960, rounded
    up.  When the connection opens and no send fails, a batch
    recognition that returns has sent, between its two configuration
    frames, one audio frame per 960 bytes of the buffer and one more
    for a remainder: none for an empty buffer. *)
Theorem frames_count pcm_data sample_rate net ws text frames_sent :
  connect_result net = Some ws -> sends_before_failure net = None ->
  recognize_audio pcm_data sample_rate net = Returned text frames_sent ->
  length (List.filter is_audio frames_sent)
  = ((length pcm_data + 959) / 960)%nat
  /\ length frames_sent = ((length pcm_data + 959) / 960 + 2)%nat.
Proof.
  intros Ec Es. unfold recognize_audio.
  unfold mbind, M_bind, connect, send_config, websocket_send.
  rewrite Ec, Es. cbn [client sends_left sent Pool.websocket].
  rewrite send_chunks_sent by (cbn [client Pool.websocket]; eauto).
  cbn [client sends_left sent Pool.websocket drop].
  change (split_frames (length pcm_data) pcm_data) with (frames pcm_data).
  destruct (handle_recognition_results _ _ _); [|discriminate].
  unfold finish, disconnect. cbn [client Pool.websocket].
  destruct (close_raises net); [discriminate|]. cbn [sent].
  intros [= _ <-].
  change (drop 0 pcm_data) with pcm_data.
  pose proof (filter_audio_frames (offline_config sample_rate) end_config
                (split_frames (length pcm_data) pcm_data)) as Hf.
  cbn [app] in Hf. rewrite Hf.
  cbn [length]. rewrite !length_app, !length_map. cbn [length].
  rewrite (split_frames_count _ pcm_data (Nat.le_refl _)). lia.
Qed.

Lemma frames_count_witness :
  let net := {| connect_result := Some {| Pool.closed := None |};
                sends_before_failure := None;
                incoming := [];
                close_raises := false; orphan_blocks := false |} in
  exists text frames_sent,
    recognize_audio (repeat Byte.x00 2000) 16000 net
    = Returned text frames_sent
    /\ length (List.filter is_audio frames_sent) = 3%nat.
Proof.
  intros net. eexists. eexists. split; [reflexivity|].
  exact (proj1 (frames_count (repeat Byte.x00 2000) 16000 net _ _ _
                  eq_refl eq_refl eq_refl)).
Defined.

Lemma send_chunks_budget fuel : forall pcm_data pos w k,
  is_Some (Pool.websocket (client w)) -> sends_left w = Some k ->
  send_chunks fuel pcm_data pos w
  = if (length (split_frames fuel (drop pos pcm_data)) <=? k)%nat
    then (Some tt,
          {| client := client w;
             sent := sent w ++ map BinaryFrame
                                   (split_frames fuel (drop pos pcm_data));
             sends_left :=
               Some (k - length (split_frames fuel (drop pos pcm_data)))%nat |})
    else (None,
          {| client := client w;
             sent := sent w ++ take k (map BinaryFrame
                                         (split_frames fuel (drop pos pcm_data)));
             sends_left := Some 0%nat |}).
Proof.
  induction fuel as [|fuel IH]; intros pcm_data pos w k Hopen Hleft.
  - simpl. rewrite app_nil_r, Nat.sub_0_r.
    destruct w. simpl in *. subst. reflexivity.
  - cbn [send_chunks split_frames].
    destruct (pos <? length pcm_data)%nat eqn:Hpos.
    + apply Nat.ltb_lt in Hpos.
      destruct (drop pos pcm_data) as [|b rest] eqn:Ed.
      { apply (f_equal (@length _)) in Ed. rewrite length_drop in Ed.
        simpl in Ed. lia. }
      assert ((length (take chunk_size (b :: rest)) =? 0)%nat = false) as ->.
      { apply Nat.eqb_neq. rewrite length_take. simpl. unfold chunk_size. lia. }
      unfold mbind, M_bind, send_audio_data, websocket_send.
      destruct Hopen as [ws Hws]. rewrite Hws, Hleft.
      destruct k as [|k].
      * cbn [length Nat.leb take map]. rewrite app_nil_r.
        destruct w. simpl in *. subst. reflexivity.
      * rewrite (IH _ _ _ k); [| cbn [client]; rewrite Hws; eauto | reflexivity].
        cbn [sent client].
        rewrite <- Ed, drop_drop. cbn [length map take Nat.leb Nat.sub].
        rewrite <- !app_assoc.
        destruct (_ <=? k)%nat; reflexivity.
    + apply Nat.ltb_ge in Hpos.
      rewrite drop_ge by exact Hpos.
      simpl. rewrite app_nil_r, Nat.sub_0_r.
      destruct w. simpl in *. subst. reflexivity.
Qed.

(** A failed batch recognition never returns text, and sends nothing
    after the failure.  When the connection does not open it sends
    nothing and returns the empty string.  When a send fails after [k]
    frames, those [k] frames (of the configuration, the audio frames
    and the end configuration, in order) are all that was sent, and the
    call returns the empty string, unless the close of its final
    disconnect raises, in which case the call raises, or, for a failure
    after the first frame, the result task, which nothing cancels on
    that path, blocks the event loop first, in which case the call
    never returns. *)
Theorem batch_failure_returns_empty pcm_data sample_rate net :
  (connect_result net = None ->
   recognize_audio pcm_data sample_rate net = Returned [] [])
  /\ (forall ws k,
        connect_result net = Some ws -> sends_before_failure net = Some k ->
        (k < length (frames pcm_data) + 2)%nat ->
        recognize_audio pcm_data sample_rate net
        = let frames_sent :=
            take k ([TextFrame (offline_config sample_rate)]
                    ++ map BinaryFrame (frames pcm_data)
                    ++ [TextFrame end_config]) in
          if (0 <? k)%nat && orphan_blocks net then NeverReturns
          else if close_raises net then Raised frames_sent
          else Returned [] frames_sent).
Proof.
  split; [apply recognize_audio_connect_fails|].
  intros ws k Hconn Hk Hlt. unfold recognize_audio.
  unfold mbind, M_bind, connect, send_config, websocket_send.
  rewrite Hconn, Hk. cbn [client sends_left sent Pool.websocket].
  destruct k as [|k].
  { cbn [Nat.ltb Nat.leb andb take]. unfold finish, disconnect.
    cbn [client Pool.websocket sent].
    destruct (close_raises net); reflexivity. }
  cbn [Nat.ltb Nat.leb andb].
  rewrite (send_chunks_budget _ _ _ _ k)
    by (cbn [client Pool.websocket sends_left]; eauto).
  change (drop 0 pcm_data) with pcm_data.
  change (split_frames (length pcm_data) pcm_data) with (frames pcm_data).
  cbn [sent app client].
  assert (Hfin : forall w fs,
            Pool.websocket (client w) = Some ws -> sent w = fs ->
            finish net [] w
            = if close_raises net then Raised fs else Returned [] fs).
  { intros w fs Hw <-. unfold finish, disconnect. rewrite Hw.
    destruct (close_raises net); reflexivity. }
  destruct (_ <=? k)%nat eqn:Hle.
  - apply Nat.leb_le in Hle.
    assert (k - length (frames pcm_data) = 0)%nat as -> by lia.
    cbn [client Pool.websocket sends_left sent].
    destruct (orphan_blocks net); [reflexivity|].
    apply Hfin; [reflexivity|]. cbn [sent take]. f_equal.
    rewrite take_app_le by (rewrite length_map; lia).
    rewrite take_ge by (rewrite length_map; lia). reflexivity.
  - apply Nat.leb_gt in Hle.
    destruct (orphan_blocks net); [reflexivity|].
    apply Hfin; [reflexivity|]. cbn [sent take]. f_equal.
    rewrite take_app_le by (rewrite length_map; lia). reflexivity.
Qed.

Lemma batch_failure_returns_empty_witness :
  let net := {| connect_result := Some {| Pool.closed := Some false |};
                sends_before_failure := Some 2%nat;
                incoming :=
                  [Client.TextMessage
                     (Some {| Session.text := Some (py "lost");
                              Session.mode := Some (py "offline");
                              Session.is_final := true |})];
                close_raises := false; orphan_blocks := false |} in
  recognize_audio (repeat Byte.x00 2000) 16000 net
  = Returned [] [TextFrame (offline_config 16000);
                 BinaryFrame (repeat Byte.x00 960)].
Proof.
  intros net.
  rewrite (proj2 (batch_failure_returns_empty (repeat Byte.x00 2000) 16000 net)
             _ 2%nat eq_refl eq_refl); [reflexivity|].
  vm_compute. lia.
Defined.

End BatchMore.

(** ** Sample formats *)

Section AudioMore.
Import Audio.

(** *** Bytes and samples *)

Lemma byte_to_of_Z x : (0 <= x < 256)%Z -> byte_to_Z (byte_of_Z x) = x.
Proof.
  intros Hx. unfold byte_to_Z, byte_of_Z.
  pose proof (Byte.to_of_N_option_map (Z.to_N x)) as H.
  destruct (Byte.of_N (Z.to_N x)) as [b|]; simpl in H.
  - destruct (Z.to_N x <=? 255)%N; [|discriminate].
    injection H as ->. lia.
  - destruct (Z.to_N x <=? 255)%N eqn:E; [discriminate|].
    apply N.leb_gt in E. lia.
Qed.

Lemma byte_of_to_Z b : byte_of_Z (byte_to_Z b) = b.
Proof.
  unfold byte_to_Z, byte_of_Z. rewrite N2Z.id, Byte.of_to_N. reflexivity.
Qed.

Lemma int16_of_pack z :
  int16 z ->
  int16_of (byte_of_Z ((z mod 65536) mod 256)) (byte_of_Z ((z mod 65536) / 256))
  = z.
Proof.
  unfold int16, int16_of. intros Hz.
  rewrite !byte_to_of_Z.
  - destruct (_ <? _)%Z eqn:E; [apply Z.ltb_lt in E | apply Z.ltb_ge in E];
      Z.div_mod_to_equations; lia.
  - Z.div_mod_to_equations. lia.
  - Z.div_mod_to_equations. lia.
Qed.

Lemma pack_int16_of lo hi :
  byte_of_Z ((int16_of lo hi mod 65536) mod 256) = lo
  /\ byte_of_Z ((int16_of lo hi mod 65536) / 256) = hi.
Proof.
  pose proof (byte_to_Z_range lo) as Hlo.
  pose proof (byte_to_Z_range hi) as Hhi.
  assert (Hu : (int16_of lo hi mod 65536 = byte_to_Z lo + 256 * byte_to_Z hi)%Z).
  { unfold int16_of.
    destruct (_ <? _)%Z; Z.div_mod_to_equations; lia. }
  rewrite Hu. split.
  - rewrite <- (byte_of_to_Z lo) at 2. f_equal.
    Z.div_mod_to_equations. lia.
  - rewrite <- (byte_of_to_Z hi) at 2. f_equal.
    Z.div_mod_to_equations. lia.
Qed.

Lemma unpack_h_cons b z l :
  unpack_h b = Some (z :: l) ->
  exists lo hi rest,
    b = lo :: hi :: rest /\ z = int16_of lo hi /\ unpack_h rest = Some l.
Proof.
  destruct b as [|lo [|hi rest]]; cbn [unpack_h]; try discriminate.
  destruct (unpack_h rest) as [l'|] eqn:E; simpl; [|discriminate].
  intros [= <- <-]. exists lo, hi, rest. auto.
Qed.

Lemma pack_unpack l : forall b, unpack_h b = Some l -> pack_h l = Some b.
Proof.
  induction l as [|z l IH]; intros b H.
  - destruct b as [|lo [|hi rest]]; try discriminate; [reflexivity|].
    cbn [unpack_h] in H. destruct (unpack_h rest); discriminate.
  - apply unpack_h_cons in H as (lo & hi & rest & -> & -> & Hrest).
    cbn [pack_h]. pose proof (int16_of_range lo hi) as Hr. unfold int16 in Hr.
    assert (((-32768 <=? int16_of lo hi) && (int16_of lo hi <=? 32767))%Z
            = true) as ->.
    { apply andb_true_iff. split; apply Z.leb_le; lia. }
    rewrite (IH _ Hrest). destruct (pack_int16_of lo hi) as [-> ->].
    reflexivity.
Qed.

Lemma unpack_pack l :
  Forall int16 l -> exists b, pack_h l = Some b /\ unpack_h b = Some l.
Proof.
  induction 1 as [|z l Hz _ (b & Hb & Hu)].
  - exists []. auto.
  - cbn [pack_h]. pose proof Hz as Hz'. unfold int16 in Hz'.
    assert (((-32768 <=? z) && (z <=? 32767))%Z = true) as ->.
    { apply andb_true_iff. split; apply Z.leb_le; lia. }
    rewrite Hb. eexists. split; [reflexivity|].
    cbn [fmap option_fmap option_map app unpack_h]. rewrite Hu.
    simpl. rewrite (int16_of_pack z Hz). reflexivity.
Qed.

(** Packing and unpacking 16-bit samples are inverse to each other: a
    buffer of whole samples unpacks to samples that pack to the same
    bytes, and samples in the 16-bit range pack to a buffer that
    unpacks to the same samples. *)
Theorem sample_bytes_round_trip :
  (forall b l, unpack_h b = Some l -> pack_h l = Some b)
  /\ (forall l, Forall int16 l ->
        exists b, pack_h l = Some b /\ unpack_h b = Some l
                  /\ length b = (2 * length l)%nat).
Proof.
  split.
  - intros b l. apply pack_unpack.
  - intros l Hl. destruct (unpack_pack l Hl) as (b & Hb & Hu).
    exists b. repeat split; try assumption.
    destruct (pack_h_length l Hl) as (b' & Hb' & Hlen). congruence.
Qed.

(** *** Downmixing *)

Lemma clamp_int16 s : int16 (clamp s).
Proof. unfold int16, clamp. lia. Qed.

Lemma clamp_id s : int16 s -> clamp s = s.
Proof. unfold int16, clamp. lia. Qed.

Lemma downmix_nil fuel c : downmix fuel c [] = [].
Proof. destruct fuel; reflexivity. Qed.

Lemma downmix_frames n : forall fuel c samples,
  (0 < c)%nat -> length samples = (c * n)%nat -> (n <= fuel)%nat ->
  length (downmix fuel c samples) = n.
Proof.
  induction n as [|n IH]; intros fuel c samples Hc Hlen Hfuel.
  - rewrite Nat.mul_0_r in Hlen. apply length_zero_iff_nil in Hlen as ->.
    rewrite downmix_nil. reflexivity.
  - destruct fuel as [|fuel]; [lia|].
    destruct samples as [|s samples]; [simpl in Hlen; lia|].
    cbn [downmix length]. f_equal. apply IH; [exact Hc | | lia].
    rewrite length_drop, Hlen. lia.
Qed.

Lemma sum_repeat s c : sum (repeat s c) = (s * Z.of_nat c)%Z.
Proof.
  unfold sum. induction c as [|c IH]; [simpl; lia|].
  cbn [repeat fold_right]. rewrite IH. lia.
Qed.

Lemma downmix_interleave_same c mono : forall fuel,
  (0 < c)%nat -> (length mono <= fuel)%nat ->
  downmix fuel c (interleave_same c mono) = mono.
Proof.
  induction mono as [|s mono IH]; intros fuel Hc Hfuel.
  - apply downmix_nil.
  - destruct fuel as [|fuel]; [simpl in Hfuel; lia|].
    change (interleave_same c (s :: mono))
      with (repeat s c ++ interleave_same c mono).
    destruct (repeat s c ++ interleave_same c mono) as [|x xs] eqn:E.
    { destruct c; [lia | discriminate]. }
    cbn [downmix]. rewrite <- E.
    rewrite take_app_length' by (symmetry; apply repeat_length).
    rewrite drop_app_length' by (symmetry; apply repeat_length).
    rewrite sum_repeat, Z.div_mul by lia.
    rewrite IH; [reflexivity | exact Hc | simpl in Hfuel; lia].
Qed.

Lemma length_interleave_same c mono :
  length (interleave_same c mono) = (c * length mono)%nat.
Proof.
  unfold interleave_same. induction mono as [|s mono IH]; [simpl; lia|].
  cbn [flat_map]. rewrite length_app, repeat_length, IH. simpl. lia.
Qed.

Lemma unpack_i_quads n : forall audio_data,
  length audio_data = (4 * n)%nat ->
  exists samples, unpack_i audio_data = Some samples /\ length samples = n.
Proof.
  induction n as [|n IH]; intros audio_data Hlen.
  - destruct audio_data; [|discriminate]. exists []. auto.
  - destruct audio_data as [|b0 [|b1 [|b2 [|b3 rest]]]];
      try (simpl in Hlen; lia).
    destruct (IH rest) as (samples & Hs & Hl); [simpl in Hlen; lia|].
    exists (int32_of b0 b1 b2 b3 :: samples).
    cbn [unpack_i]. rewrite Hs. simpl. split; [reflexivity | f_equal; exact Hl].
Qed.

Lemma pack_h_Some l b : pack_h l = Some b -> Forall int16 l.
Proof.
  revert b. induction l as [|z l IH]; intros b H; [constructor|].
  cbn [pack_h] in H.
  destruct ((-32768 <=? z) && (z <=? 32767))%Z eqn:E; [|discriminate].
  apply andb_true_iff in E as [E1 E2].
  apply Z.leb_le in E1. apply Z.leb_le in E2.
  destruct (pack_h l) as [b'|] eqn:Hl; [|discriminate].
  constructor; [unfold int16; lia | exact (IH _ eq_refl)].
Qed.

Lemma Forall_int16_interleave c mono :
  (0 < c)%nat -> Forall int16 (interleave_same c mono) -> Forall int16 mono.
Proof.
  intros Hc. unfold interleave_same.
  induction mono as [|s mono IH]; intros H; [constructor|].
  cbn [flat_map] in H. apply Forall_app in H as [H1 H2].
  constructor; [|exact (IH H2)].
  destruct c; [lia|]. cbn [repeat] in H1. inversion H1; assumption.
Qed.

Lemma map_clamp_id l : Forall int16 l -> map clamp l = l.
Proof.
  induction 1 as [|z l Hz _ IH]; [reflexivity|].
  cbn [map]. rewrite (clamp_id z Hz), IH. reflexivity.
Qed.

Lemma convert_frames audio_data channels sample_width n :
  (sample_width = 1 \/ sample_width = 2 \/ sample_width = 4)%Z ->
  (1 <= channels)%Z ->
  Z.of_nat (length audio_data) = (sample_width * channels * Z.of_nat n)%Z ->
  exists out,
    convert_to_mono_16bit audio_data channels sample_width = Some out
    /\ length out = (2 * n)%nat.
Proof.
  intros Hw Hc Hlen. unfold convert_to_mono_16bit.
  destruct ((sample_width =? 2) && (channels =? 1))%Z eqn:Hfast.
  { apply andb_true_iff in Hfast as [E1 E2].
    apply Z.eqb_eq in E1. apply Z.eqb_eq in E2. subst.
    exists audio_data. split; [reflexivity | lia]. }
  set (c := Z.to_nat channels).
  assert (Hc' : (0 < c)%nat) by (unfold c; lia).
  assert (Hsamples : exists samples,
            (if (sample_width =? 1)%Z then
               Some (map (fun s => ((s - 128) * 256)%Z) (unpack_B audio_data))
             else if (sample_width =? 2)%Z then unpack_h audio_data
             else if (sample_width =? 4)%Z then
               map (fun s => (s / 65536)%Z) <$> unpack_i audio_data
             else None) = Some samples
            /\ length samples = (c * n)%nat).
  { destruct Hw as [-> | [-> | ->]]; cbn [Z.eqb Pos.eqb].
    - eexists. split; [reflexivity|].
      unfold unpack_B. rewrite !length_map. unfold c. lia.
    - destruct (unpack_h_pairs (c * n) audio_data) as (samples & Hs & Hl & _);
        [unfold c; lia|].
      exists samples. auto.
    - destruct (unpack_i_quads (c * n) audio_data) as (samples & Hs & Hl);
        [unfold c; lia|].
      rewrite Hs. eexists. split; [reflexivity|].
      rewrite length_map. exact Hl. }
  destruct Hsamples as (samples & -> & Hl). cbn [mbind option_bind].
  set (mono := if (1 <? channels)%Z then _ else _).
  assert (Hmono : length mono = n).
  { unfold mono. destruct (1 <? channels)%Z eqn:E.
    - apply downmix_frames; [exact Hc' | exact Hl | rewrite Hl; nia].
    - apply Z.ltb_ge in E. assert (c = 1%nat) as Hc1 by (unfold c; lia).
      rewrite Hl, Hc1. lia. }
  destruct (pack_h_length (map clamp mono)) as (out & Ho & Hlo).
  { apply Forall_map, Forall_forall. intros s _. apply clamp_int16. }
  exists out. split; [exact Ho|].
  rewrite Hlo, length_map, Hmono. reflexivity.
Qed.

(** The mono converter yields one 16-bit sample per input frame: for a
    supported sample width and a buffer of [n] whole frames it returns
    [2 * n] bytes, whatever the sample values. *)
Theorem convert_one_sample_per_frame audio_data channels sample_width n :
  (sample_width = 1 \/ sample_width = 2 \/ sample_width = 4)%Z ->
  (1 <= channels)%Z ->
  Z.of_nat (length audio_data) = (sample_width * channels * Z.of_nat n)%Z ->
  exists out,
    convert_to_mono_16bit audio_data channels sample_width = Some out
    /\ length out = (2 * n)%nat.
Proof. exact (convert_frames audio_data channels sample_width n). Qed.

Lemma convert_one_sample_per_frame_witness :
  exists out,
    convert_to_mono_16bit
      [Byte.x80; Byte.x80; Byte.xff; Byte.x00; Byte.x00; Byte.x02] 2 1
    = Some out
    /\ length out = 6%nat.
Proof.
  apply (convert_one_sample_per_frame _ 2 1 3); [left; reflexivity | lia |].
  reflexivity.
Defined.

(** Downmixing keeps a sound that is the same on every channel: 16-bit
    frames whose channels all carry the same sample convert to exactly
    that sample sequence. *)
Theorem identical_channels_downmix_to_channel c mono audio_data :
  (1 < c)%nat ->
  pack_h (interleave_same c mono) = Some audio_data ->
  convert_to_mono_16bit audio_data (Z.of_nat c) 2 = pack_h mono.
Proof.
  intros Hc Hpack. unfold convert_to_mono_16bit.
  assert ((Z.of_nat c =? 1)%Z = false) as -> by (apply Z.eqb_neq; lia).
  cbn [Z.eqb Pos.eqb andb].
  pose proof (pack_h_Some _ _ Hpack) as Hall.
  destruct (unpack_pack _ Hall) as (b & Hb & Hu).
  assert (b = audio_data) as -> by congruence.
  rewrite Hu. cbn [mbind option_bind].
  assert ((1 <? Z.of_nat c)%Z = true) as -> by (apply Z.ltb_lt; lia).
  rewrite Nat2Z.id.
  rewrite downmix_interleave_same;
    [| lia | rewrite length_interleave_same; nia].
  rewrite map_clamp_id; [reflexivity|].
  apply (Forall_int16_interleave c); [lia | exact Hall].
Qed.

Lemma identical_channels_downmix_to_channel_witness :
  convert_to_mono_16bit
    [Byte.x01; Byte.x00; Byte.x01; Byte.x00; Byte.xfe; Byte.xff;
     Byte.xfe; Byte.xff] 2 2
  = Some [Byte.x01; Byte.x00; Byte.xfe; Byte.xff].
Proof.
  exact (identical_channels_downmix_to_channel 2 [1; -2]%Z _
           ltac:(lia) eq_refl).
Defined.

(** *** WAV files *)

(** A WAV file of [n] whole frames at 8000 Hz, of any supported sample
    width and channel count, is processed to [2 * n] mono 16-bit
    samples at 16000 Hz. *)
Theorem wav_8000_doubles_frames wav_file n :
  (getsampwidth wav_file = 1 \/ getsampwidth wav_file = 2
   \/ getsampwidth wav_file = 4)%Z ->
  (1 <= getnchannels wav_file)%Z ->
  getframerate wav_file = 8000%Z ->
  Z.of_nat (length (readframes wav_file))
  = (getsampwidth wav_file * getnchannels wav_file * Z.of_nat n)%Z ->
  exists pcm_data,
    process_wav_audio wav_file = Some (pcm_data, 16000%Z)
    /\ sample_count pcm_data = (2 * n)%nat.
Proof.
  intros Hw Hc Hrate Hlen. unfold process_wav_audio.
  destruct (convert_frames _ _ _ n Hw Hc Hlen)
    as (pcm & -> & Hl).
  cbn [mbind option_bind]. rewrite Hrate. cbn [Z.eqb Pos.eqb negb].
  destruct (resample_audio_count pcm 8000 16000) as (out & -> & Hlo);
    [rewrite Hl; apply Nat.even_spec; exists n; reflexivity | lia | lia | lia |].
  cbn [mbind option_bind]. exists out. split; [reflexivity|].
  unfold sample_count at 1. rewrite Hlo.
  rewrite Nat.mul_comm, Nat.div_mul by lia.
  assert (Hcount : sample_count pcm = n).
  { unfold sample_count. rewrite Hl, Nat.mul_comm. apply Nat.div_mul. lia. }
  rewrite Hcount.
  unfold int_of, Qdiv, Qmult, Qinv, inject_Z. simpl.
  rewrite Z.mul_1_r.
  replace (Z.of_nat n * 16000)%Z with (2 * Z.of_nat n * 8000)%Z by lia.
  rewrite Z.quot_mul by lia. lia.
Qed.

Lemma wav_8000_doubles_frames_witness :
  exists pcm_data,
    process_wav_audio
      (mkWav 2 1 8000 [Byte.x80; Byte.x80; Byte.xff; Byte.x00]) 
    = Some (pcm_data, 16000%Z)
    /\ sample_count pcm_data = 4%nat.
Proof.
  apply (wav_8000_doubles_frames
           (mkWav 2 1 8000 [Byte.x80; Byte.x80; Byte.xff; Byte.x00]) 2);
    [left; reflexivity | simpl; lia | reflexivity | reflexivity].
Defined.

(** *** Upsampling by two *)

Lemma int_of_comp x y : (x == y)%Q -> int_of x = int_of y.
Proof.
  destruct x as [n d], y as [m e]. unfold Qeq, int_of. simpl. intros H.
  rewrite <- (Z.quot_mul_cancel_r n (Z.pos d) (Z.pos e)) by lia.
  rewrite <- (Z.quot_mul_cancel_r m (Z.pos e) (Z.pos d)) by lia.
  rewrite H. f_equal. lia.
Qed.

Lemma int_of_inject x z : (x == inject_Z z)%Q -> int_of x = z.
Proof.
  intros H. rewrite (int_of_comp _ _ H). unfold int_of, inject_Z. simpl.
  apply Z.quot_1_r.
Qed.

Lemma index_nat samples k : index samples (Z.of_nat k) = samples !! k.
Proof.
  unfold index.
  assert ((Z.of_nat k <? 0)%Z = false) as -> by (apply Z.ltb_ge; lia).
  rewrite Nat2Z.id. reflexivity.
Qed.

Lemma index_last samples k a :
  samples !! k = Some a -> (Z.of_nat (length samples) - 1 <= Z.of_nat k)%Z ->
  index samples (-1) = Some a.
Proof.
  intros Hk Hle. pose proof (lookup_lt_Some _ _ _ Hk) as Hlt.
  unfold index. simpl (-1 <? 0)%Z. cbv iota.
  assert ((0 <=? Z.of_nat (length samples) + -1)%Z = true) as ->
    by (apply Z.leb_le; lia).
  replace (Z.to_nat (Z.of_nat (length samples) + -1)) with k by lia.
  exact Hk.
Qed.

Lemma resample_at_even samples k a :
  samples !! k = Some a ->
  resample_at samples (inject_Z 16000 / inject_Z 8000) (Z.of_nat (2 * k))
  = Some a.
Proof.
  intros Hk. pose proof (lookup_lt_Some _ _ _ Hk) as Hlt.
  unfold resample_at.
  change (Qeq_bool (inject_Z 16000 / inject_Z 8000) 0) with false. cbv iota.
  set (src_pos := (inject_Z (Z.of_nat (2 * k))
                   / (inject_Z 16000 / inject_Z 8000))%Q).
  assert (Hpos : (src_pos == inject_Z (Z.of_nat k))%Q).
  { unfold src_pos. rewrite Nat2Z.inj_mul, inject_Z_mult.
    assert (E : (inject_Z 16000 / inject_Z 8000 == 2)%Q) by reflexivity.
    rewrite E. change (inject_Z (Z.of_nat 2)) with 2%Q. field. }
  rewrite (int_of_inject _ _ Hpos).
  destruct (_ <=? _)%Z eqn:Hcmp.
  - apply Z.leb_le in Hcmp. exact (index_last _ _ _ Hk Hcmp).
  - apply Z.leb_gt in Hcmp.
    rewrite index_nat, Hk. cbn [mbind option_bind].
    replace (Z.of_nat k + 1)%Z with (Z.of_nat (k + 1)) by lia.
    rewrite index_nat.
    destruct (lookup_lt_is_Some_2 samples (k + 1)) as [b Hb]; [lia|].
    rewrite Hb. cbn [mbind option_bind]. f_equal.
    apply int_of_inject. rewrite Hpos. ring.
Qed.

Lemma resample_at_odd samples k a :
  samples !! k = Some a ->
  resample_at samples (inject_Z 16000 / inject_Z 8000) (Z.of_nat (2 * k + 1))
  = Some (match samples !! (k + 1)%nat with
          | Some b => Z.quot (a + b) 2
          | None => a
          end).
Proof.
  intros Hk. pose proof (lookup_lt_Some _ _ _ Hk) as Hlt.
  unfold resample_at.
  change (Qeq_bool (inject_Z 16000 / inject_Z 8000) 0) with false. cbv iota.
  set (src_pos := (inject_Z (Z.of_nat (2 * k + 1))
                   / (inject_Z 16000 / inject_Z 8000))%Q).
  assert (Hpos : (src_pos == inject_Z (Z.of_nat k) + (1 # 2))%Q).
  { unfold src_pos. rewrite Nat2Z.inj_add, Nat2Z.inj_mul.
    rewrite inject_Z_plus, inject_Z_mult.
    assert (E : (inject_Z 16000 / inject_Z 8000 == 2)%Q) by reflexivity.
    rewrite E. change (inject_Z (Z.of_nat 2)) with 2%Q.
    change (inject_Z (Z.of_nat 1)) with 1%Q. field. }
  assert (Hint : int_of src_pos = Z.of_nat k).
  { rewrite (int_of_comp _ _ Hpos).
    assert (Hnn : (0 <= inject_Z (Z.of_nat k) + (1 # 2))%Q).
    { assert (0 <= inject_Z (Z.of_nat k))%Q
        by (change 0%Q with (inject_Z 0); rewrite <- Zle_Qle; lia).
      lra. }
    rewrite (int_of_floor _ Hnn).
    pose proof (Qfloor_le (inject_Z (Z.of_nat k) + (1 # 2))) as Hfl.
    pose proof (Qlt_floor (inject_Z (Z.of_nat k) + (1 # 2))) as Hfu.
    set (f := Qfloor _) in *.
    assert (H1 : (f < Z.of_nat k + 1)%Z).
    { rewrite Zlt_Qlt, inject_Z_plus. change (inject_Z 1) with 1%Q. lra. }
    assert (H2 : (Z.of_nat k < f + 1)%Z).
    { rewrite Zlt_Qlt. lra. }
    lia. }
  rewrite Hint.
  destruct (_ <=? _)%Z eqn:Hcmp.
  - apply Z.leb_le in Hcmp.
    rewrite (lookup_ge_None_2 samples (k + 1)) by lia.
    exact (index_last _ _ _ Hk Hcmp).
  - apply Z.leb_gt in Hcmp.
    rewrite index_nat, Hk. cbn [mbind option_bind].
    replace (Z.of_nat k + 1)%Z with (Z.of_nat (k + 1)) by lia.
    rewrite index_nat.
    destruct (lookup_lt_is_Some_2 samples (k + 1)) as [b Hb]; [lia|].
    rewrite Hb. cbn [mbind option_bind]. f_equal.
    transitivity (int_of (inject_Z (a + b) / 2)).
    + apply int_of_comp. rewrite Hpos, inject_Z_plus. field.
    + unfold int_of, Qdiv, Qmult, Qinv, inject_Z. simpl.
      rewrite Z.mul_1_r. reflexivity.
Qed.

(** Upsampling from 8000 Hz to 16000 Hz interleaves the input with
    midpoints: output sample [2k] is input sample [k], and output
    sample [2k+1] is the mean of input samples [k] and [k+1] truncated
    toward zero, or input sample [k] again when it is the last. *)
Theorem upsample_interleaves_midpoints pcm_data samples :
  unpack_h pcm_data = Some samples ->
  exists out resampled,
    resample_audio pcm_data 8000 16000 = Some out
    /\ unpack_h out = Some resampled
    /\ forall k a, samples !! k = Some a ->
         resampled !! (2 * k)%nat = Some a
         /\ resampled !! (2 * k + 1)%nat
            = Some (match samples !! (k + 1)%nat with
                    | Some b => Z.quot (a + b) 2
                    | None => a
                    end).
Proof.
  intros Hs.
  pose proof (pack_h_Some _ _ (pack_unpack _ _ Hs)) as Hall.
  unfold resample_audio. cbn [Z.eqb Pos.eqb]. rewrite Hs.
  cbn [mbind option_bind].
  set (ratio := (inject_Z 16000 / inject_Z 8000)%Q).
  assert (Hnew : int_of (inject_Z (Z.of_nat (length samples)) * ratio)
                 = Z.of_nat (2 * length samples)).
  { apply int_of_inject. rewrite Nat2Z.inj_mul, inject_Z_mult.
    assert (E : (ratio == 2)%Q) by reflexivity.
    rewrite E. change (inject_Z (Z.of_nat 2)) with 2%Q. ring. }
  rewrite Hnew, Nat2Z.id.
  destruct (mapM_int16 (resample_at samples ratio)
              (map Z.of_nat (seq 0 (2 * length samples))))
    as (zs & Hzs & Hlz & Hallz).
  { intros i Hi. apply in_map_iff in Hi as (j & <- & Hj).
    apply in_seq in Hj.
    apply resample_at_int16; [| exact Hall | reflexivity | lia].
    intros ->. simpl in Hj. lia. }
  rewrite Hzs. cbn [mbind option_bind].
  destruct (unpack_pack zs Hallz) as (out & Ho & Hu).
  exists out, zs. split; [exact Ho|]. split; [exact Hu|].
  intros k a Hk. pose proof (lookup_lt_Some _ _ _ Hk) as Hlt.
  apply mapM_Some in Hzs.
  assert (Hat : forall i, (i < 2 * length samples)%nat ->
                  zs !! i = resample_at samples ratio (Z.of_nat i)).
  { intros i Hi.
    assert (Hi' : map Z.of_nat (seq 0 (2 * length samples)) !! i
                  = Some (Z.of_nat i)).
    { rewrite list_lookup_fmap, lookup_seq_lt by exact Hi. reflexivity. }
    destruct (Forall2_lookup_l _ _ _ _ _ Hzs Hi') as (y & Hy & Hf).
    rewrite Hy, Hf. reflexivity. }
  rewrite !Hat by lia. split.
  - exact (resample_at_even samples k a Hk).
  - exact (resample_at_odd samples k a Hk).
Qed.

Lemma upsample_interleaves_midpoints_witness :
  exists out resampled,
    resample_audio [Byte.x01; Byte.x00; Byte.xfc; Byte.xff] 8000 16000
    = Some out
    /\ unpack_h out = Some resampled
    /\ resampled !! 0%nat = Some 1%Z
    /\ resampled !! 1%nat = Some (-1)%Z.
Proof.
  destruct (upsample_interleaves_midpoints
              [Byte.x01; Byte.x00; Byte.xfc; Byte.xff] [1; -4]%Z eq_refl)
    as (out & resampled & Ho & Hu & H).
  exists out, resampled. split; [exact Ho|]. split; [exact Hu|].
  exact (H 0%nat 1%Z eq_refl).
Defined.

Lemma sample_bytes_round_trip_witness :
  pack_h [1; -2]%Z = Some [Byte.x01; Byte.x00; Byte.xfe; Byte.xff].
Proof.
  exact (proj1 sample_bytes_round_trip
           [Byte.x01; Byte.x00; Byte.xfe; Byte.xff] [1; -2]%Z eq_refl).
Defined.

End AudioMore.

(** ** The conversation history *)

Section HistoryFacts.
Import Text History.

Lemma last_snoc_drop {A} (l : list A) (x : A) k :
  (k <= length l)%nat -> last (drop k (l ++ [x])) = Some x.
Proof.
  intros Hk. rewrite drop_app_le by exact Hk. apply last_snoc.
Qed.

(** The history keeps the latest rounds.  With a positive limit, adding
    a round leaves the newest [max] rounds of the extended history,
    the new round last; with the limit 0 the slice [history[-0:]] is
    the whole list, so nothing is ever dropped. *)
Theorem history_keeps_latest max h user_input ai_response now :
  let r := mkRound user_input ai_response now in
  let h' := add_conversation max h user_input ai_response now in
  ((0 < max)%Z ->
   h' = drop (length h + 1 - Z.to_nat max) (h ++ [r])
   /\ last h' = Some r
   /\ length h' = Nat.min (Z.to_nat max) (length h + 1))
  /\ (max = 0%Z -> h' = h ++ [r]).
Proof.
  intros r h'. subst h'. unfold add_conversation. fold r.
  split.
  - intros Hmax.
    assert (Hlen : length (h ++ [r]) = (length h + 1)%nat)
      by (rewrite length_app; reflexivity).
    destruct (max <? _)%Z eqn:E.
    + apply Z.ltb_lt in E. rewrite Hlen in E.
      unfold slice_from.
      assert ((- max <? 0)%Z = true) as -> by (apply Z.ltb_lt; lia).
      rewrite Hlen.
      replace (Z.to_nat (Z.of_nat (length h + 1) + - max))
        with (length h + 1 - Z.to_nat max)%nat by lia.
      split; [reflexivity|]. split.
      * apply last_snoc_drop. lia.
      * rewrite length_drop, Hlen. lia.
    + apply Z.ltb_ge in E. rewrite Hlen in E.
      replace (length h + 1 - Z.to_nat max)%nat with 0%nat by lia.
      split; [reflexivity|]. split.
      * apply last_snoc.
      * rewrite Hlen. lia.
  - intros ->.
    assert ((0 <? Z.of_nat (length (h ++ [r])))%Z = true) as ->.
    { apply Z.ltb_lt. rewrite length_app. simpl. lia. }
    reflexivity.
Qed.

Lemma history_keeps_latest_witness :
  add_conversation 1 [mkRound (py "a") (py "b") (py "t0")]
                   (py "c") (py "d") (py "t1")
  = [mkRound (py "c") (py "d") (py "t1")]
  /\ add_conversation 0 [mkRound (py "a") (py "b") (py "t0")]
                      (py "c") (py "d") (py "t1")
     = [mkRound (py "a") (py "b") (py "t0");
        mkRound (py "c") (py "d") (py "t1")].
Proof.
  split.
  - exact (proj1 (proj1 (history_keeps_latest 1
                           [mkRound (py "a") (py "b") (py "t0")]
                           (py "c") (py "d") (py "t1")) ltac:(lia))).
  - exact (proj2 (history_keeps_latest 0
                    [mkRound (py "a") (py "b") (py "t0")]
                    (py "c") (py "d") (py "t1")) eq_refl).
Defined.

End HistoryFacts.

(** ** The non-streaming reply *)

Section LlmFacts.
Import Text Llm.

(** The non-streaming call never answers with a blank: whatever the
    API does, the reply is not empty and carries no outer whitespace.
    It is the filtered content of the first choice whenever that is
    not empty; it is the apology when the filtered content is empty or
    there is no choice, and the service message when the call raised
    or the content is [None]. *)
Theorem simple_reply_never_blank response :
  call_llm_simple response <> []
  /\ strip (call_llm_simple response) = call_llm_simple response
  /\ (forall content rest,
        response = Choices (Some content :: rest) ->
        call_llm_simple response
        = if truthy (Filter.filter_think_tags content)
          then Filter.filter_think_tags content else sorry)
  /\ (response = Choices [] -> call_llm_simple response = sorry)
  /\ (response = ApiError \/ (exists rest, response = Choices (None :: rest)) ->
      call_llm_simple response = unavailable).
Proof.
  assert (Hs : forall content,
            strip (Filter.filter_think_tags content)
            = Filter.filter_think_tags content)
    by (intros; unfold Filter.filter_think_tags; apply strip_idempotent).
  split; [|split; [|split; [|split]]].
  - destruct response as [|[|[content|] rest]]; cbn [call_llm_simple];
      try discriminate.
    rewrite Hs. destruct (Filter.filter_think_tags content); discriminate.
  - destruct response as [|[|[content|] rest]]; cbn [call_llm_simple];
      try reflexivity.
    rewrite Hs. destruct (Filter.filter_think_tags content) eqn:E;
      cbn [truthy]; [reflexivity|]. rewrite <- E. apply Hs.
  - intros content rest ->. cbn [call_llm_simple]. rewrite Hs. reflexivity.
  - intros ->. reflexivity.
  - intros [-> | [rest ->]]; reflexivity.
Qed.

Lemma simple_reply_never_blank_witness :
  call_llm_simple (Choices [Some (py "<think>hm</think> Hi ")]) = py "Hi"
  /\ call_llm_simple (Choices [Some (py "<think>hm</think>")]) = sorry
  /\ call_llm_simple (Choices [None]) = unavailable.
Proof.
  split; [|split].
  - exact (proj1 (proj2 (proj2 (simple_reply_never_blank
             (Choices [Some (py "<think>hm</think> Hi ")]))))
             (py "<think>hm</think> Hi ") [] eq_refl).
  - exact (proj1 (proj2 (proj2 (simple_reply_never_blank
             (Choices [Some (py "<think>hm</think>")]))))
             (py "<think>hm</think>") [] eq_refl).
  - exact (proj2 (proj2 (proj2 (proj2 (simple_reply_never_blank
             (Choices [None])))))
             (or_intror (ex_intro _ [] eq_refl))).
Defined.

End LlmFacts.
